(** * AI multi-agent debate club: scheduler, pipeline and streaming session

    A shallow embedding of
    - [backend/server/workflow_manager.py]   (module [Workflow]),
    - [backend/agents/scorekeeper_agent.py]  (module [Scorekeeper]),
    - [backend/agents/debate_manager.py] and [debater_agent.py]
                                             (module [Pipeline]),
    - [backend/agents/streaming_debate_manager.py] (module [Streaming]),
    - the part of [app.py] that fetches and shows the updates
                                             (module [App]),
    with the properties of each stated and proved next to it. The sample
    workflow of [server_debug.py] is in module [Workflow].

    Python values are modelled as follows: [str] as [string] (7-bit text),
    [int] as [Z], a [dict] with string keys as [gmap string _], a [list] as
    [list], [None]-able values as [option].  Calls to the language model and
    to task callables are the only sources of non-determinism; they are
    passed in as functions or as explicit outcomes. *)

From Stdlib Require Import ZArith Ascii String.
From stdpp Require Import gmap strings list fin_maps pretty.

Open Scope string_scope.

(* ===================================================================== *)
(** * The task graph scheduler ([workflow_manager.py])                    *)
(* ===================================================================== *)

Module Workflow.

(** [class TaskStatus(Enum)] *)
Inductive TaskStatus := PENDING | IN_PROGRESS | COMPLETED | FAILED.

#[global] Instance TaskStatus_eq_dec : EqDecision TaskStatus.
Proof. solve_decision. Defined.

(** A Python object as far as the scheduler tells objects apart. The only
    question it asks of a result is [isinstance(result, Exception)], and
    the only thing it reads from one is [str(result)]: an object is an
    instance of [Exception], an instance of [BaseException] outside
    [Exception] ([asyncio.CancelledError], [GeneratorExit], ...), or
    neither. Each carries its [str()]. *)
Inductive value :=
| Obj (v : string)
| ExceptionObj (e : string)
| BaseExceptionObj (e : string).

(** [isinstance(v, Exception)] *)
Definition is_exception (v : value) : bool :=
  match v with
  | ExceptionObj _ => true
  | Obj _ | BaseExceptionObj _ => false
  end.

(** [str(v)] *)
Definition str (v : value) : string :=
  match v with
  | Obj s | ExceptionObj s | BaseExceptionObj s => s
  end.

#[global] Instance value_eq_dec : EqDecision value.
Proof. solve_decision. Defined.

(** What awaiting a task callable does. It returns an object, which may
    itself be an exception object, or it raises: an [Exception], which
    [WorkflowTask.execute] catches; [asyncio.CancelledError], which is a
    [BaseException] and passes the handler; or another exception outside
    [Exception]. The raises carry [str(e)].

    [KeyboardInterrupt] and [SystemExit] are no outcome here: the event
    loop hands neither to [asyncio.gather] but re-raises it out of
    [run_forever], and [execute_workflow] is never resumed. *)
Inductive outcome :=
| Returns (v : value)
| Raises (e : string)
| RaisesCancelled (e : string)
| RaisesBase (e : string).

(** [class WorkflowTask]. The callable receives the context as keyword
    arguments. The two timestamps are wall-clock readings used for logging
    only; they are left out. *)
Record WorkflowTask := mkTask {
  name : string;
  func : gmap string value -> outcome;
  dependencies : list string;
  status : TaskStatus;
  result : option value;
  error : option string
}.

(** [WorkflowTask.__init__] *)
Definition new_task (n : string) (f : gmap string value -> outcome)
    (deps : list string) : WorkflowTask :=
  mkTask n f deps PENDING None None.

Definition set_status (s : TaskStatus) (t : WorkflowTask) : WorkflowTask :=
  mkTask (name t) (func t) (dependencies t) s (result t) (error t).

Definition set_result (v : value) (t : WorkflowTask) : WorkflowTask :=
  mkTask (name t) (func t) (dependencies t) (status t) (Some v) (error t).

Definition set_error (e : string) (t : WorkflowTask) : WorkflowTask :=
  mkTask (name t) (func t) (dependencies t) (status t) (result t) (Some e).

(** [WorkflowTask.execute]: the task after the call, and what the call
    did. [except Exception] catches an [Exception] only, and its [raise]
    re-raises it; any other exception leaves the method where the work
    raised it, with the status still IN_PROGRESS. *)
Definition execute (t : WorkflowTask) (kwargs : gmap string value)
    : WorkflowTask * outcome :=
  let t1 := set_status IN_PROGRESS t in
  match func t1 kwargs with
  | Returns v => (set_status COMPLETED (set_result v t1), Returns v)
  | Raises e => (set_error e (set_status FAILED t1), Raises e)
  | RaisesCancelled e => (t1, RaisesCancelled e)
  | RaisesBase e => (t1, RaisesBase e)
  end.

(** What [asyncio.gather(..., return_exceptions=True)] puts into its list
    for a coroutine that ended this way: the value returned, or the
    exception object. A coroutine that raised [CancelledError] counts as a
    cancelled task, for which [gather] makes a new [CancelledError('')]. *)
Definition gathered (o : outcome) : value :=
  match o with
  | Returns v => v
  | Raises e => ExceptionObj e
  | RaisesCancelled _ => BaseExceptionObj ""
  | RaisesBase e => BaseExceptionObj e
  end.

(** [class DebateWorkflow]. [tasks] is a Python dict, which keeps its keys
    in insertion order: a list of tasks whose names are the keys. *)
Record DebateWorkflow := mkWorkflow {
  tasks : list WorkflowTask;
  context : gmap string value
}.

Definition empty_workflow : DebateWorkflow := mkWorkflow [] ∅.

Definition find_task (ts : list WorkflowTask) (n : string) : option WorkflowTask :=
  List.find (fun t => bool_decide (name t = n)) ts.

(** Writing through a reference to the task object named [name t']. *)
Definition store_task (t' : WorkflowTask) (ts : list WorkflowTask)
    : list WorkflowTask :=
  (fun t => if bool_decide (name t = name t') then t' else t) <$> ts.

(** [DebateWorkflow.add_task]: [self.tasks[name] = WorkflowTask(...)]
    replaces the value of an existing key in place and appends a new key. *)
Definition add_task (n : string) (f : gmap string value -> outcome)
    (deps : list string) (w : DebateWorkflow) : DebateWorkflow :=
  match find_task (tasks w) n with
  | Some _ => mkWorkflow (store_task (new_task n f deps) (tasks w)) (context w)
  | None => mkWorkflow (tasks w ++ [new_task n f deps]) (context w)
  end.

(** The two [logger.error] calls of [execute_workflow]. The deadlock
    message is the fixed text "Deadlock detected in workflow execution". *)
Inductive log_entry :=
| LogDeadlock
| LogTaskFailed (n e : string).

(** The variables of [execute_workflow]. [pending_tasks] holds references
    to task objects of [self.tasks]; a reference is the task's key. *)
Record run_state := mkRun {
  wf : DebateWorkflow;
  pending_tasks : list string;
  completed_task_names : gset string;
  log : list log_entry
}.

(** [all(dep in completed_task_names for dep in task.dependencies)] *)
Definition deps_resolved (completed : gset string) (t : WorkflowTask) : bool :=
  forallb (fun dep => bool_decide (dep ∈ completed)) (dependencies t).

Definition is_resolved (ts : list WorkflowTask) (completed : gset string)
    (n : string) : bool :=
  match find_task ts n with
  | Some t => deps_resolved completed t
  | None => false
  end.

Definition tasks_to_execute (st : run_state) : list string :=
  List.filter (is_resolved (tasks (wf st)) (completed_task_names st))
    (pending_tasks st).

(** [asyncio.gather] over [task.execute] of every task of the batch, with
    [return_exceptions=True], zipped with the batch: every coroutine is
    created with the same keyword arguments (the context at that moment),
    and the results come back in the order of the batch. *)
Fixpoint gather (ts : list WorkflowTask) (kwargs : gmap string value)
    (batch : list string) : list WorkflowTask * list (string * value) :=
  match batch with
  | [] => (ts, [])
  | n :: batch' =>
      match find_task ts n with
      | Some t =>
          let '(t', r) := execute t kwargs in
          let '(ts', rs) := gather (store_task t' ts) kwargs batch' in
          (ts', (n, gathered r) :: rs)
      | None => gather ts kwargs batch'
      end
  end.

Definition alter_task (f : WorkflowTask -> WorkflowTask) (n : string)
    (ts : list WorkflowTask) : list WorkflowTask :=
  (fun t => if bool_decide (name t = n) then f t else t) <$> ts.

(** The body of [for task, result in zip(tasks_to_execute, results)]: the
    test is on the object that came back, whichever way it came. *)
Definition process_result (st : run_state) (nr : string * value) : run_state :=
  let '(n, result) := nr in
  if is_exception result then
    mkRun (mkWorkflow
             (alter_task (fun t => set_error (str result) (set_status FAILED t)) n
                (tasks (wf st)))
             (context (wf st)))
          (pending_tasks st) (completed_task_names st)
          (log st ++ [LogTaskFailed n (str result)])
  else
    mkRun (mkWorkflow (tasks (wf st))
             (<[n ++ "_result" := result]> (context (wf st))))
          (pending_tasks st) ({[n]} ∪ completed_task_names st) (log st).

(** The body of [for task_name, task in self.tasks.items()]. *)
Definition add_eligible (completed : gset string) (pending : list string)
    (t : WorkflowTask) : list string :=
  if bool_decide (name t ∉ completed)
     && bool_decide (status t = PENDING)
     && bool_decide (name t ∉ pending)
  then pending ++ [name t] else pending.

(** One pass of the [while] body once a non-empty batch was found. *)
Definition run_batch (st : run_state) (batch : list string) : run_state :=
  let '(ts, results) := gather (tasks (wf st)) (context (wf st)) batch in
  let st1 := mkRun (mkWorkflow ts (context (wf st)))
               (pending_tasks st) (completed_task_names st) (log st) in
  let st2 := foldl process_result st1 results in
  let pending :=
    List.filter (fun n => bool_decide (n ∉ completed_task_names st2))
      (pending_tasks st2) in
  mkRun (wf st2)
        (foldl (add_eligible (completed_task_names st2)) pending (tasks (wf st2)))
        (completed_task_names st2) (log st2).

(** The [while pending_tasks:] loop. [None] only when the fuel runs out. *)
Fixpoint run_loop (fuel : nat) (st : run_state) : option run_state :=
  match fuel with
  | O => None
  | S fuel' =>
      match pending_tasks st with
      | [] => Some st
      | _ :: _ =>
          match tasks_to_execute st with
          | [] => Some (mkRun (wf st) (pending_tasks st)
                          (completed_task_names st) (log st ++ [LogDeadlock]))
          | batch => run_loop fuel' (run_batch st batch)
          end
      end
  end.

(** The state on entry to the loop: [self.context.update(initial_context)],
    the tasks without dependencies, no completed name. *)
Definition initial_run (w : DebateWorkflow) (initial_context : gmap string value)
    : run_state :=
  mkRun (mkWorkflow (tasks w) (initial_context ∪ context w))
        (name <$> List.filter (fun t => bool_decide (dependencies t = [])) (tasks w))
        ∅ [].

(** [DebateWorkflow.execute_workflow]. The Python function returns
    [self.context]; the final [run_state] holds it together with the
    workflow object (what [get_status] reads) and the error log. *)
Definition execute_workflow (fuel : nat) (w : DebateWorkflow)
    (initial_context : gmap string value) : option run_state :=
  run_loop fuel (initial_run w initial_context).

(** [DebateWorkflow.get_status], without the timestamps. *)
Definition get_status (w : DebateWorkflow) : list (string * (TaskStatus * option string)) :=
  (fun t => (name t, (status t, error t))) <$> tasks w.

Definition status_of (w : DebateWorkflow) (n : string) : option TaskStatus :=
  status <$> find_task (tasks w) n.

(** ** Basic facts about the task store *)

(** The part of a task that running it never changes. *)
Definition same_shape (t t' : WorkflowTask) : Prop :=
  name t' = name t /\ func t' = func t /\ dependencies t' = dependencies t.

Lemma execute_shape t kwargs : same_shape t (execute t kwargs).1.
Proof. unfold execute. by destruct (func _ kwargs). Qed.

Lemma execute_outcome t kwargs : (execute t kwargs).2 = func t kwargs.
Proof. unfold execute. simpl. by destruct (func t kwargs). Qed.

Lemma find_task_Some ts n t : find_task ts n = Some t -> name t = n /\ t ∈ ts.
Proof.
  unfold find_task. intros H. apply find_some in H as [Hin Hn].
  split; [by apply bool_decide_eq_true in Hn | by apply list_elem_of_In].
Qed.

(** A name-preserving rewrite of the store commutes with look-up. *)
Lemma find_task_fmap (g : WorkflowTask -> WorkflowTask) ts n :
  (forall t, name (g t) = name t) ->
  find_task (g <$> ts) n = g <$> find_task ts n.
Proof.
  intros Hg. unfold find_task. induction ts as [|t ts IH]; [done|].
  simpl. rewrite Hg. destruct (bool_decide (name t = n)); [done | apply IH].
Qed.

Lemma find_task_store_task t' ts n :
  find_task (store_task t' ts) n
  = (fun t => if bool_decide (name t = name t') then t' else t) <$> find_task ts n.
Proof.
  unfold store_task. apply find_task_fmap.
  intros t. by case_bool_decide.
Qed.

Lemma find_task_alter_task f n0 ts n :
  (forall t, name (f t) = name t) ->
  find_task (alter_task f n0 ts) n
  = (fun t => if bool_decide (name t = n0) then f t else t) <$> find_task ts n.
Proof.
  intros Hf. unfold alter_task. apply find_task_fmap.
  intros t. by case_bool_decide.
Qed.

(** More fuel never changes a result. *)
Lemma run_loop_fuel_mono fuel k st r :
  run_loop fuel st = Some r -> run_loop (fuel + k) st = Some r.
Proof.
  revert st. induction fuel as [|fuel IH]; intros st; [done|].
  simpl. destruct (pending_tasks st); [done|].
  destruct (tasks_to_execute st); [done|]. apply IH.
Qed.

(** ** A failed task stays in [pending_tasks]

    After a pass, [pending_tasks] drops the names in
    [completed_task_names] only. A task whose work raised is not among
    them, so it is run again by the next pass. *)

Section Retry.

Variable n : string.

(** The task named [n] has no dependency, and every call of its work ends
    in an [Exception]: raised, or returned as a value. *)
Definition always_fails (ts : list WorkflowTask) : Prop :=
  exists t, find_task ts n = Some t /\ dependencies t = [] /\
            forall kwargs, is_exception (gathered (func t kwargs)) = true.

(** The loop invariant: that task is pending and not completed. *)
Definition retry_inv (st : run_state) : Prop :=
  always_fails (tasks (wf st)) /\ n ∈ pending_tasks st /\
  n ∉ completed_task_names st.

Lemma always_fails_store ts n0 t0 kwargs :
  find_task ts n0 = Some t0 ->
  always_fails ts -> always_fails (store_task (execute t0 kwargs).1 ts).
Proof.
  intros H0 (t & Ht & Hd & Hf). unfold always_fails.
  rewrite find_task_store_task, Ht. simpl.
  destruct (execute_shape t0 kwargs) as (En & Ef & Ed).
  case_bool_decide as Hn.
  - assert (t0 = t) as ->.
    { pose proof (find_task_Some _ _ _ H0) as [E0 _].
      pose proof (find_task_Some _ _ _ Ht) as [E1 _].
      assert (n0 = n) as -> by congruence. congruence. }
    eexists. split; [done|]. rewrite Ed, Ef. done.
  - eauto.
Qed.

Lemma gather_always_fails batch : forall ts kwargs,
  always_fails ts ->
  always_fails (gather ts kwargs batch).1 /\
  forall r, (n, r) ∈ (gather ts kwargs batch).2 -> is_exception r = true.
Proof.
  induction batch as [|n0 batch IH]; intros ts kwargs Hts; simpl.
  - split; [done|]. intros r Hr. by apply elem_of_nil in Hr.
  - destruct (find_task ts n0) as [t0|] eqn:H0; [|by apply IH].
    pose proof (always_fails_store _ _ _ kwargs H0 Hts) as Hts'.
    pose proof (execute_outcome t0 kwargs) as Ho.
    destruct (execute t0 kwargs) as [t' r0] eqn:He. simpl in *.
    specialize (IH (store_task t' ts) kwargs Hts') as [IH1 IH2].
    destruct (gather (store_task t' ts) kwargs batch) as [ts' rs]. simpl in *.
    split; [done|]. intros r Hr. apply elem_of_cons in Hr as [Hr|Hr]; [|eauto].
    injection Hr as <- ->.
    destruct Hts as (t & Ht & _ & Hf). rewrite H0 in Ht. injection Ht as <-.
    rewrite Ho. apply Hf.
Qed.

Lemma always_fails_alter f n0 ts :
  (forall t, same_shape t (f t)) ->
  always_fails ts -> always_fails (alter_task f n0 ts).
Proof.
  intros Hf (t & Ht & Hd & Hr). unfold always_fails.
  rewrite find_task_alter_task, Ht by (intros t0; apply Hf). simpl.
  case_bool_decide; [|eauto].
  destruct (Hf t) as (_ & Ef & Ed). eexists. split; [done|].
  rewrite Ed, Ef. done.
Qed.

Lemma process_results_retry results : forall st,
  retry_inv st ->
  (forall r, (n, r) ∈ results -> is_exception r = true) ->
  retry_inv (foldl process_result st results).
Proof.
  induction results as [|[n0 r0] results IH]; intros st Hst Hres; [done|].
  simpl foldl. apply IH.
  - destruct Hst as (Hts & Hp & Hc). unfold process_result.
    destruct (is_exception r0) eqn:Hr0.
    + split; [|split; [exact Hp | exact Hc]]. simpl.
      apply always_fails_alter; [|done].
      intros t. by split; [|split].
    + split; [exact Hts | split; [exact Hp|]]. simpl.
      assert (n0 <> n) as Hne.
      { intros ->. rewrite Hres in Hr0; [done | left]. }
      intros [Hin%elem_of_singleton|Hin]%elem_of_union; [congruence | done].
  - intros r Hr. apply Hres. by right.
Qed.

Lemma add_eligible_keeps completed ts : forall pending,
  n ∈ pending -> n ∈ foldl (add_eligible completed) pending ts.
Proof.
  induction ts as [|t ts IH]; intros pending Hp; [done|].
  simpl. apply IH. unfold add_eligible.
  destruct (_ && _); [|done]. apply elem_of_app. by left.
Qed.

Lemma run_batch_retry st batch : retry_inv st -> retry_inv (run_batch st batch).
Proof.
  intros (Hts & Hp & Hc). unfold run_batch.
  destruct (gather_always_fails batch _ (context (wf st)) Hts) as [G1 G2].
  destruct (gather (tasks (wf st)) (context (wf st)) batch) as [ts results].
  simpl in G1, G2.
  set (st1 := mkRun (mkWorkflow ts (context (wf st))) (pending_tasks st)
                (completed_task_names st) (log st)).
  assert (retry_inv st1) as H1 by (split; [exact G1 | split; [exact Hp | exact Hc]]).
  pose proof (process_results_retry results st1 H1 G2) as (F1 & F2 & F3).
  split; [exact F1 | split; [|exact F3]]. simpl.
  apply add_eligible_keeps. apply list_elem_of_In, filter_In.
  split; [by apply list_elem_of_In | by apply bool_decide_eq_true].
Qed.

Lemma retry_batch_nonempty st : retry_inv st -> tasks_to_execute st <> [].
Proof.
  intros ((t & Ht & Hd & _) & Hp & _) Hnil.
  assert (n ∈ tasks_to_execute st) as Hin.
  { unfold tasks_to_execute. apply list_elem_of_In, filter_In.
    split; [by apply list_elem_of_In|].
    unfold is_resolved, deps_resolved. by rewrite Ht, Hd. }
  rewrite Hnil in Hin. by apply elem_of_nil in Hin.
Qed.

Lemma run_loop_retry fuel : forall st, retry_inv st -> run_loop fuel st = None.
Proof.
  induction fuel as [|fuel IH]; intros st Hst; [done|].
  simpl. destruct (pending_tasks st) as [|p ps] eqn:Hp.
  { destruct Hst as (_ & Hin & _). rewrite Hp in Hin. by apply elem_of_nil in Hin. }
  pose proof (retry_batch_nonempty st Hst) as Hne.
  destruct (tasks_to_execute st) as [|b bs] eqn:Hb; [done|].
  apply IH, run_batch_retry, Hst.
Qed.

End Retry.

(** C1, the code at a failing input. Take any workflow and any initial
    context, and a task [t] registered in it (looked up under its name)
    that has no dependencies and whose work raises on every call. Then
    [execute_workflow] does not return, whatever the fuel: the task [t],
    FAILED with all its (zero) dependencies satisfied, is kept in
    [pending_tasks] and executed again by every pass. *)
Theorem execute_workflow_reruns_failed_task :
  forall (w : DebateWorkflow) (initial_context : gmap string value)
         (t : WorkflowTask) (fuel : nat),
    find_task (tasks w) (name t) = Some t ->
    dependencies t = [] ->
    (forall kwargs, exists e, func t kwargs = Raises e) ->
    execute_workflow fuel w initial_context = None.
Proof.
  intros w ctx t fuel Ht Hd Hf. unfold execute_workflow.
  apply (run_loop_retry (name t)). split; [|split]; simpl.
  - exists t. split; [done|]. split; [done|].
    intros kwargs. by destruct (Hf kwargs) as [e ->].
  - apply list_elem_of_fmap. exists t. split; [done|].
    apply list_elem_of_In, filter_In. split.
    + apply list_elem_of_In. by apply find_task_Some in Ht as [_ ?].
    + by apply bool_decide_eq_true.
  - set_solver.
Qed.

(** The smallest instance: one task, no dependency, work that raises. *)
Definition failing_workflow : DebateWorkflow :=
  add_task "A" (fun _ => Raises "boom") [] empty_workflow.

Lemma execute_workflow_reruns_failed_task_witness :
  execute_workflow 1000 failing_workflow ∅ = None.
Proof.
  apply (execute_workflow_reruns_failed_task failing_workflow ∅
           (new_task "A" (fun _ => Raises "boom") []) 1000).
  - reflexivity.
  - reflexivity.
  - intros kwargs. by exists "boom".
Defined.

(** ** Tasks that wait on each other are never run *)

Section Stuck.

(** A set of task names in which every task depends on a member. *)
Variable S : gset string.

Definition waits_in_S (t : WorkflowTask) : Prop :=
  exists d, d ∈ dependencies t /\ d ∈ S.

Definition stuck_inv (st : run_state) : Prop :=
  (forall t, t ∈ tasks (wf st) -> name t ∈ S ->
             status t = PENDING /\ waits_in_S t) /\
  (forall m, m ∈ completed_task_names st -> m ∉ S) /\
  (forall m e, LogTaskFailed m e ∈ log st -> m ∉ S).

Lemma batch_not_stuck st m :
  stuck_inv st -> m ∈ tasks_to_execute st -> m ∉ S.
Proof.
  intros (Ht & Hc & _) Hm HmS. unfold tasks_to_execute in Hm.
  apply list_elem_of_In, filter_In in Hm as [_ Hr].
  unfold is_resolved in Hr.
  destruct (find_task _ m) as [t|] eqn:Hf; [|done].
  apply find_task_Some in Hf as [<- Hin].
  destruct (Ht t Hin HmS) as [_ (d & Hd & HdS)].
  unfold deps_resolved in Hr. rewrite forallb_forall in Hr.
  apply list_elem_of_In in Hd. apply Hr, bool_decide_eq_true in Hd.
  by apply (Hc d).
Qed.

Lemma gather_untouched batch : forall ts kwargs,
  (forall m, m ∈ batch -> m ∉ S) ->
  (forall t, t ∈ (gather ts kwargs batch).1 -> name t ∈ S -> t ∈ ts) /\
  (forall m r, (m, r) ∈ (gather ts kwargs batch).2 -> m ∈ batch).
Proof.
  induction batch as [|n0 batch IH]; intros ts kwargs Hb; simpl.
  - split; [done|]. intros m r Hr. by apply elem_of_nil in Hr.
  - assert (forall m, m ∈ batch -> m ∉ S) as Hb'.
    { intros m Hm. apply Hb. by right. }
    destruct (find_task ts n0) as [t0|] eqn:H0.
    + pose proof (execute_shape t0 kwargs) as (En & _ & _).
      destruct (execute t0 kwargs) as [t' r0]. simpl in En.
      specialize (IH (store_task t' ts) kwargs Hb') as [IH1 IH2].
      destruct (gather (store_task t' ts) kwargs batch) as [ts' rs]. simpl in *.
      split.
      * intros t Ht HS. specialize (IH1 t Ht HS).
        unfold store_task in IH1.
        apply list_elem_of_fmap in IH1 as (t1 & -> & Hin).
        case_bool_decide; [|done]. exfalso.
        apply find_task_Some in H0 as [E0 _].
        apply (Hb n0); [by left | congruence].
      * intros m r Hr. apply elem_of_cons in Hr as [Hr|Hr].
        -- injection Hr as -> _. by left.
        -- right. by eapply IH2.
    + destruct (IH ts kwargs Hb') as [IH1 IH2]. split; [done|].
      intros m r Hr. right. by eapply IH2.
Qed.

Lemma process_results_stuck results : forall st,
  stuck_inv st -> (forall m r, (m, r) ∈ results -> m ∉ S) ->
  stuck_inv (foldl process_result st results).
Proof.
  induction results as [|[n0 r0] results IH]; intros st Hst Hres; [done|].
  simpl. apply IH; [|intros m r Hr; eapply Hres; by right].
  assert (n0 ∉ S) as Hn0 by (eapply Hres; by left).
  destruct Hst as (Ht & Hc & Hl). unfold process_result.
  destruct (is_exception r0).
  - split; [|split; [exact Hc|]]; simpl.
    + intros t Hin HS. unfold alter_task in Hin.
      apply list_elem_of_fmap in Hin as (t1 & -> & Hin).
      case_bool_decide as Hn; [|by apply Ht].
      exfalso. simpl in HS. congruence.
    + intros m e' [Hin | [= -> ->]%list_elem_of_singleton]%elem_of_app;
        [by eapply Hl | done].
  - split; [exact Ht | split; [|exact Hl]]. simpl.
    intros m [->%elem_of_singleton|Hm]%elem_of_union; [done | by apply Hc].
Qed.

Lemma run_batch_stuck st :
  stuck_inv st -> stuck_inv (run_batch st (tasks_to_execute st)).
Proof.
  intros Hst. unfold run_batch.
  pose proof (fun m => batch_not_stuck st m Hst) as Hb.
  destruct (gather_untouched (tasks_to_execute st) (tasks (wf st))
              (context (wf st)) Hb) as [G1 G2].
  destruct (gather (tasks (wf st)) (context (wf st)) (tasks_to_execute st))
    as [ts results]. simpl in G1, G2.
  set (st1 := mkRun (mkWorkflow ts (context (wf st))) (pending_tasks st)
                (completed_task_names st) (log st)).
  assert (stuck_inv st1) as H1.
  { destruct Hst as (Ht & Hc & Hl). split; [|split; [exact Hc | exact Hl]].
    simpl. intros t Hin HS. apply Ht; [by apply G1 | done]. }
  assert (forall m r, (m, r) ∈ results -> m ∉ S) as Hres.
  { intros m r Hr. eapply Hb, G2, Hr. }
  exact (process_results_stuck results st1 H1 Hres).
Qed.

Lemma run_loop_stuck fuel : forall st st',
  stuck_inv st -> run_loop fuel st = Some st' -> stuck_inv st'.
Proof.
  induction fuel as [|fuel IH]; intros st st' Hst Hrun; [done|].
  simpl in Hrun. destruct (pending_tasks st) as [|p ps]; [by injection Hrun as <-|].
  destruct (tasks_to_execute st) as [|b bs] eqn:Hb.
  - injection Hrun as <-. destruct Hst as (Ht & Hc & Hl).
    split; [exact Ht | split; [exact Hc|]]. simpl.
    intros m e [Hin | Hin%list_elem_of_singleton]%elem_of_app;
      [by eapply Hl | done].
  - eapply IH; [|exact Hrun]. rewrite <- Hb. by apply run_batch_stuck.
Qed.

End Stuck.

(** [c] is a dependency cycle of [w]: its entries are names of registered
    tasks, and the task named by an entry depends on the next entry, the
    last one on the first. *)
Definition dep_cycle (w : DebateWorkflow) (c : list string) : Prop :=
  c <> [] /\
  forall i n, c !! i = Some n ->
    n ∈ name <$> tasks w /\
    exists d, c !! ((i + 1) mod length c)%nat = Some d /\
      forall t, t ∈ tasks w -> name t = n -> d ∈ dependencies t.

(** Without a dependency-free task the loop is not entered. *)
Lemma no_root_returns_at_once w initial_context fuel :
  (forall t, t ∈ tasks w -> dependencies t <> []) ->
  execute_workflow (Datatypes.S fuel) w initial_context
  = Some (initial_run w initial_context).
Proof.
  intros Hd. unfold execute_workflow. simpl.
  replace (List.filter _ (tasks w)) with (@nil WorkflowTask); [done|].
  symmetry. induction (tasks w) as [|t ts IH]; [done|]. simpl.
  rewrite bool_decide_eq_false_2 by (apply Hd; by left).
  apply IH. intros t' Ht'. apply Hd. by right.
Qed.

(** The 2-node cycle: A depends on B and B depends on A. *)
Definition two_cycle (fa fb : gmap string value -> outcome) : DebateWorkflow :=
  add_task "B" fb ["A"] (add_task "A" fa ["B"] empty_workflow).

Lemma dep_cycle_waits w c t :
  dep_cycle w c -> t ∈ tasks w -> name t ∈ (list_to_set c : gset string) ->
  waits_in_S (list_to_set c) t.
Proof.
  intros [_ Hc] Ht Hn. apply elem_of_list_to_set, list_elem_of_lookup in Hn as [i Hi].
  destruct (Hc i (name t) Hi) as (_ & d & Hd & Hdep).
  exists d. split; [by apply Hdep|].
  apply elem_of_list_to_set, list_elem_of_lookup. eauto.
Qed.

Definition returns_ok (v : string) : gmap string value -> outcome :=
  fun _ => Returns (Obj v).

Lemma two_cycle_is_cycle fa fb : dep_cycle (two_cycle fa fb) ["A"; "B"].
Proof.
  split; [done|].
  intros i n Hi. destruct i as [|[|i]]; simpl in Hi; [| |done].
  - injection Hi as <-. split; [set_solver|]. exists "B". split; [done|].
    intros t Ht Hn. unfold two_cycle, add_task in Ht. simpl in Ht.
    apply elem_of_cons in Ht as [->|Ht]; [set_solver|].
    apply list_elem_of_singleton in Ht as ->. done.
  - injection Hi as <-. split; [set_solver|]. exists "A". split; [done|].
    intros t Ht Hn. unfold two_cycle, add_task in Ht. simpl in Ht.
    apply elem_of_cons in Ht as [->|Ht]; [done|].
    apply list_elem_of_singleton in Ht as ->. set_solver.
Qed.

(** ** The three-task graph: A, B without dependencies, C after both *)

Definition three_tasks (fa : gmap string value -> outcome) : DebateWorkflow :=
  add_task "C" (returns_ok "c") ["A"; "B"]
    (add_task "B" (returns_ok "b") []
       (add_task "A" fa [] empty_workflow)).

(** Work that raises as long as the context holds no value under [k]. *)
Definition raises_until (k : string) : gmap string value -> outcome :=
  fun kwargs =>
    match kwargs !! k with
    | Some _ => Returns (Obj "late")
    | None => Raises "missing"
    end.

(** C3, the code at a failing input. A's work raises in the first pass
    (the context has no [B_result] yet); A stays pending although FAILED,
    the second pass runs it again, it returns, and the third pass runs C:
    the run returns, with any fuel of 4 or more, and C ends COMPLETED
    after A failed. The log keeps A's failure. *)
Theorem failed_task_rerun_completes_dependent :
  forall k : nat,
    (fun st => (get_status (wf st), log st))
      <$> execute_workflow (4 + k) (three_tasks (raises_until "B_result")) ∅
    = Some ([("A", (COMPLETED, Some "missing")); ("B", (COMPLETED, None));
             ("C", (COMPLETED, None))],
            [LogTaskFailed "A" "missing"]).
Proof.
  intros k. unfold execute_workflow.
  destruct (run_loop 4 (initial_run (three_tasks (raises_until "B_result")) ∅))
    as [st|] eqn:Hrun; [|by vm_compute in Hrun].
  rewrite (run_loop_fuel_mono 4 k _ st Hrun).
  vm_compute in Hrun. injection Hrun as <-. by vm_compute.
Qed.

(** With work that raises on every call there is no final status at all. *)
Lemma three_tasks_always_failing_diverges fuel e :
  execute_workflow fuel (three_tasks (fun _ => Raises e)) ∅ = None.
Proof.
  apply (run_loop_retry "A"). split; [|split]; simpl.
  - exists (new_task "A" (fun _ => Raises e) []). by split; [|split].
  - set_solver.
  - set_solver.
Qed.

(** B is independent of A: it is COMPLETED after the first pass whatever
    A's work did in that pass, and C has not run. *)
Lemma three_tasks_first_pass_completes_B (o : outcome) :
  let st := initial_run (three_tasks (fun _ => o)) ∅ in
  tasks_to_execute st = ["A"; "B"] /\
  status_of (wf (run_batch st ["A"; "B"])) "B" = Some COMPLETED /\
  status_of (wf (run_batch st ["A"; "B"])) "C" = Some PENDING.
Proof. destruct o as [[v|e|e]|e|e|e]; by vm_compute. Qed.


(* ===================================================================== *)
(** ** Registering tasks *)

Lemma find_task_app ts1 ts2 n :
  find_task (ts1 ++ ts2) n
  = match find_task ts1 n with
    | Some t => Some t
    | None => find_task ts2 n
    end.
Proof.
  unfold find_task. induction ts1 as [|t ts1 IH]; simpl; [done|].
  by destruct (bool_decide _).
Qed.

Lemma find_task_None ts n : find_task ts n = None <-> n ∉ name <$> ts.
Proof.
  unfold find_task. induction ts as [|t ts IH]; simpl.
  - split; [intros _ H; by apply elem_of_nil in H | done].
  - rewrite not_elem_of_cons. case_bool_decide as Hn.
    + split; [done | intros [? _]; congruence].
    + rewrite IH. split; [by split; [congruence|] | by intros [_ ?]].
Qed.

(** Under unique keys, look-up by name finds every stored task. *)
Lemma find_task_elem ts t :
  NoDup (name <$> ts) -> t ∈ ts -> find_task ts (name t) = Some t.
Proof.
  unfold find_task. induction ts as [|t0 ts IH]; intros Hnd Ht.
  - by apply elem_of_nil in Ht.
  - rewrite fmap_cons in Hnd. apply NoDup_cons in Hnd as [Hn0 Hnd]. simpl.
    apply elem_of_cons in Ht as [->|Ht].
    + by rewrite bool_decide_eq_true_2.
    + rewrite bool_decide_eq_false_2; [by apply IH|].
      intros E. apply Hn0. rewrite E. apply list_elem_of_fmap. by exists t.
Qed.

(** X1. [add_task] followed by a look-up: the name just registered maps to a
    fresh PENDING task with the given work and dependencies, whether or
    not the name was registered before; every other name maps to what it
    mapped to. *)
Theorem add_task_lookup n f deps w m :
  find_task (tasks (add_task n f deps w)) m
  = if bool_decide (m = n) then Some (new_task n f deps)
    else find_task (tasks w) m.
Proof.
  unfold add_task. destruct (find_task (tasks w) n) as [t0|] eqn:H0; simpl.
  - rewrite find_task_store_task. simpl. case_bool_decide as Hm.
    + subst m. rewrite H0. simpl. apply find_task_Some in H0 as [-> _].
      by rewrite bool_decide_eq_true_2.
    + destruct (find_task (tasks w) m) as [t|] eqn:Ht; [|done]. simpl.
      apply find_task_Some in Ht as [Hn _].
      rewrite bool_decide_eq_false_2; [done | congruence].
  - rewrite find_task_app. case_bool_decide as Hm.
    + subst m. rewrite H0. unfold find_task. simpl.
      by rewrite bool_decide_eq_true_2.
    + destruct (find_task (tasks w) m); [done|]. unfold find_task. simpl.
      rewrite bool_decide_eq_false_2; [done | congruence].
Qed.

Lemma add_task_names n f deps w :
  name <$> tasks (add_task n f deps w)
  = if bool_decide (n ∈ name <$> tasks w) then name <$> tasks w
    else ((name <$> tasks w) ++ [n])%list.
Proof.
  unfold add_task. destruct (find_task (tasks w) n) as [t0|] eqn:H0; simpl.
  - rewrite bool_decide_eq_true_2.
    + unfold store_task. rewrite <- list_fmap_compose.
      apply list_fmap_ext. intros i t _. simpl. by case_bool_decide.
    + apply find_task_Some in H0 as [<- Hin]. apply list_elem_of_fmap. by exists t0.
  - rewrite bool_decide_eq_false_2 by by apply find_task_None.
    by rewrite fmap_app.
Qed.

(** One call [workflow.add_task(name, func, dependencies)]. *)
Definition registration : Type :=
  string * (gmap string value -> outcome) * list string.

Definition register (w : DebateWorkflow) (r : registration) : DebateWorkflow :=
  add_task r.1.1 r.1.2 r.2 w.

(** [DebateWorkflow()] followed by the calls of [regs], first to last. *)
Definition build (regs : list registration) : DebateWorkflow :=
  foldl register empty_workflow regs.

(** The last registration under a name. *)
Definition last_registration (regs : list registration) (n : string)
    : option registration :=
  List.find (fun r => bool_decide (r.1.1 = n)) (reverse regs).

(** X2. A workflow built by any sequence of [add_task] calls has one task per
    name, all of them PENDING without result or error, an empty context,
    and under each name the task of the last registration of that name. *)
Theorem build_registers_last_under_unique_names regs :
  NoDup (name <$> tasks (build regs)) /\
  Forall (fun t => status t = PENDING /\ result t = None /\ error t = None)
    (tasks (build regs)) /\
  context (build regs) = ∅ /\
  forall n, find_task (tasks (build regs)) n
            = (fun r => new_task r.1.1 r.1.2 r.2) <$> last_registration regs n.
Proof.
  unfold build. induction regs as [|r regs IH] using rev_ind.
  - split; [constructor | split; [constructor | split; [done|done]]].
  - rewrite foldl_app. simpl. destruct IH as (Hnd & Hst & Hctx & Hfind).
    set (w := foldl register empty_workflow regs) in *.
    split; [|split; [|split]].
    + unfold register. rewrite add_task_names. case_bool_decide as Hin; [done|].
      apply NoDup_app. split; [done|]. split; [|apply NoDup_singleton].
      intros x Hx ->%list_elem_of_singleton. done.
    + unfold register, add_task. destruct (find_task (tasks w) r.1.1); simpl.
      * unfold store_task. apply Forall_fmap. eapply Forall_impl; [exact Hst|].
        intros t Ht. simpl. by case_bool_decide.
      * apply Forall_app. split; [done|]. by constructor.
    + unfold register, add_task. by destruct (find_task (tasks w) r.1.1).
    + intros n. unfold register. rewrite add_task_lookup.
      unfold last_registration. rewrite reverse_snoc. simpl.
      case_bool_decide as Hn.
      * subst n. by rewrite bool_decide_eq_true_2.
      * rewrite bool_decide_eq_false_2 by congruence. apply Hfind.
Qed.

(* ===================================================================== *)
(** ** One pass of the loop, task by task

    With one task per name and a batch without repetition, a pass has a
    closed form: every task of the batch is executed once on the context
    the pass started with, the outcomes come back in batch order, and the
    bookkeeping after the [gather] changes no task any further. *)

Lemma string_app_nil (s : string) : "" ++ s = s.
Proof. reflexivity. Qed.

Lemma string_app_cons a (s1 s2 : string) :
  String a s1 ++ s2 = String a (s1 ++ s2).
Proof. reflexivity. Qed.

Lemma string_app_length (s1 s2 : string) :
  String.length (s1 ++ s2) = String.length s1 + String.length s2.
Proof.
  induction s1 as [|a s1 IH]; [done|].
  rewrite string_app_cons. simpl. by rewrite IH.
Qed.

(** Distinct task names have distinct result keys. *)
Lemma result_key_inj (n m : string) : n ++ "_result" = m ++ "_result" -> n = m.
Proof.
  revert m. induction n as [|a n IH]; intros [|b m] H.
  - done.
  - apply (f_equal String.length) in H.
    rewrite string_app_nil, string_app_cons in H. simpl in H.
    rewrite string_app_length in H. simpl in H. lia.
  - apply (f_equal String.length) in H.
    rewrite string_app_nil, string_app_cons in H. simpl in H.
    rewrite string_app_length in H. simpl in H. lia.
  - rewrite !string_app_cons in H. injection H as -> H. f_equal. by apply IH.
Qed.

Lemma omap_ext_elem {A B} (f g : A -> option B) (l : list A) :
  (forall x, x ∈ l -> f x = g x) -> omap f l = omap g l.
Proof.
  induction l as [|x l IH]; intros H; [done|].
  assert (omap f l = omap g l) as IH'.
  { apply IH. intros y Hy. apply H. by right. }
  simpl. rewrite (H x) by left. destruct (g x); [f_equal|]; exact IH'.
Qed.

Lemma store_task_names t' ts : name <$> store_task t' ts = name <$> ts.
Proof.
  unfold store_task. rewrite <- list_fmap_compose. apply list_fmap_ext.
  intros i t _. simpl. by case_bool_decide.
Qed.

(** The tasks after the [gather] of a pass. *)
Definition executed (ts : list WorkflowTask) (kwargs : gmap string value)
    (batch : list string) : list WorkflowTask :=
  (fun t => if bool_decide (name t ∈ batch) then (execute t kwargs).1 else t)
    <$> ts.

(** What the [gather] returns, zipped with the batch. *)
Definition outcomes (ts : list WorkflowTask) (kwargs : gmap string value)
    (batch : list string) : list (string * value) :=
  omap (fun n => (fun t => (n, gathered (func t kwargs))) <$> find_task ts n)
    batch.

Lemma gather_spec batch : forall ts kwargs,
  NoDup (name <$> ts) -> NoDup batch ->
  gather ts kwargs batch = (executed ts kwargs batch, outcomes ts kwargs batch).
Proof.
  unfold executed, outcomes.
  induction batch as [|n0 batch IH]; intros ts kwargs Hts Hb.
  - simpl gather. f_equal. rewrite <- (list_fmap_id ts) at 1. apply list_fmap_ext.
    intros i t _. rewrite bool_decide_eq_false_2; [done|]. apply not_elem_of_nil.
  - apply NoDup_cons in Hb as [Hn0 Hb]. simpl gather.
    destruct (find_task ts n0) as [t0|] eqn:H0.
    + pose proof (execute_shape t0 kwargs) as (En & Ef & Ed).
      pose proof (execute_outcome t0 kwargs) as Ho.
      pose proof (find_task_Some _ _ _ H0) as [E0 Hin0].
      destruct (execute t0 kwargs) as [t' r0] eqn:He. simpl in En, Ef, Ed, Ho.
      rewrite IH; [|by rewrite store_task_names | done].
      f_equal.
      * unfold store_task. rewrite <- list_fmap_compose. apply list_fmap_ext.
        intros i t Ht%list_elem_of_lookup_2. simpl.
        destruct (decide (name t = n0)) as [E|E].
        -- assert (t = t0) as ->.
           { pose proof (find_task_elem ts t Hts Ht) as Hf.
             rewrite E, H0 in Hf. by injection Hf. }
           rewrite (bool_decide_eq_true_2 (name t0 = name t')) by congruence.
           rewrite (bool_decide_eq_false_2 (name t' ∈ batch)) by congruence.
           rewrite (bool_decide_eq_true_2 (name t0 ∈ n0 :: batch))
             by (rewrite E0; left).
           by rewrite He.
        -- rewrite (bool_decide_eq_false_2 (name t = name t')) by congruence.
           destruct (decide (name t ∈ batch)) as [Hin|Hin].
           ++ rewrite !bool_decide_eq_true_2; [done | by right | done].
           ++ rewrite !bool_decide_eq_false_2; [done | | done].
              intros [?|?]%elem_of_cons; done.
      * simpl. rewrite H0. simpl. f_equal; [by rewrite Ho|].
        apply omap_ext_elem. intros n Hn. rewrite find_task_store_task.
        destruct (find_task ts n) as [t|] eqn:Hf; [|done]. simpl.
        apply find_task_Some in Hf as [Hf _].
        rewrite bool_decide_eq_false_2; [done|]. congruence.
    + rewrite IH by done. f_equal.
      * apply list_fmap_ext. intros i t Ht%list_elem_of_lookup_2.
        assert (name t <> n0) as E.
        { intros E. apply find_task_None in H0. apply H0. rewrite <- E.
          by apply list_elem_of_fmap_2. }
        destruct (decide (name t ∈ batch)) as [Hin|Hin].
        -- rewrite !bool_decide_eq_true_2; [done | by right | done].
        -- rewrite !bool_decide_eq_false_2; [done | | done].
           intros [?|?]%elem_of_cons; done.
      * simpl. by rewrite H0.
Qed.

(** The results that are no [Exception]: their tasks count as completed
    and their values go into the context. *)
Definition returned (results : list (string * value)) : list (string * value) :=
  omap (fun nr => if is_exception nr.2 then None else Some nr) results.

(** The error lines of the results that are an [Exception]. *)
Definition failures (results : list (string * value)) : list log_entry :=
  omap (fun nr => if is_exception nr.2
                  then Some (LogTaskFailed nr.1 (str nr.2)) else None) results.

Definition store_results (ctx : gmap string value)
    (l : list (string * value)) : gmap string value :=
  foldl (fun c nv => <[nv.1 ++ "_result" := nv.2]> c) ctx l.

(** The result that is an [Exception] under the name [n], if there is one. *)
Definition failed_result (results : list (string * value)) (n : string)
    : option (string * value) :=
  List.find (fun nr => bool_decide (nr.1 = n) && is_exception nr.2) results.

(** The second assignment of [status] and [error], by the loop over the
    results. *)
Definition mark_failed (results : list (string * value)) (t : WorkflowTask)
    : WorkflowTask :=
  match failed_result results (name t) with
  | Some nr => set_error (str nr.2) (set_status FAILED t)
  | None => t
  end.

Lemma failed_result_None results n :
  n ∉ results.*1 -> failed_result results n = None.
Proof.
  unfold failed_result. induction results as [|[n0 v0] results IH]; [done|].
  rewrite fmap_cons, not_elem_of_cons. intros [Hne Hn]. simpl.
  rewrite bool_decide_eq_false_2 by done. simpl. by apply IH.
Qed.

Lemma failed_result_elem results n v :
  NoDup results.*1 -> (n, v) ∈ results ->
  failed_result results n = if is_exception v then Some (n, v) else None.
Proof.
  unfold failed_result. induction results as [|[n0 v0] results IH]; intros Hnd Hin.
  - by apply elem_of_nil in Hin.
  - rewrite fmap_cons in Hnd. apply NoDup_cons in Hnd as [Hn0 Hnd]. simpl.
    apply elem_of_cons in Hin as [E|Hin].
    + injection E as <- <-. rewrite bool_decide_eq_true_2 by done. simpl.
      destruct (is_exception v) eqn:Hv; [done|].
      by apply (failed_result_None results n).
    + rewrite bool_decide_eq_false_2; [by apply IH|].
      simpl. intros ->. apply Hn0. apply list_elem_of_fmap. by exists (n, v).
Qed.

(** The loop over the results. *)
Lemma process_results_spec results : forall st,
  NoDup results.*1 ->
  foldl process_result st results
  = mkRun (mkWorkflow (mark_failed results <$> tasks (wf st))
             (store_results (context (wf st)) (returned results)))
          (pending_tasks st)
          (list_to_set (returned results).*1 ∪ completed_task_names st)
          (log st ++ failures results).
Proof.
  induction results as [|[n0 v0] results IH]; intros st Hnd.
  - simpl. destruct st as [[ts ctx] p c l]. simpl.
    rewrite app_nil_r, list_fmap_id. f_equal. by rewrite union_empty_l_L.
  - rewrite fmap_cons in Hnd. apply NoDup_cons in Hnd as [Hn0 Hnd].
    simpl foldl. rewrite IH by done. unfold process_result, returned, failures.
    simpl omap. destruct (is_exception v0) eqn:Hv0; simpl.
    + rewrite <- app_assoc. simpl. f_equal. f_equal.
      unfold alter_task. rewrite <- list_fmap_compose. apply list_fmap_ext.
      intros i t _. simpl. unfold mark_failed, failed_result. simpl.
      case_bool_decide as Hn; simpl.
      * rewrite Hn, bool_decide_eq_true_2 by done. rewrite Hv0. simpl.
        rewrite <- Hn. change (List.find _ results) with (failed_result results (name t)).
        rewrite failed_result_None; [done|]. by rewrite Hn.
      * rewrite bool_decide_eq_false_2 by congruence. done.
    + f_equal.
      * f_equal. apply list_fmap_ext. intros i t _.
        unfold mark_failed, failed_result. simpl. by rewrite Hv0, andb_false_r.
      * by rewrite (assoc_L (∪)), (comm_L (∪) _ {[n0]}).
Qed.

(** A task after a pass that ran it: [execute], then the loop over the
    results. *)
Definition ran (t : WorkflowTask) (kwargs : gmap string value) : WorkflowTask :=
  let result := gathered (func t kwargs) in
  if is_exception result
  then set_error (str result) (set_status FAILED (execute t kwargs).1)
  else (execute t kwargs).1.

(** The tasks after a pass. *)
Definition after_pass (ts : list WorkflowTask) (kwargs : gmap string value)
    (batch : list string) : list WorkflowTask :=
  (fun t => if bool_decide (name t ∈ batch) then ran t kwargs else t) <$> ts.

Lemma ran_shape t kwargs : same_shape t (ran t kwargs).
Proof.
  unfold ran. destruct (execute_shape t kwargs) as (E1 & E2 & E3).
  by destruct (is_exception _).
Qed.

(** The four ways a task comes out of a pass that ran it. *)
Lemma ran_cases t kwargs :
  (exists v, func t kwargs = Returns v /\ is_exception v = false /\
             status (ran t kwargs) = COMPLETED /\ result (ran t kwargs) = Some v /\
             gathered (func t kwargs) = v) \/
  (exists e, is_exception (gathered (func t kwargs)) = true /\
             str (gathered (func t kwargs)) = e /\
             status (ran t kwargs) = FAILED /\ error (ran t kwargs) = Some e) \/
  (is_exception (gathered (func t kwargs)) = false /\
   (exists e, func t kwargs = RaisesCancelled e \/ func t kwargs = RaisesBase e) /\
   status (ran t kwargs) = IN_PROGRESS).
Proof.
  unfold ran, execute. simpl.
  destruct (func t kwargs) as [v|e|e|e] eqn:Hf; simpl.
  - destruct (is_exception v) eqn:Hv.
    + right. left. exists (str v). done.
    + left. exists v. done.
  - right. left. by exists e.
  - right. right. split; [done|]. split; [|done]. exists e. by left.
  - right. right. split; [done|]. split; [|done]. exists e. by right.
Qed.

Lemma after_pass_shape ts kwargs batch :
  Forall2 same_shape ts (after_pass ts kwargs batch).
Proof.
  unfold after_pass. induction ts as [|t ts IH]; [constructor|].
  rewrite fmap_cons. constructor; [|exact IH].
  case_bool_decide; [apply ran_shape | done].
Qed.

Lemma elem_of_outcomes ts kwargs batch n r :
  (n, r) ∈ outcomes ts kwargs batch
  <-> n ∈ batch /\ exists t, find_task ts n = Some t /\ gathered (func t kwargs) = r.
Proof.
  unfold outcomes. rewrite list_elem_of_omap. split.
  - intros (x & Hx & E). destruct (find_task ts x) as [t|] eqn:Ht; [|done].
    injection E as -> <-. eauto.
  - intros (Hn & t & Ht & <-). exists n. by rewrite Ht.
Qed.

Lemma outcomes_names ts kwargs batch :
  NoDup batch -> NoDup (outcomes ts kwargs batch).*1.
Proof.
  induction batch as [|n0 batch IH]; intros Hb; [constructor|].
  apply NoDup_cons in Hb as [Hn0 Hb]. specialize (IH Hb).
  unfold outcomes. simpl. destruct (find_task ts n0) as [t0|]; [|exact IH].
  simpl. apply NoDup_cons. split; [|exact IH].
  intros ([n v'] & E & Hin%elem_of_outcomes)%list_elem_of_fmap.
  simpl in E. subst n. by destruct Hin.
Qed.

Lemma elem_of_returned results n v :
  (n, v) ∈ returned results <-> (n, v) ∈ results /\ is_exception v = false.
Proof.
  unfold returned. rewrite list_elem_of_omap. split.
  - intros ([n0 v0] & Hx & E). simpl in E.
    destruct (is_exception v0) eqn:Hv0; [done|]. by injection E as -> ->.
  - intros [H Hv]. exists (n, v). simpl. by rewrite Hv.
Qed.

Lemma elem_of_failures results n e :
  LogTaskFailed n e ∈ failures results <->
  exists v, (n, v) ∈ results /\ is_exception v = true /\ str v = e.
Proof.
  unfold failures. rewrite list_elem_of_omap. split.
  - intros ([n0 v0] & Hx & E). simpl in E.
    destruct (is_exception v0) eqn:Hv0; [|done]. injection E as -> <-.
    by exists v0.
  - intros (v & H & Hv & <-). exists (n, v). simpl. by rewrite Hv.
Qed.

Lemma returned_names results : NoDup results.*1 -> NoDup (returned results).*1.
Proof.
  induction results as [|[n0 v0] results IH]; intros Hnd; [constructor|].
  rewrite fmap_cons in Hnd. apply NoDup_cons in Hnd as [Hn0 Hnd].
  unfold returned. simpl. destruct (is_exception v0); [by apply IH|].
  rewrite fmap_cons. apply NoDup_cons. split; [|by apply IH].
  intros ([n v] & E & [Hin _]%elem_of_returned)%list_elem_of_fmap.
  simpl in E. subst n. apply Hn0. apply list_elem_of_fmap. by exists (n0, v).
Qed.

Lemma returned_outcomes_NoDup ts kwargs batch :
  NoDup batch -> NoDup (returned (outcomes ts kwargs batch)).*1.
Proof. intros Hb. by apply returned_names, outcomes_names. Qed.

Lemma store_results_cons ctx nv l :
  store_results ctx (nv :: l) = store_results (<[nv.1 ++ "_result" := nv.2]> ctx) l.
Proof. reflexivity. Qed.

Lemma store_results_other l : forall ctx k,
  (forall n v, (n, v) ∈ l -> k <> n ++ "_result") ->
  store_results ctx l !! k = ctx !! k.
Proof.
  induction l as [|[n v] l IH]; intros ctx k H; [done|].
  rewrite store_results_cons, IH.
  - simpl. apply lookup_insert_ne. intros E. by apply (H n v); [left|].
  - intros n' v' Hin. apply (H n' v'). by right.
Qed.

Lemma store_results_lookup l : forall ctx n v,
  NoDup l.*1 -> (n, v) ∈ l -> store_results ctx l !! (n ++ "_result") = Some v.
Proof.
  induction l as [|[n0 v0] l IH]; intros ctx n v Hnd Hin.
  - by apply elem_of_nil in Hin.
  - rewrite fmap_cons in Hnd. apply NoDup_cons in Hnd as [Hn0 Hnd].
    rewrite store_results_cons.
    apply elem_of_cons in Hin as [E|Hin]; [|by apply IH].
    injection E as -> ->. rewrite store_results_other.
    + simpl. apply lookup_insert_eq.
    + intros n' v' Hin E. apply result_key_inj in E. subst n'.
      apply Hn0. apply list_elem_of_fmap. by exists (n0, v').
Qed.

Lemma add_eligible_elem completed ts : forall pending n,
  n ∈ foldl (add_eligible completed) pending ts <->
  (n ∈ pending \/
   exists t, t ∈ ts /\ name t = n /\ (n ∉ completed) /\ status t = PENDING).
Proof.
  induction ts as [|t ts IH]; intros pending n.
  - simpl. split; [by left|]. intros [H|(t & Ht & _)]; [done|].
    by apply elem_of_nil in Ht.
  - simpl. rewrite IH. unfold add_eligible.
    destruct (bool_decide (name t ∉ completed)) eqn:E1;
      [apply bool_decide_eq_true in E1 | apply bool_decide_eq_false in E1];
    (destruct (bool_decide (status t = PENDING)) eqn:E2;
      [apply bool_decide_eq_true in E2 | apply bool_decide_eq_false in E2]);
    (destruct (bool_decide (name t ∉ pending)) eqn:E3;
      [apply bool_decide_eq_true in E3 | apply bool_decide_eq_false in E3]);
    simpl.
    1: { rewrite elem_of_app, list_elem_of_singleton. split.
         - intros [[H| ->]|(t' & Ht' & H)]; [by left | |].
           + right. exists t. split; [left|done].
           + right. exists t'. split; [by right|done].
         - intros [H|(t' & [->|Ht']%elem_of_cons & <- & H)].
           + by left; left.
           + by left; right.
           + right. by exists t'. }
    all: split;
      [ intros [H|(t' & Ht' & H)]; [by left | right; exists t'; split; [by right|done]]
      | intros [H|(t' & [->|Ht']%elem_of_cons & <- & Hc & Hs)];
        [ by left | | right; by exists t' ] ].
    all: try done.
    left. by apply dec_stable.
Qed.

Lemma add_eligible_NoDup completed ts : forall pending,
  NoDup pending -> NoDup (foldl (add_eligible completed) pending ts).
Proof.
  induction ts as [|t ts IH]; intros pending Hp; [done|].
  simpl. apply IH. unfold add_eligible.
  destruct (bool_decide (name t ∉ completed)); [|done].
  destruct (bool_decide (status t = PENDING)); [|done].
  simpl. case_bool_decide as E3; [|done].
  apply NoDup_app. split; [done|]. split; [|apply NoDup_singleton].
  intros x Hx ->%list_elem_of_singleton. done.
Qed.

Lemma mark_failed_executed ts kwargs batch :
  NoDup (name <$> ts) -> NoDup batch ->
  mark_failed (outcomes ts kwargs batch) <$> executed ts kwargs batch
  = after_pass ts kwargs batch.
Proof.
  intros Hts Hb. unfold executed, after_pass. rewrite <- list_fmap_compose.
  apply list_fmap_ext. intros i t Ht%list_elem_of_lookup_2. simpl.
  destruct (execute_shape t kwargs) as (En & _ & _).
  unfold mark_failed. case_bool_decide as Hin.
  - rewrite En.
    rewrite (failed_result_elem _ (name t) (gathered (func t kwargs)));
      [| by apply outcomes_names
       | apply elem_of_outcomes; split; [done|]; exists t;
         split; [by apply find_task_elem | done]].
    unfold ran. by destruct (is_exception _).
  - rewrite failed_result_None; [done|].
    intros ([n v] & E & [Hn _]%elem_of_outcomes)%list_elem_of_fmap.
    simpl in E. by subst n.
Qed.

(** The closed form of a pass. *)
Lemma run_batch_spec st batch :
  NoDup (name <$> tasks (wf st)) -> NoDup batch ->
  run_batch st batch
  = let ts := tasks (wf st) in
    let ctx := context (wf st) in
    let results := outcomes ts ctx batch in
    let completed :=
      list_to_set (returned results).*1 ∪ completed_task_names st in
    mkRun (mkWorkflow (after_pass ts ctx batch)
             (store_results ctx (returned results)))
      (foldl (add_eligible completed)
         (List.filter (fun n => bool_decide (n ∉ completed)) (pending_tasks st))
         (after_pass ts ctx batch))
      completed (log st ++ failures results).
Proof.
  intros Hts Hb. unfold run_batch. rewrite gather_spec by done.
  rewrite process_results_spec by by apply outcomes_names.
  simpl. by rewrite mark_failed_executed.
Qed.

Lemma NoDup_List_filter {A} (f : A -> bool) (l : list A) :
  NoDup l -> NoDup (List.filter f l).
Proof.
  induction l as [|x l IH]; intros H; [done|].
  apply NoDup_cons in H as [Hx H]. simpl. destruct (f x); [|by apply IH].
  apply NoDup_cons. split; [|by apply IH].
  intros Hin%list_elem_of_In%filter_In. apply Hx, list_elem_of_In, Hin.
Qed.

Lemma NoDup_names_filter (f : WorkflowTask -> bool) ts :
  NoDup (name <$> ts) -> NoDup (name <$> List.filter f ts).
Proof.
  induction ts as [|t ts IH]; intros H; [done|].
  rewrite fmap_cons in H. apply NoDup_cons in H as [Ht H]. simpl.
  destruct (f t); [|by apply IH].
  rewrite fmap_cons. apply NoDup_cons. split; [|by apply IH].
  intros (t' & E & Hin%list_elem_of_In%filter_In)%list_elem_of_fmap.
  apply Ht. rewrite E. apply list_elem_of_fmap_2, list_elem_of_In, Hin.
Qed.

Lemma same_shape_names ts ts' :
  Forall2 same_shape ts ts' -> name <$> ts' = name <$> ts.
Proof.
  induction 1 as [|t t' ts ts' (E & _) _ IH]; [done|].
  rewrite !fmap_cons. by rewrite E, IH.
Qed.

Lemma same_shape_step ts0 ts ts' :
  Forall2 same_shape ts0 ts -> Forall2 same_shape ts ts' ->
  Forall2 same_shape ts0 ts'.
Proof.
  intros H. revert ts'.
  induction H as [|t0 t ts0 ts (E1 & E2 & E3) _ IH]; intros ts' H2;
    inversion H2 as [|? t' ? ts'' (F1 & F2 & F3) H2']; subst; constructor.
  - split; [|split]; congruence.
  - by apply IH.
Qed.

(** The dependencies of the task named [n] are all completed. *)
Lemma elem_of_tasks_to_execute st n :
  NoDup (name <$> tasks (wf st)) ->
  n ∈ tasks_to_execute st <->
  n ∈ pending_tasks st /\
  exists t, t ∈ tasks (wf st) /\ name t = n /\
            forall d, d ∈ dependencies t -> d ∈ completed_task_names st.
Proof.
  intros Hts. unfold tasks_to_execute.
  rewrite list_elem_of_In, filter_In, <- list_elem_of_In.
  unfold is_resolved, deps_resolved. split.
  - intros [Hn Hr]. split; [done|].
    destruct (find_task (tasks (wf st)) n) as [t|] eqn:Hf; [|done].
    apply find_task_Some in Hf as [<- Hin]. exists t.
    split; [done | split; [done|]].
    rewrite forallb_forall in Hr. intros d Hd%list_elem_of_In.
    exact (bool_decide_eq_true_1 _ (Hr d Hd)).
  - intros [Hn (t & Hin & <- & Hd)]. split; [done|].
    rewrite (find_task_elem _ _ Hts Hin). apply forallb_forall.
    intros d Hd'%list_elem_of_In. apply bool_decide_eq_true_2. auto.
Qed.

(* ===================================================================== *)
(** ** The loop invariant of a run over freshly registered tasks *)

(** Work that raises an exception outside [Exception] on some call. *)
Definition raises_outside_Exception (t : WorkflowTask) : Prop :=
  exists kwargs e,
    func t kwargs = RaisesCancelled e \/ func t kwargs = RaisesBase e.

(** The two states of a task that counts as completed: its work returned
    [v], or its work raised past the handler of [execute] and [gather]
    handed the exception object [v] back. *)
Definition ended_as (t : WorkflowTask) (v : value) : Prop :=
  (status t = COMPLETED /\ result t = Some v) \/
  (status t = IN_PROGRESS /\ raises_outside_Exception t).

Section RunInvariant.

(** The tasks and the context on entry to the loop. *)
Variable ts0 : list WorkflowTask.
Variable ctx0 : gmap string value.
Hypothesis ts0_NoDup : NoDup (name <$> ts0).

(** Between two passes a task is in one of three conditions. *)
Definition task_ok (st : run_state) (t : WorkflowTask) : Prop :=
  (name t ∈ completed_task_names st /\
   (exists v, is_exception v = false /\
              context (wf st) !! (name t ++ "_result") = Some v /\
              ended_as t v) /\
   (forall d, d ∈ dependencies t -> d ∈ completed_task_names st))
  \/ (status t = FAILED /\ name t ∈ pending_tasks st /\
      (forall d, d ∈ dependencies t -> d ∈ completed_task_names st))
  \/ (status t = PENDING /\ (name t ∉ completed_task_names st) /\
      (name t ∈ pending_tasks st \/
       exists d, d ∈ dependencies t /\ d ∉ completed_task_names st)).

Record run_inv (st : run_state) : Prop := mkInv {
  inv_shape : Forall2 same_shape ts0 (tasks (wf st));
  inv_pending_NoDup : NoDup (pending_tasks st);
  inv_pending : forall n, n ∈ pending_tasks st ->
      (n ∉ completed_task_names st) /\ n ∈ name <$> ts0;
  inv_tasks : forall t, t ∈ tasks (wf st) -> task_ok st t;
  inv_done : forall n, n ∈ completed_task_names st -> n ∈ name <$> ts0;
  inv_context : forall k,
      (forall n, n ∈ completed_task_names st -> k <> n ++ "_result") ->
      context (wf st) !! k = ctx0 !! k;
  inv_log : LogDeadlock ∉ log st;
  inv_swept :
      (forall t, t ∈ tasks (wf st) -> status t = PENDING ->
                 name t ∈ pending_tasks st)
      \/ (forall t, t ∈ ts0 -> dependencies t = [] -> name t ∈ pending_tasks st)
}.

Lemma initial_run_inv w initial_context :
  tasks w = ts0 -> ctx0 = initial_context ∪ context w ->
  Forall (fun t => status t = PENDING) ts0 ->
  run_inv (initial_run w initial_context).
Proof.
  intros Hw Hc Hst. unfold initial_run. rewrite Hw, <- Hc.
  rewrite Forall_forall in Hst. split; simpl.
  - apply Forall_Forall2_diag, Forall_forall. by intros t _.
  - by apply NoDup_names_filter.
  - intros n (t & -> & Hin%list_elem_of_In%filter_In)%list_elem_of_fmap.
    split; [apply not_elem_of_empty|].
    apply list_elem_of_fmap_2, list_elem_of_In, Hin.
  - intros t Ht. right. right. split; [by apply Hst|].
    split; [apply not_elem_of_empty|].
    destruct (dependencies t) as [|d ds] eqn:Hd.
    + left. apply list_elem_of_fmap_2, list_elem_of_In, filter_In.
      split; [by apply list_elem_of_In | by apply bool_decide_eq_true].
    + right. exists d. split; [left | apply not_elem_of_empty].
  - intros n Hn. by apply not_elem_of_empty in Hn.
  - done.
  - apply not_elem_of_nil.
  - right. intros t Ht Hd. apply list_elem_of_fmap_2, list_elem_of_In, filter_In.
    split; [by apply list_elem_of_In | by apply bool_decide_eq_true].
Qed.

Lemma elem_of_after_pass ts kwargs batch t' :
  t' ∈ after_pass ts kwargs batch <->
  exists t, t ∈ ts /\
    t' = if bool_decide (name t ∈ batch) then ran t kwargs else t.
Proof.
  unfold after_pass. rewrite list_elem_of_fmap. split; intros (t & H1 & H2); eauto.
Qed.

Lemma run_batch_inv st :
  run_inv st -> run_inv (run_batch st (tasks_to_execute st)).
Proof.
  intros [Hshape Hpnd Hp Ht Hdone Hctx Hlog Hswept].
  pose proof (same_shape_names _ _ Hshape) as Hnames.
  assert (NoDup (name <$> tasks (wf st))) as Hts by by rewrite Hnames.
  pose proof (elem_of_tasks_to_execute st) as Hbatch.
  specialize (fun n => Hbatch n Hts).
  assert (NoDup (tasks_to_execute st)) as Hb by by apply NoDup_List_filter.
  rewrite run_batch_spec by done. cbv zeta.
  set (batch := tasks_to_execute st) in *.
  set (ts := tasks (wf st)) in *. set (ctx := context (wf st)) in *.
  set (results := outcomes ts ctx batch).
  set (completed' := list_to_set (returned results).*1 ∪ completed_task_names st).
  assert (forall n, n ∈ completed' <->
            n ∈ completed_task_names st \/
            exists t, n ∈ batch /\ t ∈ ts /\ name t = n /\
                      is_exception (gathered (func t ctx)) = false) as Hc'.
  { intros n. unfold completed'.
    rewrite elem_of_union, elem_of_list_to_set, list_elem_of_fmap. split.
    - intros [([n' v] & -> & Hin)|Hin]; [|by left]. right. simpl.
      apply elem_of_returned in Hin as [Hin Hv].
      apply elem_of_outcomes in Hin as (Hnb & t & Hf & Hr).
      apply find_task_Some in Hf as [Hn Hin]. exists t. by rewrite Hr.
    - intros [Hin|(t & Hnb & Hin & <- & Hr)]; [by right|]. left.
      exists (name t, gathered (func t ctx)). split; [done|].
      apply elem_of_returned. split; [|done].
      apply elem_of_outcomes. split; [done|].
      exists t. split; [by apply find_task_elem | done]. }
  assert (forall t t2, t ∈ ts -> t2 ∈ ts -> name t2 = name t -> t2 = t) as Huniq.
  { intros t t2 H1 H2 E. pose proof (find_task_elem _ _ Hts H1) as F1.
    pose proof (find_task_elem _ _ Hts H2) as F2. rewrite E in F2. congruence. }
  set (pending' :=
         foldl (add_eligible completed')
           (List.filter (fun n => bool_decide (n ∉ completed')) (pending_tasks st))
           (after_pass ts ctx batch)).
  assert (forall n, n ∈ pending' <->
            (n ∈ pending_tasks st /\ n ∉ completed') \/
            exists t', t' ∈ after_pass ts ctx batch /\ name t' = n /\
                       (n ∉ completed') /\ status t' = PENDING) as Hp'.
  { intros n. unfold pending'. rewrite add_eligible_elem.
    rewrite list_elem_of_In, filter_In, <- list_elem_of_In.
    by rewrite bool_decide_eq_true. }
  assert (forall t', t' ∈ after_pass ts ctx batch ->
            task_ok (mkRun (mkWorkflow (after_pass ts ctx batch)
                              (store_results ctx (returned results)))
                       pending' completed' (log st ++ failures results)) t')
    as Ht'.
  { intros t' (t & Hin & ->)%elem_of_after_pass. unfold task_ok. simpl.
    case_bool_decide as Hnb.
    - (* the task was run by this pass *)
      pose proof Hnb as Hnb'. apply Hbatch in Hnb' as (Hpn & t2 & Hin2 & E2 & Hd).
      apply (Huniq t) in E2; [subst t2 | done | done].
      pose proof (ran_shape t ctx) as (En & Ef & Ed).
      rewrite En, Ed.
      assert (is_exception (gathered (func t ctx)) = false ->
              store_results ctx (returned results) !! (name t ++ "_result")
              = Some (gathered (func t ctx))) as Hstored.
      { intros Hv. apply store_results_lookup.
        - by apply returned_outcomes_NoDup.
        - apply elem_of_returned. split; [|done].
          apply elem_of_outcomes. split; [done|].
          exists t. split; [by apply find_task_elem | done]. }
      destruct (ran_cases t ctx)
        as [(v & Hf & Hv & Hs & Hr & Hg)|[(e & Hv & He & Hs & Her)|(Hv & Hraise & Hs)]].
      + left. split; [|split].
        * apply Hc'. right. exists t. by rewrite Hg.
        * exists v. split; [done|]. split; [|by left].
          rewrite <- Hg. apply Hstored. by rewrite Hg.
        * intros d Hd'. apply Hc'. left. by apply Hd.
      + right. left. split; [done|]. split.
        * apply Hp'. left. split; [done|]. intros Hin'%Hc'.
          destruct Hin' as [Hin'|(t3 & _ & Hin3 & E3 & Hr)].
          -- by apply Hp in Hpn as [? _].
          -- apply (Huniq t) in E3; [subst t3 | done | done]. congruence.
        * intros d Hd'. apply Hc'. left. by apply Hd.
      + left. split; [|split].
        * apply Hc'. right. by exists t.
        * exists (gathered (func t ctx)). split; [done|].
          split; [by apply Hstored|]. right. split; [done|].
          destruct Hraise as [e Hraise]. exists ctx, e. by rewrite Ef.
        * intros d Hd'. apply Hc'. left. by apply Hd.
    - (* the task was left alone *)
      assert (name t ∈ completed' -> name t ∈ completed_task_names st) as Hold.
      { intros [H|(t2 & Hnb2 & _)]%Hc'; done. }
      destruct (Ht t Hin) as [(Hc & (v & Hv & Hk & He) & Hd)|
                              [(Hs & Hpn & Hd)|(Hs & Hc & _)]].
      + left. split; [apply Hc'; by left|]. split.
        * exists v. split; [done|]. split; [|done].
          rewrite store_results_other; [done|].
          intros n v' [Hin' _]%elem_of_returned E.
          apply elem_of_outcomes in Hin'.
          apply result_key_inj in E. subst n. by destruct Hin'.
        * intros d Hd'. apply Hc'. left. by apply Hd.
      + exfalso. apply Hnb, Hbatch. split; [done|]. by exists t.
      + right. right. split; [done|]. split; [by intros ?%Hold|].
        left. apply Hp'. right. exists t. split.
        * apply elem_of_after_pass. exists t. split; [done|].
          by rewrite bool_decide_eq_false_2.
        * split; [done|]. split; [by intros ?%Hold | done]. }
  assert (name <$> after_pass ts ctx batch = name <$> ts0) as Hnames'.
  { rewrite (same_shape_names _ _ (after_pass_shape ts ctx batch)). done. }
  split; simpl.
  - eapply same_shape_step; [exact Hshape | apply after_pass_shape].
  - by apply add_eligible_NoDup, NoDup_List_filter.
  - intros n [[Hn Hc]|(t' & Hin & <- & Hc & _)]%Hp'.
    + split; [done|]. by apply Hp.
    + split; [done|]. rewrite <- Hnames'. by apply list_elem_of_fmap_2.
  - exact Ht'.
  - intros n [Hn|(t & _ & Hin & <- & _)]%Hc'; [by apply Hdone|].
    rewrite <- Hnames. by apply list_elem_of_fmap_2.
  - intros k Hk. rewrite store_results_other.
    + apply Hctx. intros n Hn. apply Hk, Hc'. by left.
    + intros n v Hin. apply Hk. unfold completed'.
      apply elem_of_union. left. apply elem_of_list_to_set.
      apply list_elem_of_fmap. by exists (n, v).
  - intros [H|H]%elem_of_app; [done|].
    unfold failures in H. apply list_elem_of_omap in H as ([n v] & _ & E).
    simpl in E. by destruct (is_exception v).
  - left. intros t' Hin Hs.
    destruct (Ht' t' Hin) as [(_ & (v & _ & _ & [[Hs' _]|[Hs' _]]) & _)|
                              [(Hs' & _)|(_ & Hc & _)]];
      simpl in *; [congruence | congruence | congruence |].
    apply Hp'. right. by exists t'.
Qed.

(** How the loop ends: on an empty [pending_tasks], or on an empty batch
    with the deadlock line added to the log. *)
Definition ended (st1 st : run_state) : Prop :=
  wf st = wf st1 /\ pending_tasks st = pending_tasks st1 /\
  completed_task_names st = completed_task_names st1 /\
  ((pending_tasks st1 = [] /\ log st = log st1) \/
   (pending_tasks st1 <> [] /\ tasks_to_execute st1 = [] /\
    log st = (log st1 ++ [LogDeadlock])%list)).

Lemma run_loop_inv fuel : forall st st',
  run_inv st -> run_loop fuel st = Some st' ->
  exists st1, run_inv st1 /\ ended st1 st'.
Proof.
  induction fuel as [|fuel IH]; intros st st' Hinv Hrun; [done|].
  simpl in Hrun. destruct (pending_tasks st) as [|p ps] eqn:Hp.
  { injection Hrun as <-. exists st. split; [done|].
    split; [done | split; [done | split; [done|]]]. by left. }
  destruct (tasks_to_execute st) as [|b bs] eqn:Hb.
  { injection Hrun as <-. exists st. split; [done|].
    split; [done | split; [done | split; [done|]]].
    right. rewrite Hp. by split; [|split]. }
  rewrite <- Hb in Hrun. by apply (IH _ _ (run_batch_inv st Hinv)).
Qed.

(** At the end no task is FAILED: a task counts as completed, or it is
    PENDING behind a dependency that does not. *)
Lemma ended_statuses st1 st t :
  run_inv st1 -> ended st1 st -> t ∈ tasks (wf st) ->
  (name t ∈ completed_task_names st /\
   exists v, is_exception v = false /\
             context (wf st) !! (name t ++ "_result") = Some v /\
             ended_as t v) \/
  (status t = PENDING /\ (name t ∉ completed_task_names st) /\
   exists d, d ∈ dependencies t /\ d ∉ completed_task_names st).
Proof.
  intros Hinv (Ew & Ep & Ec & Hend) Hin. rewrite Ew in Hin. rewrite Ec, Ew.
  pose proof (same_shape_names _ _ (inv_shape _ Hinv)) as Hnames.
  assert (NoDup (name <$> tasks (wf st1))) as Hts by by rewrite Hnames.
  destruct (inv_tasks _ Hinv t Hin) as [(Hc & Hv & _)|[(Hs & Hpn & Hd)|
                                         (Hs & Hc & [Hpn|Hd])]].
  - by left.
  - exfalso. destruct Hend as [[Hnil _]|(_ & Hnil & _)].
    + rewrite Hnil in Hpn. by apply elem_of_nil in Hpn.
    + assert (name t ∈ tasks_to_execute st1) as Hb.
      { apply elem_of_tasks_to_execute; [done|]. split; [done|]. by exists t. }
      rewrite Hnil in Hb. by apply elem_of_nil in Hb.
  - destruct Hend as [[Hnil _]|(_ & Hnil & _)].
    + rewrite Hnil in Hpn. by apply elem_of_nil in Hpn.
    + right. split; [done|]. split; [done|].
      destruct (decide (Forall (fun d => d ∈ completed_task_names st1)
                          (dependencies t))) as [Hall|Hex].
      * exfalso. assert (name t ∈ tasks_to_execute st1) as Hb.
        { apply elem_of_tasks_to_execute; [done|]. split; [done|].
          exists t. split; [done | split; [done|]]. by apply Forall_forall. }
        rewrite Hnil in Hb. by apply elem_of_nil in Hb.
      * apply not_Forall_Exists in Hex; [|apply _].
        apply Exists_exists in Hex as (d & Hd & Hnd). by exists d.
  - right. done.
Qed.

End RunInvariant.

(* ===================================================================== *)
(** ** What a run that returns leaves behind

    The theorems below are about a workflow as [add_task] builds it: one
    task per name, every task PENDING. *)

Lemma execute_workflow_ended fuel w initial_context st :
  NoDup (name <$> tasks w) ->
  Forall (fun t => status t = PENDING) (tasks w) ->
  execute_workflow fuel w initial_context = Some st ->
  exists st1, run_inv (tasks w) (initial_context ∪ context w) st1 /\ ended st1 st.
Proof.
  intros Hnd Hst Hrun.
  apply (run_loop_inv _ _ Hnd fuel (initial_run w initial_context) st);
    [|exact Hrun].
  by apply initial_run_inv.
Qed.

(** A completed name is the name of a task that ended, with its result in
    the context. *)
Lemma completed_name_task ts0 ctx0 st n :
  NoDup (name <$> ts0) -> run_inv ts0 ctx0 st ->
  n ∈ completed_task_names st ->
  exists t v, find_task (tasks (wf st)) n = Some t /\
              is_exception v = false /\
              context (wf st) !! (n ++ "_result") = Some v /\
              ended_as t v.
Proof.
  intros Hnd Hinv Hn.
  pose proof (same_shape_names _ _ (inv_shape _ _ _ Hinv)) as Hnames.
  pose proof (inv_done _ _ _ Hinv n Hn) as Hin.
  rewrite <- Hnames in Hin. apply list_elem_of_fmap in Hin as (t & -> & Hin).
  assert (find_task (tasks (wf st)) (name t) = Some t) as Hf
    by (apply find_task_elem; [by rewrite Hnames | done]).
  destruct (inv_tasks _ _ _ Hinv t Hin) as [(_ & (v & Hv) & _)|[(_ & Hp & _)|(_ & Hc & _)]].
  - by exists t, v.
  - by apply (inv_pending _ _ _ Hinv) in Hp as [? _].
  - done.
Qed.

(** A task whose status is COMPLETED or IN_PROGRESS between two passes
    counts as completed. *)
Lemma status_ended_name ts0 ctx0 st n :
  NoDup (name <$> ts0) -> run_inv ts0 ctx0 st ->
  status_of (wf st) n = Some COMPLETED \/ status_of (wf st) n = Some IN_PROGRESS ->
  n ∈ completed_task_names st.
Proof.
  intros Hnd Hinv Hs. unfold status_of in Hs.
  destruct (find_task (tasks (wf st)) n) as [t|] eqn:Hf; [|by destruct Hs].
  simpl in Hs. apply find_task_Some in Hf as [<- Hin].
  destruct (inv_tasks _ _ _ Hinv t Hin) as [(Hc & _)|[(Hs' & _)|(Hs' & _)]];
    [done | |]; destruct Hs; congruence.
Qed.

(** X3. A task never runs before its dependencies: in the state a run
    returns, every dependency of a task that was run (its status is not
    PENDING) is the name of a task that ended, with its result in the
    context under [name + "_result"]. That task is COMPLETED, or it is
    IN_PROGRESS because its work raised an exception outside [Exception],
    which the run counts as completed. *)
Theorem task_runs_after_its_dependencies :
  forall fuel w initial_context st t d,
    NoDup (name <$> tasks w) ->
    Forall (fun t => status t = PENDING) (tasks w) ->
    execute_workflow fuel w initial_context = Some st ->
    t ∈ tasks (wf st) -> status t <> PENDING -> d ∈ dependencies t ->
    exists td v,
      find_task (tasks (wf st)) d = Some td /\
      is_exception v = false /\
      context (wf st) !! (d ++ "_result") = Some v /\
      ended_as td v.
Proof.
  intros fuel w ic st t d Hnd Hst Hrun Hin Hs Hd.
  destruct (execute_workflow_ended _ _ _ _ Hnd Hst Hrun)
    as (st1 & Hinv & Ew & _ & _ & Hend).
  rewrite Ew in *.
  assert (d ∈ completed_task_names st1) as Hdc.
  { destruct (inv_tasks _ _ _ Hinv t Hin) as [(_ & _ & Hdeps)|[(_ & _ & Hdeps)|(Hs' & _)]];
      [by apply Hdeps | by apply Hdeps | done]. }
  exact (completed_name_task _ _ _ d Hnd Hinv Hdc).
Qed.

(** X4. The result of every COMPLETED task is in the returned context under
    the key [name + "_result"], and is the task's [result]. *)
Theorem completed_task_result_is_in_context :
  forall fuel w initial_context st t,
    NoDup (name <$> tasks w) ->
    Forall (fun t => status t = PENDING) (tasks w) ->
    execute_workflow fuel w initial_context = Some st ->
    t ∈ tasks (wf st) -> status t = COMPLETED ->
    exists v, result t = Some v /\
              context (wf st) !! (name t ++ "_result") = Some v.
Proof.
  intros fuel w ic st t Hnd Hst Hrun Hin Hs.
  destruct (execute_workflow_ended _ _ _ _ Hnd Hst Hrun) as (st1 & Hinv & Hend).
  destruct (ended_statuses _ _ Hnd _ _ _ Hinv Hend Hin)
    as [(_ & v & _ & Hk & [[_ Hr]|[Hs' _]])|(Hs' & _)];
    [by exists v | congruence | congruence].
Qed.

(** What is left of [ended_statuses] when only the workflow is looked at. *)
Lemma returned_statuses fuel w initial_context st t :
  NoDup (name <$> tasks w) ->
  Forall (fun t => status t = PENDING) (tasks w) ->
  execute_workflow fuel w initial_context = Some st ->
  t ∈ tasks (wf st) ->
  (name t ∈ completed_task_names st /\
   is_Some (context (wf st) !! (name t ++ "_result")) /\
   (status t = COMPLETED \/
    (status t = IN_PROGRESS /\ raises_outside_Exception t))) \/
  (status t = PENDING /\ (name t ∉ completed_task_names st) /\
   exists d, d ∈ dependencies t /\
             status_of (wf st) d <> Some COMPLETED /\
             status_of (wf st) d <> Some IN_PROGRESS).
Proof.
  intros Hnd Hst Hrun Hin.
  destruct (execute_workflow_ended _ _ _ _ Hnd Hst Hrun) as (st1 & Hinv & Hend).
  destruct (ended_statuses _ _ Hnd _ _ _ Hinv Hend Hin)
    as [(Hc & v & _ & Hk & He)|(Hs & Hc & d & Hd & Hdc)].
  - left. split; [done|]. split; [by exists v|].
    destruct He as [[? _]|?]; [by left | by right].
  - right. split; [done|]. split; [done|]. exists d. split; [done|].
    destruct Hend as (Ew & _ & Ec & _). rewrite Ew. rewrite Ec in Hdc.
    split; intros Hsd; apply Hdc, (status_ended_name _ _ _ _ Hnd Hinv); auto.
Qed.

(** X5. No returned run shows a failed task: every task is COMPLETED, or it
    is IN_PROGRESS (its work raised an exception outside [Exception]), or
    it is still PENDING behind a dependency that is neither. A task whose
    work raised an [Exception], or returned one, is run again by the next
    pass, so a run with a task left FAILED does not return. *)
Theorem returned_run_leaves_no_failed_task :
  forall fuel w initial_context st t,
    NoDup (name <$> tasks w) ->
    Forall (fun t => status t = PENDING) (tasks w) ->
    execute_workflow fuel w initial_context = Some st ->
    t ∈ tasks (wf st) ->
    status t = COMPLETED \/
    (status t = IN_PROGRESS /\ raises_outside_Exception t) \/
    (status t = PENDING /\
     exists d, d ∈ dependencies t /\
               status_of (wf st) d <> Some COMPLETED /\
               status_of (wf st) d <> Some IN_PROGRESS).
Proof.
  intros fuel w ic st t Hnd Hst Hrun Hin.
  destruct (returned_statuses _ _ _ _ _ Hnd Hst Hrun Hin)
    as [(_ & _ & [?|?])|(? & _ & ?)]; auto.
Qed.

Lemma same_shape_elem ts ts' t' :
  Forall2 same_shape ts ts' -> t' ∈ ts' -> exists t, t ∈ ts /\ same_shape t t'.
Proof.
  intros H Hin. apply list_elem_of_lookup in Hin as [i Hi].
  destruct (Forall2_lookup_r _ _ _ _ _ H Hi) as (t & Ht & Hs).
  exists t. split; [by eapply list_elem_of_lookup_2 | done].
Qed.

(** X6. When the dependencies are registered names and admit a ranking (the
    task graph is acyclic), a run that returns has left no task PENDING:
    every task has its result in the context and is COMPLETED, or
    IN_PROGRESS when its work raised an exception outside [Exception].
    Work that raised an [Exception], or returned one, was repeated until
    it did neither. *)
Theorem acyclic_workflow_leaves_no_task_pending :
  forall fuel w initial_context st (rank : string -> nat) t,
    NoDup (name <$> tasks w) ->
    Forall (fun t => status t = PENDING) (tasks w) ->
    (forall t d, t ∈ tasks w -> d ∈ dependencies t ->
                 d ∈ name <$> tasks w /\ rank d < rank (name t)) ->
    execute_workflow fuel w initial_context = Some st ->
    t ∈ tasks (wf st) ->
    is_Some (context (wf st) !! (name t ++ "_result")) /\
    (status t = COMPLETED \/
     (status t = IN_PROGRESS /\ raises_outside_Exception t)).
Proof.
  intros fuel w ic st rank t Hnd Hst Hrank Hrun Hin.
  destruct (execute_workflow_ended _ _ _ _ Hnd Hst Hrun) as (st1 & Hinv & Hend).
  pose proof (inv_shape _ _ _ Hinv) as Hshape.
  pose proof (same_shape_names _ _ Hshape) as Hnames.
  assert (wf st = wf st1) as Ew by apply Hend.
  assert (forall k t, t ∈ tasks (wf st) -> rank (name t) < k ->
                      name t ∈ completed_task_names st) as Hall.
  { intros k. induction k as [|k IH]; intros t1 Hin1 Hk; [lia|].
    destruct (ended_statuses _ _ Hnd _ _ _ Hinv Hend Hin1)
      as [[? _]|(_ & _ & d & Hd & Hc)]; [done|].
    exfalso. rewrite Ew in Hin1.
    destruct (same_shape_elem _ _ _ Hshape Hin1) as (t0 & Hin0 & En & _ & Ed).
    rewrite Ed in Hd. destruct (Hrank t0 d Hin0 Hd) as [Hreg Hlt].
    rewrite <- Hnames in Hreg. apply list_elem_of_fmap in Hreg as (td & -> & Hind).
    rewrite <- Ew in Hind. apply Hc, (IH td Hind). rewrite <- En in Hlt. lia. }
  assert (name t ∈ completed_task_names st) as Hc
    by (apply (Hall (S (rank (name t))) t Hin); lia).
  destruct (returned_statuses _ _ _ _ _ Hnd Hst Hrun Hin)
    as [(_ & Hk & Hs)|(_ & Hn & _)]; done.
Qed.

(** The deadlock line is logged by the returned runs that leave a task
    uncounted, when the loop was entered. *)
Lemma deadlock_logged_iff_uncounted fuel w initial_context st :
  NoDup (name <$> tasks w) ->
  Forall (fun t => status t = PENDING) (tasks w) ->
  (exists t, t ∈ tasks w /\ dependencies t = []) ->
  execute_workflow fuel w initial_context = Some st ->
  LogDeadlock ∈ log st <->
  exists t, t ∈ tasks (wf st) /\ name t ∉ completed_task_names st.
Proof.
  intros Hnd Hst (t0 & Hin0 & Hd0) Hrun.
  destruct (execute_workflow_ended _ _ _ _ Hnd Hst Hrun) as (st1 & Hinv & Hend).
  pose proof (same_shape_names _ _ (inv_shape _ _ _ Hinv)) as Hnames.
  pose proof Hend as (Ew & Ep & Ec & [[Hnil El]|(Hne & Hb & El)]).
  - split.
    + intros Hl. rewrite El in Hl. by apply (inv_log _ _ _ Hinv) in Hl.
    + intros (t & Hin & Hs). exfalso.
      destruct (ended_statuses _ _ Hnd _ _ _ Hinv Hend Hin)
        as [[? _]|(Hs' & _)]; [done|].
      destruct (inv_swept _ _ _ Hinv) as [Hsw|Hsw].
      * rewrite Ew in Hin. specialize (Hsw t Hin Hs').
        rewrite Hnil in Hsw. by apply elem_of_nil in Hsw.
      * specialize (Hsw t0 Hin0 Hd0).
        rewrite Hnil in Hsw. by apply elem_of_nil in Hsw.
  - split; [intros _ | intros _; rewrite El; apply elem_of_app; right; left].
    destruct (pending_tasks st1) as [|p ps] eqn:Hp; [done|].
    destruct (inv_pending _ _ _ Hinv p) as [Hc Hreg]; [rewrite Hp; left|].
    rewrite <- Hnames in Hreg. apply list_elem_of_fmap in Hreg as (t & -> & Hin).
    rewrite <- Ew in Hin. exists t. split; [done|]. by rewrite Ec.
Qed.

(** X7. When some task has no dependency, the line "Deadlock detected in
    workflow execution" is logged by exactly the returned runs that leave
    a task PENDING. *)
Theorem deadlock_logged_iff_task_left_pending :
  forall fuel w initial_context st,
    NoDup (name <$> tasks w) ->
    Forall (fun t => status t = PENDING) (tasks w) ->
    (exists t, t ∈ tasks w /\ dependencies t = []) ->
    execute_workflow fuel w initial_context = Some st ->
    LogDeadlock ∈ log st <->
    exists t, t ∈ tasks (wf st) /\ status t = PENDING.
Proof.
  intros fuel w ic st Hnd Hst Hroot Hrun.
  rewrite (deadlock_logged_iff_uncounted _ _ _ _ Hnd Hst Hroot Hrun).
  split; intros (t & Hin & H); exists t; (split; [done|]);
    destruct (returned_statuses _ _ _ _ _ Hnd Hst Hrun Hin)
      as [(Hc & _ & [Hs|[Hs _]])|(Hs & Hc & _)]; congruence || done.
Qed.

(** X8. The returned context agrees with the context on entry (the keyword
    arguments of the call, then what the workflow held before) on every
    key that is not the result key of a task left COMPLETED or
    IN_PROGRESS. *)
Theorem context_keeps_other_keys :
  forall fuel w initial_context st k,
    NoDup (name <$> tasks w) ->
    Forall (fun t => status t = PENDING) (tasks w) ->
    execute_workflow fuel w initial_context = Some st ->
    (forall t, t ∈ tasks (wf st) ->
               status t = COMPLETED \/ status t = IN_PROGRESS ->
               k <> name t ++ "_result") ->
    context (wf st) !! k
    = match initial_context !! k with
      | Some v => Some v
      | None => context w !! k
      end.
Proof.
  intros fuel w ic st k Hnd Hst Hrun Hk.
  destruct (execute_workflow_ended _ _ _ _ Hnd Hst Hrun)
    as (st1 & Hinv & Ew & _ & _ & _).
  rewrite Ew in *. rewrite (inv_context _ _ _ Hinv).
  - rewrite lookup_union. by destruct (ic !! k), (context w !! k).
  - intros n Hn.
    destruct (completed_name_task _ _ _ n Hnd Hinv Hn) as (t & v & Hf & _ & _ & He).
    apply find_task_Some in Hf as [<- Hin]. apply Hk; [done|].
    destruct He as [[? _]|[? _]]; auto.
Qed.

(** X9. A run adds, drops, renames or reorders no task, and changes no
    task's work or dependencies: [get_status] afterwards lists the
    registered names in registration order. *)
Theorem run_keeps_registered_tasks :
  forall fuel w initial_context st,
    NoDup (name <$> tasks w) ->
    Forall (fun t => status t = PENDING) (tasks w) ->
    execute_workflow fuel w initial_context = Some st ->
    Forall2 same_shape (tasks w) (tasks (wf st)) /\
    (get_status (wf st)).*1 = name <$> tasks w.
Proof.
  intros fuel w ic st Hnd Hst Hrun.
  destruct (execute_workflow_ended _ _ _ _ Hnd Hst Hrun)
    as (st1 & Hinv & Ew & _ & _ & _).
  rewrite Ew. pose proof (inv_shape _ _ _ Hinv) as Hshape.
  split; [done|]. unfold get_status. rewrite <- list_fmap_compose.
  apply (same_shape_names _ _ Hshape).
Qed.

(* ===================================================================== *)
(** ** A dependency cycle and the deadlock check

    A pass that finds [pending_tasks] non-empty and no task to execute
    logs "Deadlock detected in workflow execution" and leaves the loop.
    [pending_tasks] starts with the tasks that have no dependency, so
    without such a task the loop, and the check with it, is skipped. *)

(** C2, the code at a failing input. Take a freshly registered workflow
    with a dependency cycle [c]. No task on the cycle is ever run: when
    the run returns each is still PENDING, is not among the completed
    names and is named by no logged failure. The deadlock line is logged
    by the returned runs of exactly the workflows that hold a task
    without dependencies. When every task has a dependency, as in the
    2-node cycle of A and B, the run returns at once in its initial
    state: no task was run and nothing was logged, the deadlock goes
    unreported. Where the check fires it names no task and raises
    nothing; the run hands back its context all the same. *)
Theorem cycle_deadlock_reported_only_beside_a_root :
  forall (w : DebateWorkflow) (initial_context : gmap string value)
         (c : list string),
    NoDup (name <$> tasks w) ->
    Forall (fun t => status t = PENDING) (tasks w) ->
    dep_cycle w c ->
    (forall fuel st, execute_workflow fuel w initial_context = Some st ->
       (forall n, n ∈ c ->
          status_of (wf st) n = Some PENDING /\
          (n ∉ completed_task_names st) /\
          forall e, LogTaskFailed n e ∉ log st) /\
       (LogDeadlock ∈ log st <->
        exists t, t ∈ tasks w /\ dependencies t = [])) /\
    ((forall t, t ∈ tasks w -> dependencies t <> []) ->
     forall fuel, execute_workflow (Datatypes.S fuel) w initial_context
                  = Some (initial_run w initial_context)).
Proof.
  intros w ctx c Hnd Hfresh Hc.
  split; [|intros Hd fuel; by apply no_root_returns_at_once].
  intros fuel st Hrun.
  assert (stuck_inv (list_to_set c) (initial_run w ctx)) as Hinit.
  { split; [|split]; simpl.
    - intros t Ht Hn. split; [|by apply (dep_cycle_waits w)].
      by apply (proj1 (Forall_forall _ _) Hfresh).
    - intros m Hm. by apply not_elem_of_empty in Hm.
    - intros m e Hm. by apply elem_of_nil in Hm. }
  destruct (run_loop_stuck _ fuel _ _ Hinit Hrun) as (Ht & Hcomp & Hl).
  destruct (execute_workflow_ended _ _ _ _ Hnd Hfresh Hrun)
    as (st1 & Hinv & Ew & _ & _ & _).
  pose proof (same_shape_names _ _ (inv_shape _ _ _ Hinv)) as Hnames.
  rewrite <- Ew in Hnames.
  assert (forall n, n ∈ c ->
            exists t, t ∈ tasks (wf st) /\ name t = n /\
                      find_task (tasks (wf st)) n = Some t) as Hreg.
  { intros n [i Hi]%list_elem_of_lookup.
    destruct (proj2 Hc i n Hi) as [Hin _]. rewrite <- Hnames in Hin.
    apply list_elem_of_fmap in Hin as (t & -> & Hin). exists t.
    split; [done|]. split; [done|]. apply find_task_elem; [by rewrite Hnames | done]. }
  split.
  - intros n Hn. destruct (Hreg n Hn) as (t & Hin & <- & Hf).
    split; [|split].
    + unfold status_of. rewrite Hf. simpl. f_equal.
      by apply Ht; [|apply elem_of_list_to_set].
    + intros Hin'. by apply (Hcomp _ Hin'), elem_of_list_to_set.
    + intros e Hin'. by apply (Hl _ e Hin'), elem_of_list_to_set.
  - split.
    + intros Hlog.
      destruct (decide (Exists (fun t => dependencies t = []) (tasks w)))
        as [Hex|Hno].
      * apply Exists_exists in Hex as (t & Hin & Hd). by exists t.
      * exfalso. destruct fuel as [|fuel]; [done|].
        rewrite no_root_returns_at_once in Hrun.
        -- injection Hrun as <-. by apply elem_of_nil in Hlog.
        -- intros t Hin Hd. apply Hno, Exists_exists. by exists t.
    + intros Hroot.
      apply (deadlock_logged_iff_uncounted _ _ _ _ Hnd Hfresh Hroot Hrun).
      destruct c as [|n c']; [by destruct Hc|].
      destruct (Hreg n) as (t & Hin & <- & _); [left|].
      exists t. split; [done|]. intros Hin'.
      apply (Hcomp _ Hin'), elem_of_list_to_set. left.
Qed.

Lemma cycle_deadlock_reported_only_beside_a_root_witness :
  execute_workflow 5 (two_cycle (returns_ok "a") (returns_ok "b")) ∅
  = Some (initial_run (two_cycle (returns_ok "a") (returns_ok "b")) ∅).
Proof.
  refine (proj2 (cycle_deadlock_reported_only_beside_a_root
                   (two_cycle (returns_ok "a") (returns_ok "b")) ∅ ["A"; "B"]
                   _ _ (two_cycle_is_cycle _ _)) _ 4).
  - by apply (bool_decide_unpack _).
  - by repeat constructor.
  - intros t Ht. unfold two_cycle, add_task in Ht. simpl in Ht.
    apply elem_of_cons in Ht as [->|Ht]; [done|].
    apply list_elem_of_singleton in Ht as ->. done.
Defined.

(** The 2-node cycle: the run returns normally, having run nothing and
    logged nothing, and with no amount of fuel does it report a deadlock. *)
Lemma two_cycle_reports_no_deadlock :
  (exists st,
     execute_workflow 5 (two_cycle (returns_ok "a") (returns_ok "b")) ∅ = Some st /\
     log st = [] /\
     context (wf st) = ∅ /\
     get_status (wf st) = [("A", (PENDING, None)); ("B", (PENDING, None))]) /\
  ~ (exists fuel st,
       execute_workflow fuel (two_cycle (returns_ok "a") (returns_ok "b")) ∅
       = Some st /\ LogDeadlock ∈ log st).
Proof.
  split.
  - eexists. split; [reflexivity|]. by vm_compute.
  - intros (fuel & st & Hrun & Hlog). destruct fuel as [|fuel]; [done|].
    injection Hrun as <-. simpl in Hlog. by apply elem_of_nil in Hlog.
Qed.

(** The same cycle beside a task R without dependencies: the first pass
    runs R, the second finds A and B pending and neither ready, and the
    deadlock is logged. *)
Definition rooted_cycle : DebateWorkflow :=
  add_task "B" (returns_ok "b") ["A"]
    (add_task "A" (returns_ok "a") ["B"]
       (add_task "R" (returns_ok "r") [] empty_workflow)).

Lemma rooted_cycle_reports_deadlock :
  (fun st => (get_status (wf st), log st)) <$> execute_workflow 2 rooted_cycle ∅
  = Some ([("R", (COMPLETED, None)); ("A", (PENDING, None));
           ("B", (PENDING, None))],
          [LogDeadlock]).
Proof. by vm_compute. Qed.

(** ** Termination when no result is an [Exception] *)

Lemma run_loop_S fuel st :
  run_loop (S fuel) st
  = match pending_tasks st with
    | [] => Some st
    | _ :: _ =>
        match tasks_to_execute st with
        | [] => Some (mkRun (wf st) (pending_tasks st)
                        (completed_task_names st) (log st ++ [LogDeadlock]))
        | batch => run_loop fuel (run_batch st batch)
        end
    end.
Proof. reflexivity. Qed.

Lemma run_batch_completed st batch n :
  NoDup (name <$> tasks (wf st)) -> NoDup batch ->
  n ∈ completed_task_names (run_batch st batch) <->
  n ∈ completed_task_names st \/
  (n ∈ batch /\ exists t, find_task (tasks (wf st)) n = Some t /\
                          is_exception (gathered (func t (context (wf st)))) = false).
Proof.
  intros Hts Hb. rewrite run_batch_spec by done. simpl.
  rewrite elem_of_union, elem_of_list_to_set, list_elem_of_fmap. split.
  - intros [([n' v] & -> & Hin)|Hin]; [|by left]. right. simpl.
    apply elem_of_returned in Hin as [Hin Hv].
    apply elem_of_outcomes in Hin as (Hnb & t & Hf & Hr).
    split; [done|]. exists t. by rewrite Hr.
  - intros [Hin|(Hnb & t & Hf & Hr)]; [by right|]. left.
    exists (n, gathered (func t (context (wf st)))). split; [done|].
    apply elem_of_returned. split; [|done].
    apply elem_of_outcomes. split; [done|]. by exists t.
Qed.

Lemma run_batch_log st batch :
  NoDup (name <$> tasks (wf st)) -> NoDup batch ->
  log (run_batch st batch)
  = (log st ++ failures (outcomes (tasks (wf st)) (context (wf st)) batch))%list.
Proof. intros Hts Hb. by rewrite run_batch_spec. Qed.

(** The registered names that are not completed yet. *)
Definition unfinished (ts0 : list WorkflowTask) (st : run_state) : gset string :=
  list_to_set (name <$> ts0) ∖ completed_task_names st.

Section Progress.

Variable ts0 : list WorkflowTask.
Variable ctx0 : gmap string value.
Hypothesis ts0_NoDup : NoDup (name <$> ts0).
Hypothesis ts0_no_exception :
  forall t kwargs, t ∈ ts0 -> is_exception (gathered (func t kwargs)) = false.

Lemma run_inv_no_exception st t kwargs :
  run_inv ts0 ctx0 st -> t ∈ tasks (wf st) ->
  is_exception (gathered (func t kwargs)) = false.
Proof.
  intros Hinv Hin.
  destruct (same_shape_elem _ _ _ (inv_shape _ _ _ Hinv) Hin)
    as (t0 & Hin0 & _ & -> & _).
  by apply ts0_no_exception.
Qed.

(** A pass with a non-empty batch completes at least one more name. *)
Lemma run_batch_progress st b :
  run_inv ts0 ctx0 st -> b ∈ tasks_to_execute st ->
  size (unfinished ts0 (run_batch st (tasks_to_execute st)))
  < size (unfinished ts0 st).
Proof.
  intros Hinv Hb.
  pose proof (same_shape_names _ _ (inv_shape _ _ _ Hinv)) as Hnames.
  assert (NoDup (name <$> tasks (wf st))) as Hts by by rewrite Hnames.
  assert (NoDup (tasks_to_execute st)) as Hbn
    by (apply NoDup_List_filter, (inv_pending_NoDup _ _ _ Hinv)).
  pose proof Hb as (Hbp & t & Hin & <- & _)%elem_of_tasks_to_execute; [|done].
  destruct (inv_pending _ _ _ Hinv _ Hbp) as [Hbc Hbr].
  pose proof (run_inv_no_exception st t (context (wf st)) Hinv Hin) as Hv.
  assert (name t ∈ completed_task_names (run_batch st (tasks_to_execute st)))
    as Hnew.
  { apply run_batch_completed; [done | done |]. right. split; [done|].
    exists t. split; [by apply find_task_elem | done]. }
  apply subset_size. unfold unfinished. split.
  - intros n [Hn Hc]%elem_of_difference. apply elem_of_difference.
    split; [done|]. intros Hc'. apply Hc, run_batch_completed; [done | done |].
    by left.
  - intros Hsub. specialize (Hsub (name t)).
    rewrite !elem_of_difference, elem_of_list_to_set in Hsub. by destruct Hsub.
Qed.

Lemma run_batch_logs_no_failure st n e :
  run_inv ts0 ctx0 st ->
  LogTaskFailed n e ∈ log (run_batch st (tasks_to_execute st)) ->
  LogTaskFailed n e ∈ log st.
Proof.
  intros Hinv.
  pose proof (same_shape_names _ _ (inv_shape _ _ _ Hinv)) as Hnames.
  rewrite run_batch_log;
    [| by rewrite Hnames
     | apply NoDup_List_filter, (inv_pending_NoDup _ _ _ Hinv)].
  intros [H|H]%elem_of_app; [done|]. exfalso.
  apply elem_of_failures in H as (v & H & Hv & _).
  apply elem_of_outcomes in H as (_ & t & Hf & Hr).
  apply find_task_Some in Hf as [_ Hin].
  pose proof (run_inv_no_exception st t (context (wf st)) Hinv Hin). congruence.
Qed.

Lemma run_loop_returns (k : nat) : forall st,
  run_inv ts0 ctx0 st ->
  (forall n e, LogTaskFailed n e ∉ log st) ->
  size (unfinished ts0 st) <= k ->
  exists st', run_loop (S k) st = Some st' /\
              forall n e, LogTaskFailed n e ∉ log st'.
Proof.
  induction k as [|k IH]; intros st Hinv Hlog Hsize; rewrite run_loop_S.
  all: destruct (pending_tasks st) as [|p ps] eqn:Hp; [by exists st|].
  all: destruct (tasks_to_execute st) as [|b bs] eqn:Hb.
  1,3: eexists; split; [done|]; simpl; intros n e [H|H]%elem_of_app;
         [by apply Hlog in H | by apply list_elem_of_singleton in H].
  all: rewrite <- Hb.
  all: assert (b ∈ tasks_to_execute st) as Hbin by (rewrite Hb; left).
  all: pose proof (run_batch_progress st b Hinv Hbin) as Hlt.
  - lia.
  - apply IH; [by apply run_batch_inv | | lia].
    intros n e H. by apply run_batch_logs_no_failure, Hlog in H.
Qed.

End Progress.

(** X10. When no call of any task's work raises an [Exception] or returns
    one (it returns another object, or raises [CancelledError] or another
    exception outside [Exception]), the run returns after at most one
    pass per task, whatever the dependencies; no failure is logged. *)
Theorem run_returns_when_no_result_is_an_exception :
  forall w initial_context,
    NoDup (name <$> tasks w) ->
    Forall (fun t => status t = PENDING) (tasks w) ->
    (forall t kwargs, t ∈ tasks w ->
       is_exception (gathered (func t kwargs)) = false) ->
    exists st,
      execute_workflow (S (length (tasks w))) w initial_context = Some st /\
      forall n e, LogTaskFailed n e ∉ log st.
Proof.
  intros w ic Hnd Hst Hret. unfold execute_workflow.
  apply (run_loop_returns (tasks w) (ic ∪ context w) Hnd Hret).
  - by apply initial_run_inv.
  - intros n e. apply not_elem_of_nil.
  - unfold unfinished. simpl.
    rewrite difference_empty_L, size_list_to_set by done.
    by rewrite length_fmap.
Qed.

(** X30. The test on the result is [isinstance(result, Exception)]: work
    that hands back an [Exception] object as its value, without raising,
    is treated as failed. A task without dependencies whose work returns
    such an object on every call is run again by every pass, and
    [execute_workflow] does not return, whatever the fuel. *)
Theorem returned_exception_is_rerun_forever :
  forall (w : DebateWorkflow) (initial_context : gmap string value)
         (t : WorkflowTask) (fuel : nat),
    find_task (tasks w) (name t) = Some t ->
    dependencies t = [] ->
    (forall kwargs, exists v, func t kwargs = Returns v /\ is_exception v = true) ->
    execute_workflow fuel w initial_context = None.
Proof.
  intros w ctx t fuel Ht Hd Hf. unfold execute_workflow.
  apply (run_loop_retry (name t)). split; [|split]; simpl.
  - exists t. split; [done|]. split; [done|].
    intros kwargs. by destruct (Hf kwargs) as (v & -> & Hv).
  - apply list_elem_of_fmap. exists t. split; [done|].
    apply list_elem_of_In, filter_In. split.
    + apply list_elem_of_In. by apply find_task_Some in Ht as [_ ?].
    + by apply bool_decide_eq_true.
  - set_solver.
Qed.

(** One task, no dependency, work that returns [ValueError("boom")]. *)
Definition returns_exception : DebateWorkflow :=
  add_task "A" (fun _ => Returns (ExceptionObj "boom")) [] empty_workflow.

Lemma returned_exception_is_rerun_forever_witness :
  execute_workflow 1000 returns_exception ∅ = None.
Proof.
  apply (returned_exception_is_rerun_forever returns_exception ∅
           (new_task "A" (fun _ => Returns (ExceptionObj "boom")) []) 1000).
  - reflexivity.
  - reflexivity.
  - intros kwargs. by exists (ExceptionObj "boom").
Defined.

(** After its first pass that task is FAILED with the text of the object
    as its error, the failure is logged, and the task is pending again. *)
Lemma returned_exception_first_pass :
  let st := run_batch (initial_run returns_exception ∅) ["A"] in
  get_status (wf st) = [("A", (FAILED, Some "boom"))] /\
  log st = [LogTaskFailed "A" "boom"] /\ pending_tasks st = ["A"].
Proof. by vm_compute. Qed.

(* ===================================================================== *)
(** ** The sample workflow of [server_debug.py]

    [test_workflow] registers [task1] and [task2] without dependencies and
    [task3] after both, and runs them with [param1="Hello"] and
    [param2="World"]. A callable whose named parameter is missing from the
    keyword arguments raises [TypeError] at the call; the f-strings format
    their arguments with [str]. *)

Definition task1 : gmap string value -> outcome := fun kwargs =>
  match kwargs !! "param1" with
  | Some param1 => Returns (Obj ("Result from task1: " ++ str param1))
  | None => Raises "test_workflow.<locals>.task1() missing 1 required positional argument: 'param1'"
  end.

Definition task2 : gmap string value -> outcome := fun kwargs =>
  match kwargs !! "param2" with
  | Some param2 => Returns (Obj ("Result from task2: " ++ str param2))
  | None => Raises "test_workflow.<locals>.task2() missing 1 required positional argument: 'param2'"
  end.

Definition task3 : gmap string value -> outcome := fun kwargs =>
  match kwargs !! "task1_result", kwargs !! "task2_result" with
  | Some task1_result, Some task2_result =>
      Returns (Obj ("Final result: " ++ str task1_result ++ " + "
                    ++ str task2_result))
  | None, Some _ =>
      Raises "test_workflow.<locals>.task3() missing 1 required positional argument: 'task1_result'"
  | Some _, None =>
      Raises "test_workflow.<locals>.task3() missing 1 required positional argument: 'task2_result'"
  | None, None =>
      Raises ("test_workflow.<locals>.task3() missing 2 required positional "
              ++ "arguments: 'task1_result' and 'task2_result'")
  end.

Definition test_workflow : DebateWorkflow :=
  add_task "task3" task3 ["task1"; "task2"]
    (add_task "task2" task2 []
       (add_task "task1" task1 [] empty_workflow)).

Definition test_kwargs : gmap string value :=
  <["param1" := Obj "Hello"]> (<["param2" := Obj "World"]> ∅).

Definition test_task1_done : WorkflowTask :=
  mkTask "task1" task1 [] COMPLETED (Some (Obj "Result from task1: Hello")) None.

Definition test_task3_done : WorkflowTask :=
  mkTask "task3" task3 ["task1"; "task2"] COMPLETED
    (Some (Obj "Final result: Result from task1: Hello + Result from task2: World"))
    None.

(** The state in which the run of [test_workflow] returns. *)
Definition test_workflow_done : run_state :=
  mkRun
    (mkWorkflow
       [ test_task1_done;
         mkTask "task2" task2 [] COMPLETED (Some (Obj "Result from task2: World")) None;
         test_task3_done ]
       (<["task3_result" :=
            Obj "Final result: Result from task1: Hello + Result from task2: World"]>
          (<["task2_result" := Obj "Result from task2: World"]>
             (<["task1_result" := Obj "Result from task1: Hello"]> test_kwargs))))
    [] ({["task3"]} ∪ ({["task2"]} ∪ ({["task1"]} ∪ ∅))) [].

Lemma test_workflow_names : NoDup (name <$> tasks test_workflow).
Proof. by apply (bool_decide_unpack _). Qed.

Lemma test_workflow_pending :
  Forall (fun t => status t = PENDING) (tasks test_workflow).
Proof. by repeat constructor. Qed.

Lemma test_workflow_run :
  execute_workflow 3 test_workflow test_kwargs = Some test_workflow_done.
Proof. by vm_compute. Qed.

Lemma test_task3_done_elem : test_task3_done ∈ tasks (wf test_workflow_done).
Proof. simpl. right. right. left. Qed.

Lemma task_runs_after_its_dependencies_witness :
  exists td v,
    find_task (tasks (wf test_workflow_done)) "task1" = Some td /\
    is_exception v = false /\
    context (wf test_workflow_done) !! "task1_result" = Some v /\
    ended_as td v.
Proof.
  apply (task_runs_after_its_dependencies
           3 test_workflow test_kwargs test_workflow_done test_task3_done "task1").
  - exact test_workflow_names.
  - exact test_workflow_pending.
  - exact test_workflow_run.
  - exact test_task3_done_elem.
  - done.
  - left.
Defined.

Lemma completed_task_result_is_in_context_witness :
  exists v, result test_task3_done = Some v /\
            context (wf test_workflow_done) !! "task3_result" = Some v.
Proof.
  apply (completed_task_result_is_in_context
           3 test_workflow test_kwargs test_workflow_done test_task3_done).
  - exact test_workflow_names.
  - exact test_workflow_pending.
  - exact test_workflow_run.
  - exact test_task3_done_elem.
  - reflexivity.
Defined.

Lemma returned_run_leaves_no_failed_task_witness :
  status test_task3_done = COMPLETED \/
  (status test_task3_done = IN_PROGRESS /\
   raises_outside_Exception test_task3_done) \/
  (status test_task3_done = PENDING /\
   exists d, d ∈ dependencies test_task3_done /\
             status_of (wf test_workflow_done) d <> Some COMPLETED /\
             status_of (wf test_workflow_done) d <> Some IN_PROGRESS).
Proof.
  apply (returned_run_leaves_no_failed_task
           3 test_workflow test_kwargs test_workflow_done test_task3_done).
  - exact test_workflow_names.
  - exact test_workflow_pending.
  - exact test_workflow_run.
  - exact test_task3_done_elem.
Defined.

(** [task3] ranks above the two tasks it waits for. *)
Definition test_rank (n : string) : nat :=
  if bool_decide (n = "task3") then 1 else 0.

Lemma test_rank_ok t d :
  t ∈ tasks test_workflow -> d ∈ dependencies t ->
  d ∈ name <$> tasks test_workflow /\ test_rank d < test_rank (name t).
Proof.
  intros Ht Hd. unfold test_workflow, add_task in Ht. simpl in Ht.
  apply elem_of_cons in Ht as [->|Ht]; [by apply elem_of_nil in Hd|].
  apply elem_of_cons in Ht as [->|Ht]; [by apply elem_of_nil in Hd|].
  apply list_elem_of_singleton in Ht as ->. simpl in Hd.
  apply elem_of_cons in Hd as [->|Hd];
    [split; [by left | by vm_compute]|].
  apply list_elem_of_singleton in Hd as ->.
  split; [by right; left | by vm_compute].
Qed.

Lemma acyclic_workflow_leaves_no_task_pending_witness :
  is_Some (context (wf test_workflow_done) !! "task3_result") /\
  (status test_task3_done = COMPLETED \/
   (status test_task3_done = IN_PROGRESS /\
    raises_outside_Exception test_task3_done)).
Proof.
  apply (acyclic_workflow_leaves_no_task_pending
           3 test_workflow test_kwargs test_workflow_done test_rank
           test_task3_done).
  - exact test_workflow_names.
  - exact test_workflow_pending.
  - exact test_rank_ok.
  - exact test_workflow_run.
  - exact test_task3_done_elem.
Defined.

Lemma deadlock_logged_iff_task_left_pending_witness :
  LogDeadlock ∈ log test_workflow_done <->
  exists t, t ∈ tasks (wf test_workflow_done) /\ status t = PENDING.
Proof.
  apply (deadlock_logged_iff_task_left_pending 3 test_workflow test_kwargs).
  - exact test_workflow_names.
  - exact test_workflow_pending.
  - exists (new_task "task1" task1 []). split; [left | reflexivity].
  - exact test_workflow_run.
Defined.

Lemma context_keeps_other_keys_witness :
  context (wf test_workflow_done) !! "param1" = Some (Obj "Hello").
Proof.
  apply (context_keeps_other_keys
           3 test_workflow test_kwargs test_workflow_done "param1").
  - exact test_workflow_names.
  - exact test_workflow_pending.
  - exact test_workflow_run.
  - intros t Ht _. simpl in Ht.
    apply elem_of_cons in Ht as [->|Ht]; [done|].
    apply elem_of_cons in Ht as [->|Ht]; [done|].
    by apply list_elem_of_singleton in Ht as ->.
Defined.

Lemma run_keeps_registered_tasks_witness :
  Forall2 same_shape (tasks test_workflow) (tasks (wf test_workflow_done)) /\
  (get_status (wf test_workflow_done)).*1 = name <$> tasks test_workflow.
Proof.
  apply (run_keeps_registered_tasks 3 test_workflow test_kwargs).
  - exact test_workflow_names.
  - exact test_workflow_pending.
  - exact test_workflow_run.
Defined.

(** A task whose work is cancelled beside the three tasks of
    [three_tasks]: no result is an [Exception], and the run returns. *)
Definition four_tasks : DebateWorkflow :=
  add_task "D" (fun _ => RaisesCancelled "stop") ["C"] (three_tasks (returns_ok "a")).

Lemma run_returns_when_no_result_is_an_exception_witness :
  exists st,
    execute_workflow 5 four_tasks ∅ = Some st /\
    forall n e, LogTaskFailed n e ∉ log st.
Proof.
  apply (run_returns_when_no_result_is_an_exception four_tasks ∅).
  - by apply (bool_decide_unpack _).
  - by repeat constructor.
  - intros t kwargs Ht. unfold four_tasks, three_tasks, add_task in Ht. simpl in Ht.
    apply elem_of_cons in Ht as [->|Ht]; [done|].
    apply elem_of_cons in Ht as [->|Ht]; [done|].
    apply elem_of_cons in Ht as [->|Ht]; [done|].
    apply list_elem_of_singleton in Ht as ->. done.
Defined.

(** What that run leaves: D is IN_PROGRESS, counted as completed, with a
    [CancelledError] as its result in the context. *)
Lemma four_tasks_run :
  (fun st => (get_status (wf st), context (wf st) !! "D_result", log st))
    <$> execute_workflow 5 four_tasks ∅
  = Some ([("A", (COMPLETED, None)); ("B", (COMPLETED, None));
           ("C", (COMPLETED, None)); ("D", (IN_PROGRESS, None))],
          Some (BaseExceptionObj ""), []).
Proof. by vm_compute. Qed.

End Workflow.

(* ===================================================================== *)
(** * Score extraction ([scorekeeper_agent.py])                           *)
(* ===================================================================== *)

Module Scorekeeper.

Open Scope char_scope.

(** ** Characters

    Text is 7-bit: the classes below are Python's on code points below
    128; a character above 127 belongs to no class and [lower] leaves it
    alone. *)

Definition in_range (lo hi c : ascii) : bool :=
  (nat_of_ascii lo <=? nat_of_ascii c)%nat && (nat_of_ascii c <=? nat_of_ascii hi)%nat.

(** [\d] *)
Definition is_digit (c : ascii) : bool := in_range "0" "9" c.

(** [\w]: letters, digits and the underscore. *)
Definition is_word (c : ascii) : bool :=
  in_range "a" "z" c || in_range "A" "Z" c || is_digit c || Ascii.eqb c "_".

(** [\s]: tab, line feed, vertical tab, form feed, carriage return, the
    four separators 28 to 31, and the space. *)
Definition is_space (c : ascii) : bool :=
  let n := nat_of_ascii c in
  ((9 <=? n) && (n <=? 13) || (28 <=? n) && (n <=? 32))%nat.

(** [[\s\w]] *)
Definition is_space_or_word (c : ascii) : bool := is_space c || is_word c.

Definition lower_char (c : ascii) : ascii :=
  if in_range "A" "Z" c then ascii_of_nat (nat_of_ascii c + 32) else c.

(** [str.lower] *)
Fixpoint lower (s : string) : string :=
  match s with
  | EmptyString => EmptyString
  | String c s' => String (lower_char c) (lower s')
  end.

(** ** The two patterns, and a backtracking matcher for them

    The patterns use literals, an optional character, a greedy starred
    class and one capturing group [(\d+)]. *)
Inductive item :=
| Lit (c : ascii)
| Opt (c : ascii)
| Star (cls : ascii -> bool)
| Group (cls : ascii -> bool).

(** [cls*] followed by the rest of the pattern [k]: greedy, the longest
    run first, giving back one character at a time. *)
Fixpoint star (cls : ascii -> bool) (k : string -> option string) (s : string)
    : option string :=
  match s with
  | String a s' =>
      if cls a then
        match star cls k s' with
        | Some r => Some r
        | None => k s
        end
      else k s
  | EmptyString => k s
  end.

(** [(cls+)] followed by the rest of the pattern [k]: greedy as well; the
    result is the text the group took. *)
Fixpoint group (cls : ascii -> bool) (k : string -> option string) (s : string)
    : option string :=
  match s with
  | String a s' =>
      if cls a then
        match group cls k s' with
        | Some captured => Some (String a captured)
        | None =>
            match k s' with
            | Some _ => Some (String a EmptyString)
            | None => None
            end
        end
      else None
  | EmptyString => None
  end.

(** [match_here pat s]: the pattern matches a prefix of [s]; the result is
    the text of the group (empty when the pattern has none). Alternatives
    are tried in the order of Python's matcher. *)
Fixpoint match_here (pat : list item) (s : string) {struct pat} : option string :=
  match pat with
  | [] => Some EmptyString
  | Lit c :: pat' =>
      match s with
      | String a s' => if Ascii.eqb a c then match_here pat' s' else None
      | EmptyString => None
      end
  | Opt c :: pat' =>
      match s with
      | String a s' =>
          if Ascii.eqb a c then
            match match_here pat' s' with
            | Some r => Some r
            | None => match_here pat' s
            end
          else match_here pat' s
      | EmptyString => match_here pat' s
      end
  | Star cls :: pat' => star cls (match_here pat') s
  | Group cls :: pat' => group cls (match_here pat') s
  end.

(** [re.search(pattern, s)], reduced to [.group(1)] of the match: the
    leftmost position at which the pattern matches. *)
Fixpoint search (pat : list item) (s : string) : option string :=
  match match_here pat s with
  | Some r => Some r
  | None =>
      match s with
      | String _ s' => search pat s'
      | EmptyString => None
      end
  end.

Definition lits (s : string) : list item := Lit <$> list_ascii_of_string s.

(** The tail shared by both patterns: [ [\s\w]*:?\s*(\d+)[\s\w]*points? ]. *)
Definition score_tail : list item :=
  [Star is_space_or_word; Opt ":"; Star is_space; Group is_digit;
   Star is_space_or_word] ++ lits "point" ++ [Opt "s"].

Definition pro_pattern : list item := lits "pro" ++ score_tail.
Definition con_pattern : list item := lits "con" ++ score_tail.

Close Scope char_scope.
Open Scope Z_scope.

Definition digit_value (c : ascii) : Z := Z.of_nat (nat_of_ascii c) - 48.

(** [int(s)] on a string of decimal digits. *)
Definition int_of_digits (s : string) : Z :=
  fold_left (fun acc c => 10 * acc + digit_value c) (list_ascii_of_string s) 0.

Definition score_of (m : option string) : Z :=
  match m with
  | Some digits => int_of_digits digits
  | None => 0
  end.

(** [ScorekeeperAgent._parse_evaluation]. [int] is taken to convert every
    string of decimal digits, so nothing in the [try] block raises and the
    handler, which would keep the values assigned so far, is not reached. *)
Definition _parse_evaluation (evaluation : string) : Z * Z * string :=
  let pro_match := search pro_pattern (lower evaluation) in
  let con_match := search con_pattern (lower evaluation) in
  let pro_score := score_of pro_match in
  let con_score := score_of con_match in
  let winner :=
    if Z.abs (pro_score - con_score) <=? 5 then "Tie"%string
    else if pro_score >? con_score then "Pro"%string
    else "Con"%string in
  (pro_score, con_score, winner).

Close Scope Z_scope.

(** ** What a match is

    [matches pat s captured]: the pattern matches a prefix of [s], the
    group taking [captured]. This is the pattern read as a set of
    strings, without the order in which the matcher tries them. *)
Inductive matches : list item -> string -> string -> Prop :=
| matches_nil s :
    matches [] s EmptyString
| matches_lit c pat s cap :
    matches pat s cap -> matches (Lit c :: pat) (String c s) cap
| matches_opt_take c pat s cap :
    matches pat s cap -> matches (Opt c :: pat) (String c s) cap
| matches_opt_skip c pat s cap :
    matches pat s cap -> matches (Opt c :: pat) s cap
| matches_star_stop cls pat s cap :
    matches pat s cap -> matches (Star cls :: pat) s cap
| matches_star_more cls pat a s cap :
    cls a = true -> matches (Star cls :: pat) s cap ->
    matches (Star cls :: pat) (String a s) cap
| matches_group_one cls pat a s cap :
    cls a = true -> matches pat s cap ->
    matches (Group cls :: pat) (String a s) (String a EmptyString)
| matches_group_more cls pat a s cap :
    cls a = true -> matches (Group cls :: pat) s cap ->
    matches (Group cls :: pat) (String a s) (String a cap).

(** The match [re.search] reports starts at the leftmost position at
    which the pattern matches. *)
Definition first_match (pat : list item) (s captured : string) : Prop :=
  exists pre suf,
    s = (pre ++ suf)%string /\ matches pat suf captured /\
    forall pre' suf' cap,
      s = (pre' ++ suf')%string -> (String.length pre' < String.length pre)%nat ->
      ~ matches pat suf' cap.



Lemma star_sound cls pat k :
  (forall s cap, k s = Some cap -> matches pat s cap) ->
  forall s cap, star cls k s = Some cap -> matches (Star cls :: pat) s cap.
Proof.
  intros Hk s. induction s as [|a s IH]; intros cap H; simpl in H.
  - by apply matches_star_stop, Hk.
  - destruct (cls a) eqn:Ha; [|by apply matches_star_stop, Hk].
    destruct (star cls k s) as [r|] eqn:Hs.
    + injection H as <-. by apply matches_star_more, IH.
    + by apply matches_star_stop, Hk.
Qed.

Lemma group_sound cls pat k :
  (forall s cap, k s = Some cap -> matches pat s cap) ->
  forall s cap, group cls k s = Some cap -> matches (Group cls :: pat) s cap.
Proof.
  intros Hk s. induction s as [|a s IH]; intros cap H; simpl in H; [done|].
  destruct (cls a) eqn:Ha; [|done].
  destruct (group cls k s) as [r|] eqn:Hs.
  - injection H as <-. by apply matches_group_more, IH.
  - destruct (k s) as [r|] eqn:Hr; [|done]. injection H as <-.
    eapply matches_group_one; [done | by apply Hk].
Qed.

Lemma match_here_sound pat : forall s cap,
  match_here pat s = Some cap -> matches pat s cap.
Proof.
  induction pat as [|[c|c|cls|cls] pat IH]; intros s cap H; simpl in H.
  - injection H as <-. constructor.
  - destruct s as [|a s]; [done|].
    destruct (Ascii.eqb_spec a c) as [->|]; [|done].
    by apply matches_lit, IH.
  - destruct s as [|a s]; [by apply matches_opt_skip, IH|].
    destruct (Ascii.eqb_spec a c) as [->|]; [|by apply matches_opt_skip, IH].
    destruct (match_here pat s) as [r|] eqn:Hr.
    + injection H as <-. by apply matches_opt_take, IH.
    + by apply matches_opt_skip, IH.
  - by apply (star_sound cls pat (match_here pat) IH).
  - by apply (group_sound cls pat (match_here pat) IH).
Qed.

Lemma star_stop_complete cls k s : is_Some (k s) -> is_Some (star cls k s).
Proof.
  intros H. destruct s as [|a s]; simpl; [done|].
  destruct (cls a); [|done]. by destruct (star cls k s).
Qed.

Lemma match_here_complete pat s cap :
  matches pat s cap -> is_Some (match_here pat s).
Proof.
  induction 1 as [s|c pat s cap _ IH|c pat s cap _ IH|c pat s cap _ IH
                  |cls pat s cap _ IH|cls pat a s cap Ha _ IH
                  |cls pat a s cap Ha _ IH|cls pat a s cap Ha _ IH]; simpl.
  - done.
  - by rewrite Ascii.eqb_refl.
  - rewrite Ascii.eqb_refl. by destruct IH as [r ->].
  - destruct s as [|a s]; [done|].
    destruct (Ascii.eqb a c); [|done]. by destruct (match_here pat s).
  - by apply star_stop_complete.
  - simpl in IH. rewrite Ha. by destruct IH as [r ->].
  - rewrite Ha. destruct (group cls (match_here pat) s); [done|].
    by destruct IH as [r ->].
  - simpl in IH. rewrite Ha. by destruct IH as [r ->].
Qed.

Lemma append_nil_l (s : string) : (EmptyString ++ s)%string = s.
Proof. reflexivity. Qed.

Lemma append_cons_l a (s1 s2 : string) :
  (String a s1 ++ s2)%string = String a (s1 ++ s2)%string.
Proof. reflexivity. Qed.

Lemma search_Some pat s cap : search pat s = Some cap -> first_match pat s cap.
Proof.
  induction s as [|a s IH]; simpl.
  - destruct (match_here pat EmptyString) as [r|] eqn:Hm; [|done].
    intros [= <-]. exists EmptyString, EmptyString.
    split; [done|]. split; [by apply match_here_sound|].
    intros pre' suf' cap' _ Hlt. simpl in Hlt. lia.
  - destruct (match_here pat (String a s)) as [r|] eqn:Hm.
    + intros [= <-]. exists EmptyString, (String a s).
      split; [done|]. split; [by apply match_here_sound|].
      intros pre' suf' cap' _ Hlt. simpl in Hlt. lia.
    + intros H. destruct (IH H) as (pre & suf & -> & Hsuf & Hleft).
      exists (String a pre), suf. split; [done|]. split; [done|].
      intros pre' suf' cap' Heq Hlt Hm'. destruct pre' as [|a' pre'].
      * rewrite append_nil_l in Heq. subst suf'.
        apply match_here_complete in Hm' as [r Hr]. congruence.
      * rewrite append_cons_l in Heq. simpl in Hlt. injection Heq as <- Heq.
        apply (Hleft pre' suf' cap' Heq); [lia | done].
Qed.




(** The first part of the statement on a text in two lines. *)
Definition two_line_evaluation : string :=
  "Pro: 82 points" +:+ String (ascii_of_nat 10) "Con: 75 points".


(* ===================================================================== *)
(** ** Scores are numbers written in digits *)

(** Every character of [s] is in the class. *)
Fixpoint all_in (cls : ascii -> bool) (s : string) : bool :=
  match s with
  | EmptyString => true
  | String a s' => cls a && all_in cls s'
  end.

Definition all_digits (s : string) : bool := all_in is_digit s.

Lemma is_digit_range (c : ascii) :
  is_digit c = true <-> (48 <= nat_of_ascii c <= 57)%nat.
Proof.
  unfold is_digit, in_range. rewrite andb_true_iff, !Nat.leb_le. done.
Qed.

Lemma digit_value_range (c : ascii) :
  is_digit c = true -> (0 <= digit_value c <= 9)%Z.
Proof. intros H%is_digit_range. unfold digit_value. lia. Qed.

(** Every group of the pattern is [(\d+)]. *)
Definition digit_groups (pat : list item) : Prop :=
  Forall (fun it => match it with
                    | Group cls => cls = is_digit
                    | _ => True
                    end) pat.

Lemma matches_all_digits pat s cap :
  matches pat s cap -> digit_groups pat -> all_digits cap = true.
Proof.
  unfold digit_groups, all_digits.
  induction 1 as [s|c pat s cap _ IH|c pat s cap _ IH|c pat s cap _ IH
                  |cls pat s cap _ IH|cls pat a s cap Ha _ IH
                  |cls pat a s cap Ha _ IH|cls pat a s cap Ha _ IH];
    intros Hp; try done.
  - apply IH. by apply Forall_cons in Hp as [_ ?].
  - apply IH. by apply Forall_cons in Hp as [_ ?].
  - apply IH. by apply Forall_cons in Hp as [_ ?].
  - apply IH. by apply Forall_cons in Hp as [_ ?].
  - by apply IH.
  - apply Forall_cons in Hp as [-> _]. simpl. by rewrite Ha.
  - pose proof Hp as [-> _]%Forall_cons. simpl. rewrite Ha. by apply IH.
Qed.

Lemma pro_pattern_groups : digit_groups pro_pattern.
Proof. unfold digit_groups. by repeat constructor. Qed.

Lemma con_pattern_groups : digit_groups con_pattern.
Proof. unfold digit_groups. by repeat constructor. Qed.

Lemma fold_digits_nonneg (l : list ascii) : forall acc : Z,
  Forall (fun c => is_digit c = true) l -> (0 <= acc)%Z ->
  (0 <= fold_left (fun acc c => 10 * acc + digit_value c)%Z l acc)%Z.
Proof.
  induction l as [|c l IH]; intros acc Hl Hacc; [done|].
  apply Forall_cons in Hl as [Hc Hl]. simpl. apply IH; [done|].
  apply digit_value_range in Hc. lia.
Qed.

Lemma all_digits_Forall (s : string) :
  all_digits s = true ->
  Forall (fun c => is_digit c = true) (list_ascii_of_string s).
Proof.
  unfold all_digits. induction s as [|a s IH]; simpl; [constructor|].
  intros [Ha Hs]%andb_true_iff. constructor; [done | by apply IH].
Qed.

Lemma score_of_search_nonneg pat s :
  digit_groups pat -> (0 <= score_of (search pat s))%Z.
Proof.
  intros Hp. destruct (search pat s) as [digits|] eqn:Hs; simpl; [|done].
  apply search_Some in Hs as (pre & suf & _ & Hm & _).
  apply fold_digits_nonneg; [|done].
  by apply all_digits_Forall, (matches_all_digits pat suf).
Qed.

(** X11. Whatever the evaluation text, neither score is negative, and "Pro"
    (or "Con") is declared only with a positive score for that side. *)
Theorem parse_evaluation_scores_nonnegative (evaluation : string) :
  let '(pro_score, con_score, winner) := _parse_evaluation evaluation in
  (0 <= pro_score)%Z /\ (0 <= con_score)%Z /\
  (winner = "Pro" -> (5 < pro_score)%Z) /\
  (winner = "Con" -> (5 < con_score)%Z).
Proof.
  unfold _parse_evaluation.
  pose proof (score_of_search_nonneg pro_pattern (lower evaluation)
                pro_pattern_groups) as Hp.
  pose proof (score_of_search_nonneg con_pattern (lower evaluation)
                con_pattern_groups) as Hc.
  set (p := score_of (search pro_pattern (lower evaluation))) in *.
  set (c := score_of (search con_pattern (lower evaluation))) in *.
  split; [done|]. split; [done|].
  destruct (Z.leb_spec (Z.abs (p - c)) 5) as [Hle|Hgt]; [done|].
  destruct (Z.gtb_spec p c) as [Hpc|Hpc]; split; intros; (done || lia).
Qed.

Lemma parse_evaluation_scores_nonnegative_witness : (5 < 82)%Z.
Proof.
  pose proof (parse_evaluation_scores_nonnegative two_line_evaluation) as H.
  assert (_parse_evaluation two_line_evaluation = (82%Z, 75%Z, "Pro")) as E
    by (by vm_compute).
  rewrite E in H. destruct H as (_ & _ & Hpro & _). apply Hpro. reflexivity.
Defined.

(* ===================================================================== *)
(** ** No score without the word "point" *)

(** [s.startswith(w)] *)
Fixpoint starts_with (w s : string) : bool :=
  match w, s with
  | EmptyString, _ => true
  | String a w', String b s' => Ascii.eqb a b && starts_with w' s'
  | String _ _, EmptyString => false
  end.

(** [w in s] *)
Fixpoint occurs (w s : string) : bool :=
  starts_with w s
  || match s with
     | EmptyString => false
     | String _ s' => occurs w s'
     end.

Lemma occurs_here w s : starts_with w s = true -> occurs w s = true.
Proof. intros H. destruct s; simpl; by rewrite H. Qed.

Lemma occurs_further w a s : occurs w s = true -> occurs w (String a s) = true.
Proof. intros H. simpl. rewrite H. apply orb_true_r. Qed.

Lemma occurs_after w pre s : occurs w s = true -> occurs w (pre ++ s) = true.
Proof.
  intros H. induction pre as [|a pre IH]; [done|].
  rewrite append_cons_l. by apply occurs_further.
Qed.

Lemma matches_lits w rest : forall s cap,
  matches (lits w ++ rest) s cap -> starts_with w s = true.
Proof.
  induction w as [|a w IH]; intros s cap H; [done|].
  change (lits (String a w) ++ rest)%list
    with (Lit a :: (lits w ++ rest)%list) in H.
  inversion H as [|c pat s' cap' H'| | | | | |]; subst. simpl.
  rewrite Ascii.eqb_refl. by apply (IH s' cap).
Qed.

(** A text the pattern matches holds each run of literals of the pattern. *)
Lemma matches_occurs pat s cap :
  matches pat s cap ->
  forall pat1 w rest, pat = (pat1 ++ lits w ++ rest)%list -> occurs w s = true.
Proof.
  induction 1 as [s|c pat s cap H IH|c pat s cap H IH|c pat s cap H IH
                  |cls pat s cap H IH|cls pat a s cap Ha H IH
                  |cls pat a s cap Ha H IH|cls pat a s cap Ha H IH];
    intros pat1 w rest Heq.
  - destruct pat1; [|done]. destruct w; [|done]. by apply occurs_here.
  - destruct pat1 as [|it pat1].
    + simpl in Heq. apply occurs_here, (matches_lits w rest _ cap). rewrite <- Heq.
      by apply matches_lit.
    + injection Heq as _ Heq. apply occurs_further. by apply (IH pat1 w rest).
  - destruct pat1 as [|it pat1].
    + simpl in Heq. apply occurs_here, (matches_lits w rest _ cap). rewrite <- Heq.
      by apply matches_opt_take.
    + injection Heq as _ Heq. apply occurs_further. by apply (IH pat1 w rest).
  - destruct pat1 as [|it pat1].
    + simpl in Heq. apply occurs_here, (matches_lits w rest _ cap). rewrite <- Heq.
      by apply matches_opt_skip.
    + injection Heq as _ Heq. by apply (IH pat1 w rest).
  - destruct pat1 as [|it pat1].
    + simpl in Heq. apply occurs_here, (matches_lits w rest _ cap). rewrite <- Heq.
      by apply matches_star_stop.
    + injection Heq as _ Heq. by apply (IH pat1 w rest).
  - apply occurs_further. by apply (IH pat1 w rest).
  - destruct pat1 as [|it pat1].
    + simpl in Heq.
      apply occurs_here, (matches_lits w rest _ (String a EmptyString)).
      rewrite <- Heq. by eapply matches_group_one.
    + injection Heq as _ Heq. apply occurs_further. by apply (IH pat1 w rest).
  - apply occurs_further. by apply (IH pat1 w rest).
Qed.

Lemma search_occurs pat1 w rest s :
  occurs w s = false -> search (pat1 ++ lits w ++ rest) s = None.
Proof.
  intros Hw. destruct (search _ s) as [d|] eqn:Hs; [|done].
  apply search_Some in Hs as (pre & suf & -> & Hm & _).
  pose proof (matches_occurs _ _ _ Hm pat1 w rest eq_refl) as Ho.
  apply (occurs_after w pre) in Ho. congruence.
Qed.

(** X12. Without the word "point" somewhere in the lowered text, no score is
    read: the result is 0, 0 and "Tie" whatever numbers the text holds.
    "Pro score: 85", which the comment in the source gives as an example
    of what the patterns look for, is such a text. *)
Theorem parse_evaluation_needs_the_word_point (evaluation : string) :
  occurs "point" (lower evaluation) = false ->
  _parse_evaluation evaluation = (0%Z, 0%Z, "Tie").
Proof.
  intros Hw. unfold _parse_evaluation.
  assert (search pro_pattern (lower evaluation) = None) as ->.
  { exact (search_occurs
             (lits "pro" ++ [Star is_space_or_word; Opt ":"%char; Star is_space;
                             Group is_digit; Star is_space_or_word])
             "point" [Opt "s"%char] _ Hw). }
  assert (search con_pattern (lower evaluation) = None) as ->.
  { exact (search_occurs
             (lits "con" ++ [Star is_space_or_word; Opt ":"%char; Star is_space;
                             Group is_digit; Star is_space_or_word])
             "point" [Opt "s"%char] _ Hw). }
  reflexivity.
Qed.

Lemma parse_evaluation_needs_the_word_point_witness :
  _parse_evaluation "Pro score: 85, Con score: 78" = (0%Z, 0%Z, "Tie").
Proof.
  apply (parse_evaluation_needs_the_word_point "Pro score: 85, Con score: 78").
  reflexivity.
Defined.

(* ===================================================================== *)
(** ** Numbers written in decimal

    [pretty n] is the decimal numeral of [n], what Python's [str(n)] and
    an f-string give for a non-negative [int]. *)

Lemma append_assoc_l (s1 s2 s3 : string) :
  ((s1 ++ s2) ++ s3)%string = (s1 ++ (s2 ++ s3))%string.
Proof.
  induction s1 as [|a s1 IH]; [done|]. by rewrite !append_cons_l, IH.
Qed.

Lemma append_nil_r (s : string) : (s ++ "")%string = s.
Proof. induction s as [|a s IH]; [done|]. by rewrite append_cons_l, IH. Qed.

Lemma all_in_app cls (s1 s2 : string) :
  all_in cls (s1 ++ s2) = all_in cls s1 && all_in cls s2.
Proof.
  induction s1 as [|a s1 IH]; [done|].
  rewrite append_cons_l. simpl. by rewrite IH, andb_assoc.
Qed.

Lemma all_in_impl (cls1 cls2 : ascii -> bool) (s : string) :
  (forall a, cls1 a = true -> cls2 a = true) ->
  all_in cls1 s = true -> all_in cls2 s = true.
Proof.
  intros H. induction s as [|a s IH]; [done|]. simpl.
  intros [Ha Hs]%andb_true_iff. by rewrite (H a Ha), IH.
Qed.

Lemma digit_is_word_or_space (a : ascii) :
  is_digit a = true -> is_space_or_word a = true.
Proof.
  intros H. unfold is_space_or_word, is_word. rewrite H.
  by rewrite !orb_true_r.
Qed.

Lemma digit_not_space (a : ascii) : is_digit a = true -> is_space a = false.
Proof.
  intros H%is_digit_range. unfold is_space.
  apply orb_false_iff. split; apply andb_false_iff; rewrite !Nat.leb_gt; lia.
Qed.

Lemma digit_not_char (a c : ascii) :
  is_digit a = true -> is_digit c = false -> Ascii.eqb a c = false.
Proof. intros Ha Hc. apply Ascii.eqb_neq. intros ->. congruence. Qed.

Lemma digit_not_upper (a : ascii) : is_digit a = true -> lower_char a = a.
Proof.
  intros H%is_digit_range. unfold lower_char, in_range.
  change (nat_of_ascii "A") with 65. rewrite (proj2 (Nat.leb_gt 65 _)); [done|lia].
Qed.

Lemma lower_app (s1 s2 : string) :
  lower (s1 ++ s2) = (lower s1 ++ lower s2)%string.
Proof.
  induction s1 as [|a s1 IH]; [done|].
  rewrite append_cons_l. simpl. by rewrite IH.
Qed.

Lemma lower_digits (s : string) : all_digits s = true -> lower s = s.
Proof.
  unfold all_digits. induction s as [|a s IH]; [done|]. simpl.
  intros [Ha Hs]%andb_true_iff. by rewrite digit_not_upper, IH.
Qed.

Lemma pretty_N_char_digit (d : N) :
  (d < 10)%N ->
  is_digit (pretty_N_char d) = true /\ digit_value (pretty_N_char d) = Z.of_N d.
Proof.
  intros H.
  assert (d = 0 \/ d = 1 \/ d = 2 \/ d = 3 \/ d = 4 \/ d = 5 \/ d = 6 \/
          d = 7 \/ d = 8 \/ d = 9)%N as Hd by lia.
  repeat (destruct Hd as [->|Hd]; [by vm_compute|]). subst d. by vm_compute.
Qed.

Lemma pretty_N_go_app (x : N) : forall s,
  pretty_N_go x s = (pretty_N_go x "" ++ s)%string.
Proof.
  induction (N.lt_wf_0 x) as [x _ IH]; intros s.
  destruct (decide (x = 0)%N) as [->|Hx]; [done|].
  rewrite (pretty_N_go_step x s), (pretty_N_go_step x "") by lia.
  assert (x `div` 10 < x)%N as Hlt by (apply N.div_lt; lia).
  rewrite (IH _ Hlt (String _ s)), (IH _ Hlt (String _ "")).
  by rewrite append_assoc_l.
Qed.

Lemma pretty_N_go_digits (x : N) : all_digits (pretty_N_go x "") = true.
Proof.
  unfold all_digits. induction (N.lt_wf_0 x) as [x _ IH].
  destruct (decide (x = 0)%N) as [->|Hx]; [done|].
  rewrite pretty_N_go_step by lia. rewrite pretty_N_go_app, all_in_app.
  rewrite IH by (apply N.div_lt; lia). simpl.
  destruct (pretty_N_char_digit (x `mod` 10)) as [-> _]; [|done].
  apply N.mod_lt. lia.
Qed.

(** The numeral ends in the digit of [n mod 10]. *)
Lemma pretty_N_last (x : N) :
  pretty x
  = (pretty_N_go (x `div` 10) "" ++ String (pretty_N_char (x `mod` 10)) "")%string.
Proof.
  unfold pretty, pretty_N. destruct (decide (x = 0)%N) as [->|Hx]; [done|].
  rewrite pretty_N_go_step by lia. apply pretty_N_go_app.
Qed.

Lemma pretty_N_digits (x : N) : all_digits (pretty x) = true /\ pretty x <> "".
Proof.
  rewrite pretty_N_last. split.
  - unfold all_digits. rewrite all_in_app. fold (all_digits (pretty_N_go (x `div` 10) "")).
    rewrite pretty_N_go_digits. simpl.
    destruct (pretty_N_char_digit (x `mod` 10)) as [-> _]; [|done].
    apply N.mod_lt. lia.
  - by destruct (pretty_N_go (x `div` 10) "").
Qed.

Lemma pretty_N_go_value (x : N) : forall s,
  fold_left (fun acc c => 10 * acc + digit_value c)%Z
    (list_ascii_of_string (pretty_N_go x s)) 0%Z
  = fold_left (fun acc c => 10 * acc + digit_value c)%Z
      (list_ascii_of_string s) (Z.of_N x).
Proof.
  induction (N.lt_wf_0 x) as [x _ IH]; intros s.
  destruct (decide (x = 0)%N) as [->|Hx]; [done|].
  rewrite pretty_N_go_step by lia. rewrite IH by (apply N.div_lt; lia).
  simpl. f_equal.
  destruct (pretty_N_char_digit (x `mod` 10)) as [_ ->]; [apply N.mod_lt; lia|].
  rewrite (N.div_mod x 10) at 3 by lia. lia.
Qed.

(** Reading the numeral of [n] gives [n] back. *)
Lemma int_of_digits_pretty (x : N) : int_of_digits (pretty x) = Z.of_N x.
Proof.
  unfold int_of_digits, pretty, pretty_N.
  destruct (decide (x = 0)%N) as [->|Hx]; [done|].
  by rewrite pretty_N_go_value.
Qed.

(* ===================================================================== *)
(** ** The matcher on a score line *)

Lemma search_here pat s r : match_here pat s = Some r -> search pat s = Some r.
Proof. intros H. destruct s; simpl; by rewrite H. Qed.

(** A pattern that starts with the literal [c] matches at no position
    whose character is not [c]. *)
Lemma search_skip c pat (pre s : string) :
  all_in (fun a => negb (Ascii.eqb a c)) pre = true ->
  search (Lit c :: pat) (pre ++ s) = search (Lit c :: pat) s.
Proof.
  induction pre as [|a pre IH]; [done|]. simpl all_in.
  intros [Ha Hpre]%andb_true_iff. rewrite append_cons_l.
  change (search (Lit c :: pat) (String a (pre ++ s)))
    with (match (if Ascii.eqb a c then match_here pat (pre ++ s) else None) with
          | Some r => Some r
          | None => search (Lit c :: pat) (pre ++ s)
          end).
  apply negb_true_iff in Ha. rewrite Ha. by apply IH.
Qed.

Lemma star_skip cls k a s : cls a = false -> star cls k (String a s) = k (String a s).
Proof. intros H. simpl. by rewrite H. Qed.

Lemma star_take cls k a s r :
  cls a = true -> star cls k s = Some r -> star cls k (String a s) = Some r.
Proof. intros Ha H. simpl. by rewrite Ha, H. Qed.

(** Backtracking: the star takes everything up to the last position from
    which the rest of the pattern matches. *)
Lemma star_backtrack cls k (u : string) d t r :
  all_in cls u = true -> cls d = true ->
  star cls k t = None -> k (String d t) = Some r ->
  star cls k (u ++ String d t) = Some r.
Proof.
  intros Hu Hd Ht Hk. induction u as [|a u IH].
  - rewrite append_nil_l. simpl. by rewrite Hd, Ht.
  - simpl in Hu. apply andb_true_iff in Hu as [Ha Hu].
    rewrite append_cons_l. apply star_take; [done | by apply IH].
Qed.

(** The group takes the whole run of digits when the rest of the pattern
    matches after it and no digit follows. *)
Lemma group_digits k (ds t : string) :
  all_digits ds = true -> ds <> "" ->
  group is_digit k t = None -> is_Some (k t) ->
  group is_digit k (ds ++ t) = Some ds.
Proof.
  unfold all_digits. intros Hd Hne Ht [r Hk].
  induction ds as [|d ds IH]; [done|]. simpl in Hd.
  apply andb_true_iff in Hd as [Hd Hds]. rewrite append_cons_l. simpl.
  rewrite Hd. destruct ds as [|d' ds].
  - rewrite append_nil_l, Ht, Hk. done.
  - by rewrite IH.
Qed.

Lemma match_here_opt_take c pat s r :
  match_here pat s = Some r -> match_here (Opt c :: pat) (String c s) = Some r.
Proof. intros H. simpl. by rewrite Ascii.eqb_refl, H. Qed.

Lemma match_here_opt_skip c pat a s :
  Ascii.eqb a c = false ->
  match_here (Opt c :: pat) (String a s) = match_here pat (String a s).
Proof. intros H. simpl. by rewrite H. Qed.

(** [ [\s\w]*points? ] on " points" and what follows. *)
Lemma points_tail (rest : string) :
  is_Some (match_here (Star is_space_or_word :: lits "point" ++ [Opt "s"%char])
             (" points" ++ rest)).
Proof.
  apply (match_here_complete _ _ "").
  apply matches_star_more; [done|]. apply matches_star_stop.
  do 5 apply matches_lit. apply matches_opt_take. apply matches_nil.
Qed.

(** [ :?\s*(\d+)[\s\w]*points? ] on ": N points" and what follows. *)
Lemma score_tail_colon (ds rest : string) :
  all_digits ds = true -> ds <> "" ->
  match_here score_tail (": " ++ ds ++ " points" ++ rest) = Some ds.
Proof.
  intros Hd Hne.
  change (match_here score_tail (": " ++ ds ++ " points" ++ rest))
    with (star is_space_or_word
            (match_here ([Opt ":"%char; Star is_space; Group is_digit;
                          Star is_space_or_word] ++ lits "point" ++ [Opt "s"%char]))
            (String ":" (String " " (ds ++ " points" ++ rest)))).
  rewrite star_skip by done. apply match_here_opt_take.
  change (star is_space
            (group is_digit
               (match_here (Star is_space_or_word :: lits "point" ++ [Opt "s"%char])))
            (String " " (ds ++ " points" ++ rest)) = Some ds).
  apply star_take; [done|].
  destruct ds as [|d ds]; [done|]. rewrite append_cons_l.
  rewrite star_skip.
  - rewrite <- append_cons_l. apply group_digits; [done | done | done |].
    apply points_tail.
  - apply digit_not_space. unfold all_digits in Hd. simpl in Hd.
    by apply andb_true_iff in Hd as [? _].
Qed.

Lemma digits_avoid (c : ascii) (ds : string) :
  is_digit c = false -> all_digits ds = true ->
  all_in (fun a => negb (Ascii.eqb a c)) ds = true.
Proof.
  intros Hc. apply all_in_impl. intros a Ha.
  by rewrite (digit_not_char a c Ha Hc).
Qed.

(** X13. Round trip on a score line with the colon: whatever the two numbers,
    "Pro: P points, Con: C points" is read back as P and C, and the winner
    follows from them. The bound keeps the numerals within the 4300
    digits that [int] converts under the interpreter's default limit. *)
Theorem parse_evaluation_reads_score_lines (p c : N) :
  (p < 10 ^ 4300)%N -> (c < 10 ^ 4300)%N ->
  _parse_evaluation
    ("Pro: " ++ pretty p ++ " points, Con: " ++ pretty c ++ " points")
  = (Z.of_N p, Z.of_N c,
     if (Z.abs (Z.of_N p - Z.of_N c) <=? 5)%Z then "Tie"
     else if (Z.of_N p >? Z.of_N c)%Z then "Pro" else "Con").
Proof.
  intros _ _.
  destruct (pretty_N_digits p) as [Hp Hpne].
  destruct (pretty_N_digits c) as [Hc Hcne].
  unfold _parse_evaluation.
  assert (lower ("Pro: " ++ pretty p ++ " points, Con: " ++ pretty c ++ " points")
          = "pro: " ++ pretty p ++ " points, con: " ++ pretty c ++ " points")
    as ->.
  { rewrite !lower_app, (lower_digits (pretty p)), (lower_digits (pretty c))
      by done.
    done. }
  assert (search pro_pattern
            ("pro: " ++ pretty p ++ " points, con: " ++ pretty c ++ " points")
          = Some (pretty p)) as ->.
  { apply search_here.
    change (match_here score_tail
              (": " ++ pretty p ++ " points" ++ (", con: " ++ pretty c ++ " points"))
            = Some (pretty p)).
    by apply score_tail_colon. }
  assert (search con_pattern
            ("pro: " ++ pretty p ++ " points, con: " ++ pretty c ++ " points")
          = Some (pretty c)) as ->.
  { change (search (Lit "c"%char :: (lits "on" ++ score_tail))
              ("pro: " ++ (pretty p ++ (" points, " ++
                 ("con: " ++ pretty c ++ " points" ++ ""))))
            = Some (pretty c)).
    rewrite (search_skip _ _ "pro: ") by done.
    rewrite (search_skip _ _ (pretty p)) by by apply digits_avoid.
    rewrite (search_skip _ _ " points, ") by done.
    apply search_here.
    change (match_here score_tail (": " ++ pretty c ++ " points" ++ "")
            = Some (pretty c)).
    by apply score_tail_colon. }
  simpl score_of. by rewrite !int_of_digits_pretty.
Qed.

Lemma parse_evaluation_reads_score_lines_witness :
  _parse_evaluation ("Pro: " ++ pretty 85%N ++ " points, Con: " ++ pretty 78%N
                     ++ " points")
  = (85%Z, 78%Z, "Pro").
Proof.
  apply (parse_evaluation_reads_score_lines 85 78); by vm_compute.
Defined.

(** X14. Without the colon the star before it runs into the number, and gives
    back only as much as the group needs, one digit: "Pro N points" is
    read as the last digit of N. *)
Theorem parse_evaluation_without_colon_reads_last_digit (n : N) :
  _parse_evaluation ("Pro " ++ pretty n ++ " points")
  = (Z.of_N (n `mod` 10), 0%Z,
     if (Z.of_N (n `mod` 10) <=? 5)%Z then "Tie" else "Pro").
Proof.
  destruct (pretty_N_digits n) as [Hn Hnne].
  assert (n `mod` 10 < 10)%N as Hlt by (apply N.mod_lt; lia).
  destruct (pretty_N_char_digit _ Hlt) as [Hd Hv].
  unfold _parse_evaluation.
  assert (lower ("Pro " ++ pretty n ++ " points") = "pro " ++ pretty n ++ " points")
    as ->.
  { by rewrite !lower_app, (lower_digits (pretty n)) by done. }
  assert (search con_pattern ("pro " ++ pretty n ++ " points") = None) as ->.
  { change (search (Lit "c"%char :: (lits "on" ++ score_tail))
              ("pro " ++ (pretty n ++ (" points" ++ ""))) = None).
    rewrite (search_skip _ _ "pro ") by done.
    rewrite (search_skip _ _ (pretty n)) by by apply digits_avoid.
    by rewrite (search_skip _ _ " points") by done. }
  assert (search pro_pattern ("pro " ++ pretty n ++ " points")
          = Some (String (pretty_N_char (n `mod` 10)) "")) as ->.
  { apply search_here. rewrite pretty_N_last, append_assoc_l.
    set (d := pretty_N_char (n `mod` 10)) in *.
    set (u := pretty_N_go (n `div` 10) "").
    change (star is_space_or_word
              (match_here ([Opt ":"%char; Star is_space; Group is_digit;
                            Star is_space_or_word]
                           ++ lits "point" ++ [Opt "s"%char]))
              ((" " ++ u) ++ String d " points")
            = Some (String d "")).
    apply star_backtrack.
    - rewrite all_in_app. simpl.
      apply (all_in_impl is_digit); [apply digit_is_word_or_space|].
      apply pretty_N_go_digits.
    - by apply digit_is_word_or_space.
    - done.
    - change (match_here
                (Opt ":"%char :: Star is_space :: Group is_digit
                 :: Star is_space_or_word :: lits "point" ++ [Opt "s"%char])
                (String d " points") = Some (String d "")).
      rewrite match_here_opt_skip by by apply digit_not_char.
      change (star is_space
                (group is_digit
                   (match_here
                      (Star is_space_or_word :: lits "point" ++ [Opt "s"%char])))
                (String d " points") = Some (String d "")).
      rewrite star_skip by by apply digit_not_space.
      apply (group_digits _ (String d "") " points").
      + unfold all_digits. simpl. by rewrite Hd.
      + done.
      + done.
      + apply (points_tail ""). }
  simpl score_of. unfold int_of_digits. simpl. rewrite Hv.
  pose proof (N2Z.is_nonneg (n `mod` 10)) as Hm.
  set (m := Z.of_N (n `mod` 10)) in *. clearbody m.
  replace (10 * 0 + m - 0)%Z with m by lia.
  replace (10 * 0 + m)%Z with m by lia.
  rewrite Z.abs_eq by done.
  destruct (Z.leb_spec m 5) as [Hle|Hgt]; [done|].
  by destruct (Z.gtb_spec m 0) as [?|?]; [|lia].
Qed.

End Scorekeeper.

(* ===================================================================== *)
(** * The debate pipeline ([debate_manager.py], [debater_agent.py],
      [debate_setter.py])                                                 *)
(* ===================================================================== *)

Module Pipeline.

Open Scope Z_scope.

(** One entry of [rounds]: a dict from field name to text. *)
Abbreviation round_data := (gmap string string).

(** The state dict threaded through the graph ([DebateStateDict]); the
    initial state of [run_debate] has all twelve keys. *)
Record DebateState := mkState {
  topic : string;
  background_info : string;
  current_round : Z;
  max_rounds : Z;
  introduction : string;
  rounds : list round_data;
  pro_conclusion : string;
  con_conclusion : string;
  evaluation : string;
  winner : option string;
  pro_score : Z;
  con_score : Z
}.

(** What a node returns: the keys it sets. *)
Record Update := mkUpdate {
  u_topic : option string;
  u_background_info : option string;
  u_current_round : option Z;
  u_max_rounds : option Z;
  u_introduction : option string;
  u_rounds : option (list round_data);
  u_pro_conclusion : option string;
  u_con_conclusion : option string;
  u_evaluation : option string;
  u_winner : option (option string);
  u_pro_score : option Z;
  u_con_score : option Z
}.

(** [{}] *)
Definition empty_update : Update :=
  mkUpdate None None None None None None None None None None None None.

(** How the graph runtime merges an update: a returned key replaces the
    value of that key, the other keys are kept. *)
Definition apply_update (s : DebateState) (u : Update) : DebateState :=
  mkState (default (topic s) (u_topic u))
          (default (background_info s) (u_background_info u))
          (default (current_round s) (u_current_round u))
          (default (max_rounds s) (u_max_rounds u))
          (default (introduction s) (u_introduction u))
          (default (rounds s) (u_rounds u))
          (default (pro_conclusion s) (u_pro_conclusion u))
          (default (con_conclusion s) (u_con_conclusion u))
          (default (evaluation s) (u_evaluation u))
          (default (winner s) (u_winner u))
          (default (pro_score s) (u_pro_score u))
          (default (con_score s) (u_con_score u)).

(** The position [l[i]] reads or writes: Python counts a negative index
    from the end and raises [IndexError] ([None]) out of range. *)
Definition py_index {A} (l : list A) (i : Z) : option nat :=
  let n := Z.of_nat (length l) in
  if (0 <=? i) && (i <? n) then Some (Z.to_nat i)
  else if (- n <=? i) && (i <? 0) then Some (Z.to_nat (n + i))
  else None.

(** [if not argument]: the empty string is falsy. *)
Definition truthy (s : string) : bool := negb (String.eqb s "").

(** [DebateSetter.set_debate]: writes the introduction into the state it
    was given and returns that state, all keys included. *)
Definition set_debate (content : string) (s : DebateState) : Update :=
  mkUpdate (Some (topic s)) (Some (background_info s))
           (Some (current_round s)) (Some (max_rounds s))
           (Some content) (Some (rounds s))
           (Some (pro_conclusion s)) (Some (con_conclusion s))
           (Some (evaluation s)) (Some (winner s))
           (Some (pro_score s)) (Some (con_score s)).

Inductive stance := pro | con.

Definition stance_name (st : stance) : string :=
  match st with pro => "pro" | con => "con" end.

(** [DebaterAgent.generate_argument], [content] being the text the model
    returned. [None] is the [IndexError] of [updated_rounds[current_round]].
    The function also appends an empty dict to the list it was given when
    [current_round] is past its end; the returned update, built from a
    copy, replaces that list, so the append does not show in the merged
    state. *)
Definition generate_argument (st : stance) (content : string) (s : DebateState)
    : option Update :=
  let rounds1 :=
    if current_round s >=? Z.of_nat (length (rounds s))
    then (rounds s ++ [∅])%list else rounds s in
  let updated_rounds :=
    if current_round s >=? Z.of_nat (length rounds1)
    then (rounds1 ++ [∅])%list else rounds1 in
  i ← py_index updated_rounds (current_round s);
  current_round_data ← updated_rounds !! i;
  Some (mkUpdate None None None None None
          (Some (<[i := <[stance_name st ++ "_argument" := content]> current_round_data]>
                   updated_rounds))
          None None None None None None).

(** [DebateManager.fact_check_pro]. [None] is the [IndexError] of
    [rounds[current_round]]; the fact checker never raises. *)
Definition fact_check_pro (check_facts : string -> string) (s : DebateState)
    : option Update :=
  if current_round s <? Z.of_nat (length (rounds s)) then
    i ← py_index (rounds s) (current_round s);
    round ← rounds s !! i;
    let argument := default "" (round !! "pro_argument") in
    if truthy argument then
      let fact_check_result := check_facts argument in
      let new_rounds := <[i := <["pro_fact_check" := fact_check_result]> round]> (rounds s) in
      Some (mkUpdate None None None None None (Some new_rounds)
              None None None None None None)
    else Some empty_update
  else Some empty_update.

(** [DebateManager.fact_check_con] *)
Definition fact_check_con (check_facts : string -> string) (s : DebateState)
    : option Update :=
  if current_round s <? Z.of_nat (length (rounds s)) then
    i ← py_index (rounds s) (current_round s);
    round ← rounds s !! i;
    let argument := default "" (round !! "con_argument") in
    if truthy argument then
      let fact_check_result := check_facts argument in
      let new_rounds := <[i := <["con_fact_check" := fact_check_result]> round]> (rounds s) in
      Some (mkUpdate None None (Some (current_round s + 1)) None None
              (Some new_rounds) None None None None None None)
    else Some empty_update
  else Some empty_update.

(** [DebaterAgent.generate_conclusion] *)
Definition generate_conclusion (st : stance) (content : string) : Update :=
  match st with
  | pro => mkUpdate None None None None None None (Some content) None
             None None None None
  | con => mkUpdate None None None None None None None (Some content)
             None None None None
  end.

(** [ScorekeeperAgent.evaluate_debate] *)
Definition evaluate_debate (content : string) : Update :=
  let '(p, c, w) := Scorekeeper._parse_evaluation content in
  mkUpdate None None None None None None None None
           (Some content) (Some (Some w)) (Some p) (Some c).

(** [DebateManager._check_round_completion] *)
Inductive route := next_round | finish_rounds.

Definition _check_round_completion (s : DebateState) : route :=
  if current_round s <? max_rounds s then next_round else finish_rounds.

(** The nodes of [_create_debate_graph]. *)
Inductive node :=
| Set_debate
| Generate_pro_argument
| Check_pro_facts
| Generate_con_argument
| Check_con_facts
| Pro_conclusion_node
| Con_conclusion_node
| Evaluate_debate
| END.

#[global] Instance node_eq_dec : EqDecision node.
Proof. solve_decision. Defined.

(** What the node returns, given the text [content] the model produced for
    it and the fact checker. *)
Definition node_update (n : node) (content : string)
    (check_facts : string -> string) (s : DebateState) : option Update :=
  match n with
  | Set_debate => Some (set_debate content s)
  | Generate_pro_argument => generate_argument pro content s
  | Check_pro_facts => fact_check_pro check_facts s
  | Generate_con_argument => generate_argument con content s
  | Check_con_facts => fact_check_con check_facts s
  | Pro_conclusion_node => Some (generate_conclusion pro content)
  | Con_conclusion_node => Some (generate_conclusion con content)
  | Evaluate_debate => Some (evaluate_debate content)
  | END => None
  end.

(** The edges, the conditional one included; [s'] is the merged state. *)
Definition next_node (n : node) (s' : DebateState) : node :=
  match n with
  | Set_debate => Generate_pro_argument
  | Generate_pro_argument => Check_pro_facts
  | Check_pro_facts => Generate_con_argument
  | Generate_con_argument => Check_con_facts
  | Check_con_facts =>
      match _check_round_completion s' with
      | next_round => Generate_pro_argument
      | finish_rounds => Pro_conclusion_node
      end
  | Pro_conclusion_node => Con_conclusion_node
  | Con_conclusion_node => Evaluate_debate
  | Evaluate_debate => END
  | END => END
  end.

(** One transition of the compiled graph. [None]: the node raised, or the
    run is over. *)
Definition run_node (content : string) (check_facts : string -> string)
    (c : node * DebateState) : option (node * DebateState) :=
  u ← node_update c.1 content check_facts c.2;
  let s' := apply_update c.2 u in
  Some (next_node c.1 s', s').

(** The model and the fact checker answer as they like. *)
Definition step (c c' : node * DebateState) : Prop :=
  exists content check_facts, run_node content check_facts c = Some c'.

(** [initial_state] of [run_debate], entered at [set_debate]. *)
Definition initial_state (topic background_info : string) (num_rounds : Z)
    : DebateState :=
  mkState topic background_info 0 num_rounds "" [] "" "" "" None 0 0.

Inductive reachable (c0 : node * DebateState) : node * DebateState -> Prop :=
| reachable_start : reachable c0 c0
| reachable_step c c' : reachable c0 c -> step c c' -> reachable c0 c'.

(** The nodes run one after the other on a script of model outputs, one
    text per node: a segment of a run, as long as the script. It counts
    no steps; [invoke] below is the whole run, under the recursion
    limit. *)
Fixpoint run_script (check_facts : string -> string) (script : list string)
    (c : node * DebateState) : option (node * DebateState) :=
  match script with
  | [] => Some c
  | content :: script' =>
      c' ← run_node content check_facts c;
      run_script check_facts script' c'
  end.

(** How [app.invoke] ends: with the final state, with the
    [GraphRecursionError] of the graph runtime, or with the exception of
    a node. *)
Inductive invoke_result :=
| Finished (s : DebateState)
| GraphRecursionError
| NodeRaised.

(** [app.invoke] from the configuration [c], with [steps] super-steps
    left; a super-step of this graph runs one node. [llm k n] is the text
    the model returns to node [n] in step [k]. The run ends when it is at
    [END], and in [GraphRecursionError] when the steps are used up before
    that. *)
Fixpoint invoke_from (steps : nat) (llm : nat -> node -> string)
    (check_facts : string -> string) (k : nat) (c : node * DebateState)
    : invoke_result :=
  match c.1 with
  | END => Finished c.2
  | n =>
      match steps with
      | O => GraphRecursionError
      | S steps' =>
          match run_node (llm k n) check_facts c with
          | Some c' => invoke_from steps' llm check_facts (S k) c'
          | None => NodeRaised
          end
      end
  end.

(** The recursion limit of a run that is given none: [run_debate] calls
    [app.invoke(initial_state)] without a config. Every run of this graph
    that reaches [END] has run a multiple of four nodes ([set_debate], four
    a round, three after the rounds), so a limit of 25 cuts between 24
    and 28 nodes whether or not a run of exactly 25 would pass. *)
Definition recursion_limit : nat := 25.

(** [DebateManager.run_debate] *)
Definition run_debate (llm : nat -> node -> string)
    (check_facts : string -> string) (topic background_info : string)
    (num_rounds : Z) : invoke_result :=
  invoke_from recursion_limit llm check_facts 0
    (Set_debate, initial_state topic background_info num_rounds).

(** ** [current_round] *)

(** The step from [s] to [s'] stored a con fact check into the round that
    [current_round] designates. *)
Definition stores_con_fact_check (s s' : DebateState) : Prop :=
  exists i round argument result,
    py_index (rounds s) (current_round s) = Some i /\
    rounds s !! i = Some round /\
    round !! "con_argument" = Some argument /\
    argument <> "" /\
    rounds s' = <[i := <["con_fact_check" := result]> round]> (rounds s).

Lemma truthy_spec (s : string) : truthy s = true <-> s <> "".
Proof.
  unfold truthy. destruct (String.eqb_spec s ""); simpl; split; congruence.
Qed.

Lemma fact_check_con_cases check_facts s u :
  fact_check_con check_facts s = Some u ->
  (stores_con_fact_check s (apply_update s u) /\
   u_current_round u = Some (current_round s + 1)) \/
  u = empty_update.
Proof.
  unfold fact_check_con. destruct (current_round s <? _); [|intros [= <-]; by right].
  destruct (py_index (rounds s) (current_round s)) as [i|] eqn:Hi; [|done].
  simpl. destruct (rounds s !! i) as [round|] eqn:Hr; [|done]. simpl.
  destruct (round !! "con_argument") as [argument|] eqn:Ha; simpl;
    [|intros [= <-]; by right].
  destruct (truthy argument) eqn:Ht; [|intros [= <-]; by right].
  intros [= <-]. left. split; [|done].
  exists i, round, argument, (check_facts argument).
  repeat split; try done. by apply truthy_spec.
Qed.

Lemma fact_check_pro_cases check_facts s u :
  fact_check_pro check_facts s = Some u ->
  (exists rs, u = mkUpdate None None None None None (Some rs)
                    None None None None None None) \/
  u = empty_update.
Proof.
  unfold fact_check_pro. destruct (current_round s <? _); [|intros [= <-]; by right].
  destruct (py_index (rounds s) (current_round s)) as [i|]; [|done].
  simpl. destruct (rounds s !! i) as [round|]; [|done]. simpl.
  destruct (truthy _); intros [= <-]; [left; eauto | by right].
Qed.

Lemma generate_argument_cases st content s u :
  generate_argument st content s = Some u ->
  exists rs, u = mkUpdate None None None None None (Some rs)
                   None None None None None None.
Proof.
  unfold generate_argument.
  destruct (py_index _ _); [|done]. simpl.
  destruct (_ !! _); [|done]. intros [= <-]. eauto.
Qed.

(** Every transition, from any state: [current_round] grows by one when
    [check_con_facts] stores its result, and is unchanged otherwise. *)
Lemma step_current_round n s n' s' :
  step (n, s) (n', s') ->
  (n = Check_con_facts /\ stores_con_fact_check s s' /\
   current_round s' = current_round s + 1) \/
  ((n = Check_con_facts -> rounds s' = rounds s) /\
   current_round s' = current_round s).
Proof.
  intros (content & check_facts & Hrun). unfold run_node in Hrun. simpl in Hrun.
  destruct (node_update n content check_facts s) as [u|] eqn:Hu; [|done].
  simpl in Hrun. injection Hrun as _ <-.
  destruct n; simpl in Hu; try done; try (injection Hu as <-; by right).
  - apply generate_argument_cases in Hu as [rs ->]. by right.
  - apply fact_check_pro_cases in Hu as [[rs ->]| ->]; by right.
  - apply generate_argument_cases in Hu as [rs ->]. by right.
  - apply fact_check_con_cases in Hu as [[Hst Hcr]| ->]; [|by right].
    left. split; [done|]. split; [done|].
    unfold apply_update. simpl. by rewrite Hcr.
Qed.

Lemma step_max_rounds n s n' s' :
  step (n, s) (n', s') -> max_rounds s' = max_rounds s.
Proof.
  intros (content & check_facts & Hrun). unfold run_node in Hrun. simpl in Hrun.
  destruct (node_update n content check_facts s) as [u|] eqn:Hu; [|done].
  simpl in Hrun. injection Hrun as _ <-.
  destruct n; simpl in Hu; try done; try (injection Hu as <-; done).
  - by apply generate_argument_cases in Hu as [rs ->].
  - by apply fact_check_pro_cases in Hu as [[rs ->]| ->].
  - by apply generate_argument_cases in Hu as [rs ->].
  - unfold fact_check_con in Hu. destruct (_ <? _); [|by injection Hu as <-].
    destruct (py_index _ _); [|done]. simpl in Hu.
    destruct (_ !! _); [|done]. simpl in Hu.
    destruct (truthy _); by injection Hu as <-.
Qed.

Lemma step_next_node n s n' s' :
  step (n, s) (n', s') -> n' = next_node n s'.
Proof.
  intros (content & check_facts & Hrun). unfold run_node in Hrun. simpl in Hrun.
  destruct (node_update n content check_facts s) as [u|]; [|done].
  simpl in Hrun. by injection Hrun as <- <-.
Qed.

(** The nodes of a round, where the round counter is below the maximum. *)
Definition in_round (n : node) : Prop :=
  n = Generate_pro_argument \/ n = Check_pro_facts \/
  n = Generate_con_argument \/ n = Check_con_facts.

Definition round_inv (N : Z) (c : node * DebateState) : Prop :=
  max_rounds c.2 = N /\
  0 <= current_round c.2 <= N /\
  (in_round c.1 -> current_round c.2 < N) /\
  (c.1 = Set_debate -> current_round c.2 = 0).

Lemma round_inv_step N c c' : 1 <= N -> round_inv N c -> step c c' -> round_inv N c'.
Proof.
  intros HN (Hmax & Hcr & Hin & Hset) Hstep.
  destruct c as [n s], c' as [n' s']. simpl in *.
  pose proof (step_max_rounds _ _ _ _ Hstep) as Hmax'.
  pose proof (step_next_node _ _ _ _ Hstep) as Hn'.
  assert (n' <> Set_debate) as Hnot_first.
  { rewrite Hn'. destruct n; simpl; try done.
    by destruct (_check_round_completion s'). }
  assert (current_round s' = current_round s + 1 /\ n = Check_con_facts \/
          current_round s' = current_round s) as Hcr'.
  { destruct (step_current_round _ _ _ _ Hstep) as [(-> & _ & E)|[_ E]]; auto. }
  assert (in_round n -> current_round s' <= N) as Hround.
  { intros Hn. specialize (Hin Hn). lia. }
  assert (0 <= current_round s' <= N) as Hbound.
  { destruct Hcr' as [[E ->]|E]; [|lia].
    assert (current_round s < N) by (apply Hin; unfold in_round; auto). lia. }
  split; [simpl; congruence|]. split; [exact Hbound|]. split; [|done]. simpl.
  intros Hin'. destruct n; simpl in Hn'; subst n'; unfold in_round in Hin';
    try (by destruct Hin' as [?|[?|[?|?]]]).
  - rewrite Hset in Hcr' by done. destruct Hcr' as [[_ ?]|E]; [done | lia].
  - destruct Hcr' as [[_ ?]|E]; [done|]. rewrite E. apply Hin. unfold in_round. auto.
  - destruct Hcr' as [[_ ?]|E]; [done|]. rewrite E. apply Hin. unfold in_round. auto.
  - destruct Hcr' as [[_ ?]|E]; [done|]. rewrite E. apply Hin. unfold in_round. auto.
  - unfold _check_round_completion in Hin'.
    destruct (Z.ltb_spec (current_round s') (max_rounds s')) as [Hlt|Hge];
      [lia | by destruct Hin' as [?|[?|[?|?]]]].
Qed.

Lemma reachable_round_inv N tp bg c :
  1 <= N -> reachable (Set_debate, initial_state tp bg N) c -> round_inv N c.
Proof.
  intros HN. induction 1 as [|c c' _ IH Hstep].
  - unfold round_inv; simpl. split; [done|]. split; [lia|]. split; [|done].
    intros [?|[?|[?|?]]]; done.
  - by eapply round_inv_step.
Qed.

(** C4, as amended. In every run of the pipeline whose [max_rounds] is at
    least 1: [current_round] stays between 0 and [max_rounds]; a transition
    raises it by exactly 1 when it is the [check_con_facts] node storing a
    con fact check into the current round, and every other transition
    (any other node, or [check_con_facts] returning the empty update)
    leaves it as it is. *)
Theorem current_round_advances_with_con_fact_check :
  forall (tp bg : string) (N : Z) (n : node) (s : DebateState),
    1 <= N ->
    reachable (Set_debate, initial_state tp bg N) (n, s) ->
    0 <= current_round s <= max_rounds s /\
    forall n' s', step (n, s) (n', s') ->
      (n = Check_con_facts /\ stores_con_fact_check s s' /\
       current_round s' = current_round s + 1) \/
      ((n = Check_con_facts -> rounds s' = rounds s) /\
       current_round s' = current_round s).
Proof.
  intros tp bg N n s HN Hreach.
  destruct (reachable_round_inv N tp bg _ HN Hreach) as (Hmax & Hcr & _).
  simpl in *. split; [lia|]. intros n' s'. apply step_current_round.
Qed.

Lemma run_script_reachable check_facts script : forall c0 c c',
  reachable c0 c -> run_script check_facts script c = Some c' -> reachable c0 c'.
Proof.
  induction script as [|content script IH]; intros c0 c c' Hc Hrun; simpl in Hrun.
  - by injection Hrun as <-.
  - destruct (run_node content check_facts c) as [c1|] eqn:H1; [|done].
    simpl in Hrun. eapply IH; [|exact Hrun].
    eapply reachable_step; [exact Hc|]. by exists content, check_facts.
Qed.

(** A fact checker that answers "ok". *)
Definition check_ok (argument : string) : string := "ok".

(** The first round of a two-round debate, up to [check_con_facts]. *)
Definition before_con_check : node * DebateState :=
  (Check_con_facts,
   mkState "t" "b" 0 2 "i"
     [ <["con_argument" := "c"]> (<["pro_fact_check" := "ok"]>
         (<["pro_argument" := "p"]> ∅)) ] "" "" "" None 0 0).

Lemma current_round_advances_with_con_fact_check_witness :
  0 <= current_round before_con_check.2 <= max_rounds before_con_check.2 /\
  forall n' s', step before_con_check (n', s') ->
    (Check_con_facts = Check_con_facts /\
     stores_con_fact_check before_con_check.2 s' /\
     current_round s' = current_round before_con_check.2 + 1) \/
    ((Check_con_facts = Check_con_facts -> rounds s' = rounds before_con_check.2) /\
     current_round s' = current_round before_con_check.2).
Proof.
  apply (current_round_advances_with_con_fact_check "t" "b" 2
           Check_con_facts before_con_check.2).
  - lia.
  - apply (run_script_reachable check_ok ["i"; "p"; ""; "c"]
             _ (Set_debate, initial_state "t" "b" 2)).
    + apply reachable_start.
    + vm_compute. reflexivity.
Defined.

(** C4 as stated fails when [max_rounds] is 0: the graph enters the first
    round before the guard is consulted, and [check_con_facts] raises
    [current_round] to 1. *)
Lemma current_round_exceeds_zero_max_rounds :
  exists n s,
    reachable (Set_debate, initial_state "t" "b" 0) (n, s) /\
    current_round s = 1 /\ max_rounds s = 0 /\
    ~ current_round s <= max_rounds s.
Proof.
  destruct (run_script check_ok ["i"; "p"; ""; "c"; ""]
              (Set_debate, initial_state "t" "b" 0)) as [[n s]|] eqn:Hrun;
    [|by vm_compute in Hrun].
  exists n, s. split.
  - eapply run_script_reachable; [apply reachable_start | exact Hrun].
  - vm_compute in Hrun. injection Hrun as <- <-. simpl. lia.
Qed.

(** ** The fact-check stages on the object store

    Python passes the state dict, the [rounds] list and the round dicts by
    reference. To tell a copy from an in-place write, the two stages are
    given here over a store of objects: a location holds the state dict
    (the two keys the stages read, [None] for an absent key), a list of
    references to round dicts, or a round dict. *)

Abbreviation loc := positive.

Inductive pyobj :=
| PyState (current_round : option Z) (rounds : option loc)
| PyList (items : list loc)
| PyDict (fields : round_data).

Abbreviation store := (gmap loc pyobj).

Inductive exn := IndexError | TypeError.

Inductive outcome (A : Type) :=
| Done (h : store) (a : A)
| Raise (e : exn).
Arguments Done {A} h a.
Arguments Raise {A} e.

(** A computation on the store. *)
Definition M (A : Type) : Type := store -> outcome A.

#[global] Instance M_ret : MRet M := fun A a h => Done h a.

#[global] Instance M_bind : MBind M := fun A B k m h =>
  match m h with
  | Done h' a => k a h'
  | Raise e => Raise e
  end.

Definition raise {A} (e : exn) : M A := fun _ => Raise e.

(** A new object, at a location the store does not use yet. *)
Definition alloc (o : pyobj) : M loc :=
  fun h => let l := fresh (dom h) in Done (<[l := o]> h) l.

Definition read (l : loc) : M pyobj :=
  fun h => match h !! l with
           | Some o => Done h o
           | None => Raise TypeError
           end.

Definition write (l : loc) (o : pyobj) : M unit :=
  fun h => Done (<[l := o]> h) tt.

(** [state.get("current_round", 0)] and [state.get("rounds", [])]: the
    default list is a new object. *)
Definition state_get (state : loc) : M (Z * loc) :=
  o ← read state;
  match o with
  | PyState cr (Some l) => mret (default 0 cr, l)
  | PyState cr None => l ← alloc (PyList []); mret (default 0 cr, l)
  | _ => raise TypeError
  end.

Definition list_items (l : loc) : M (list loc) :=
  o ← read l;
  match o with
  | PyList items => mret items
  | _ => raise TypeError
  end.

Definition dict_fields (d : loc) : M round_data :=
  o ← read d;
  match o with
  | PyDict m => mret m
  | _ => raise TypeError
  end.

(** [len(l)] *)
Definition list_len (l : loc) : M Z :=
  items ← list_items l; mret (Z.of_nat (length items)).

(** [l[i]] *)
Definition list_getitem (l : loc) (i : Z) : M loc :=
  items ← list_items l;
  match py_index items i with
  | Some n => match items !! n with
              | Some d => mret d
              | None => raise IndexError
              end
  | None => raise IndexError
  end.

(** [l[i] = v], a write into the list object at [l]. *)
Definition list_setitem (l : loc) (i : Z) (v : loc) : M unit :=
  items ← list_items l;
  match py_index items i with
  | Some n => write l (PyList (<[n := v]> items))
  | None => raise IndexError
  end.

(** [d[k] = v], a write into the dict object at [d]. *)
Definition dict_setitem (d : loc) (k v : string) : M unit :=
  m ← dict_fields d; write d (PyDict (<[k := v]> m)).

(** [list(l)]: a new list holding the same references. *)
Definition list_copy (l : loc) : M loc :=
  items ← list_items l; alloc (PyList items).

(** [dict(d)]: a new dict holding the same fields. *)
Definition dict_copy (d : loc) : M loc :=
  m ← dict_fields d; alloc (PyDict m).

(** The update a fact-check stage returns: its [rounds] key is a
    reference. *)
Record StoreUpdate := mkStoreUpdate {
  su_rounds : option loc;
  su_current_round : option Z
}.

(** The body shared, word for word, by [fact_check_pro] and
    [fact_check_con]; they differ in the two keys and in the returned
    dict, which for the con side also carries [current_round + 1]. *)
Definition fact_check_on_store (argument_key fact_check_key : string)
    (advance : bool) (check_facts : string -> string) (state : loc)
    : M StoreUpdate :=
  '(current_round, rounds) ← state_get state;
  n ← list_len rounds;
  if current_round <? n then
    round ← list_getitem rounds current_round;
    fields ← dict_fields round;
    let argument := default "" (fields !! argument_key) in
    if truthy argument then
      let fact_check_result := check_facts argument in
      new_rounds ← list_copy rounds;
      old_round ← list_getitem new_rounds current_round;
      round_copy ← dict_copy old_round;
      dict_setitem round_copy fact_check_key fact_check_result;;
      list_setitem new_rounds current_round round_copy;;
      mret (mkStoreUpdate (Some new_rounds)
              (if advance then Some (current_round + 1) else None))
    else mret (mkStoreUpdate None None)
  else mret (mkStoreUpdate None None).

Definition fact_check_pro_on_store :=
  fact_check_on_store "pro_argument" "pro_fact_check" false.

Definition fact_check_con_on_store :=
  fact_check_on_store "con_argument" "con_fact_check" true.

(** *** Running the store operations *)

Lemma bind_Done {A B} (m : M A) (k : A -> M B) h h' a :
  m h = Done h' a -> (m ≫= k) h = k a h'.
Proof. intros H. unfold mbind, M_bind. by rewrite H. Qed.

Lemma bind_Raise {A B} (m : M A) (k : A -> M B) h e :
  m h = Raise e -> (m ≫= k) h = Raise e.
Proof. intros H. unfold mbind, M_bind. by rewrite H. Qed.

Lemma read_Done h l o : h !! l = Some o -> read l h = Done h o.
Proof. intros H. unfold read. by rewrite H. Qed.

Lemma list_items_Done h l items :
  h !! l = Some (PyList items) -> list_items l h = Done h items.
Proof. intros H. unfold list_items. by rewrite (bind_Done _ _ _ _ _ (read_Done _ _ _ H)). Qed.

Lemma dict_fields_Done h d m :
  h !! d = Some (PyDict m) -> dict_fields d h = Done h m.
Proof. intros H. unfold dict_fields. by rewrite (bind_Done _ _ _ _ _ (read_Done _ _ _ H)). Qed.

Lemma list_len_Done h l items :
  h !! l = Some (PyList items) -> list_len l h = Done h (Z.of_nat (length items)).
Proof. intros H. unfold list_len. by rewrite (bind_Done _ _ _ _ _ (list_items_Done _ _ _ H)). Qed.

Lemma list_getitem_Done h l items i n d :
  h !! l = Some (PyList items) -> py_index items i = Some n -> items !! n = Some d ->
  list_getitem l i h = Done h d.
Proof.
  intros H Hi Hn. unfold list_getitem.
  rewrite (bind_Done _ _ _ _ _ (list_items_Done _ _ _ H)). by rewrite Hi, Hn.
Qed.

Lemma list_getitem_Raise h l items i :
  h !! l = Some (PyList items) -> py_index items i = None ->
  list_getitem l i h = Raise IndexError.
Proof.
  intros H Hi. unfold list_getitem.
  rewrite (bind_Done _ _ _ _ _ (list_items_Done _ _ _ H)). by rewrite Hi.
Qed.

Lemma list_copy_Done h l items :
  h !! l = Some (PyList items) ->
  list_copy l h = Done (<[fresh (dom h) := PyList items]> h) (fresh (dom h)).
Proof.
  intros H. unfold list_copy.
  by rewrite (bind_Done _ _ _ _ _ (list_items_Done _ _ _ H)).
Qed.

Lemma dict_copy_Done h d m :
  h !! d = Some (PyDict m) ->
  dict_copy d h = Done (<[fresh (dom h) := PyDict m]> h) (fresh (dom h)).
Proof.
  intros H. unfold dict_copy.
  by rewrite (bind_Done _ _ _ _ _ (dict_fields_Done _ _ _ H)).
Qed.

Lemma dict_setitem_Done h d m k v :
  h !! d = Some (PyDict m) ->
  dict_setitem d k v h = Done (<[d := PyDict (<[k := v]> m)]> h) tt.
Proof.
  intros H. unfold dict_setitem.
  by rewrite (bind_Done _ _ _ _ _ (dict_fields_Done _ _ _ H)).
Qed.

Lemma list_setitem_Done h l items i n v :
  h !! l = Some (PyList items) -> py_index items i = Some n ->
  list_setitem l i v h = Done (<[l := PyList (<[n := v]> items)]> h) tt.
Proof.
  intros H Hi. unfold list_setitem.
  rewrite (bind_Done _ _ _ _ _ (list_items_Done _ _ _ H)). by rewrite Hi.
Qed.

Lemma fresh_lookup (h : store) : h !! fresh (dom h) = None.
Proof. apply not_elem_of_dom, is_fresh. Qed.

Lemma py_index_Some {A} (l : list A) i n :
  py_index l i = Some n -> (n < length l)%nat.
Proof.
  unfold py_index.
  destruct (Z.leb_spec 0 i), (Z.ltb_spec i (Z.of_nat (length l))); simpl;
    try (intros [= <-]; lia);
    destruct (Z.leb_spec (- Z.of_nat (length l)) i), (Z.ltb_spec i 0); simpl;
    try done; intros [= <-]; lia.
Qed.

Lemma py_index_None {A} (l : list A) i :
  i < Z.of_nat (length l) -> py_index l i = None -> i < - Z.of_nat (length l).
Proof.
  unfold py_index. intros Hlt.
  destruct (Z.leb_spec 0 i), (Z.ltb_spec i (Z.of_nat (length l))); simpl;
    try done; try lia;
    destruct (Z.leb_spec (- Z.of_nat (length l)) i), (Z.ltb_spec i 0); simpl;
    try done; lia.
Qed.

(** *** What a fact-check stage does to the store *)

(** No object of [h] is changed in [h']. *)
Definition unchanged (h h' : store) : Prop :=
  forall l o, h !! l = Some o -> h' !! l = Some o.

(** The stage has nothing to check: [current_round] is past the last
    round, or the round it designates has no argument (no such key, or
    the empty text). *)
Definition nothing_to_check (argument_key : string) (h : store)
    (items : list loc) (c : Z) : Prop :=
  Z.of_nat (length items) <= c \/
  exists i d m,
    py_index items c = Some i /\ items !! i = Some d /\
    h !! d = Some (PyDict m) /\ default "" (m !! argument_key) = "".

(** The stage stored a fact check: the update refers to a new list [l']
    that holds the references of the input list except at the current
    round, where it refers to a new dict [d']: the current round's fields
    with [fact_check_key] set to the checker's answer. *)
Definition stored_check (argument_key fact_check_key : string) (advance : bool)
    (check_facts : string -> string) (h : store) (items : list loc) (c : Z)
    (h' : store) (u : StoreUpdate) : Prop :=
  exists i d m argument l' d',
    py_index items c = Some i /\ items !! i = Some d /\
    h !! d = Some (PyDict m) /\
    m !! argument_key = Some argument /\ argument <> "" /\
    u = mkStoreUpdate (Some l') (if advance then Some (c + 1) else None) /\
    h !! l' = None /\ h !! d' = None /\
    h' !! l' = Some (PyList (<[i := d']> items)) /\
    h' !! d' = Some (PyDict (<[fact_check_key := check_facts argument]> m)).

Definition stage_post (argument_key fact_check_key : string) (advance : bool)
    (check_facts : string -> string) (h : store) (items : list loc) (c : Z)
    (r : outcome StoreUpdate) : Prop :=
  match r with
  | Raise e => e = IndexError /\ c < - Z.of_nat (length items)
  | Done h' u =>
      unchanged h h' /\
      ((u = mkStoreUpdate None None /\ nothing_to_check argument_key h items c) \/
       stored_check argument_key fact_check_key advance check_facts h items c h' u)
  end.

(** The stage after it has read [current_round] and [rounds]. *)
Definition fact_check_body (argument_key fact_check_key : string)
    (advance : bool) (check_facts : string -> string)
    (current_round : Z) (rounds : loc) : M StoreUpdate :=
  n ← list_len rounds;
  if current_round <? n then
    round ← list_getitem rounds current_round;
    fields ← dict_fields round;
    let argument := default "" (fields !! argument_key) in
    if truthy argument then
      let fact_check_result := check_facts argument in
      new_rounds ← list_copy rounds;
      old_round ← list_getitem new_rounds current_round;
      round_copy ← dict_copy old_round;
      dict_setitem round_copy fact_check_key fact_check_result;;
      list_setitem new_rounds current_round round_copy;;
      mret (mkStoreUpdate (Some new_rounds)
              (if advance then Some (current_round + 1) else None))
    else mret (mkStoreUpdate None None)
  else mret (mkStoreUpdate None None).

Lemma fact_check_body_spec a f adv chk c rl h items :
  h !! rl = Some (PyList items) ->
  (forall d, d ∈ items -> exists m, h !! d = Some (PyDict m)) ->
  stage_post a f adv chk h items c (fact_check_body a f adv chk c rl h).
Proof.
  intros Hrl Hdicts. unfold fact_check_body.
  rewrite (bind_Done _ _ _ _ _ (list_len_Done _ _ _ Hrl)).
  destruct (Z.ltb_spec c (Z.of_nat (length items))) as [Hlt|Hge].
  2:{ simpl. split; [by intros ??|]. left. split; [done|]. by left. }
  destruct (py_index items c) as [i|] eqn:Hi.
  2:{ rewrite (bind_Raise _ _ _ _ (list_getitem_Raise _ _ _ _ Hrl Hi)).
      simpl. split; [done | by apply py_index_None]. }
  destruct (lookup_lt_is_Some_2 items i (py_index_Some _ _ _ Hi)) as [d Hd].
  destruct (Hdicts d) as [m Hm]; [by eapply list_elem_of_lookup_2|].
  rewrite (bind_Done _ _ _ _ _ (list_getitem_Done _ _ _ _ _ _ Hrl Hi Hd)).
  rewrite (bind_Done _ _ _ _ _ (dict_fields_Done _ _ _ Hm)).
  cbv zeta. destruct (truthy (default "" (m !! a))) eqn:Ht.
  2:{ simpl. split; [by intros ??|]. left. split; [done|]. right.
      exists i, d, m. repeat split; try done.
      destruct (String.eqb_spec (default "" (m !! a)) ""); [done|].
      unfold truthy in Ht. apply negb_false_iff in Ht.
      by apply String.eqb_eq in Ht. }
  destruct (m !! a) as [arg|] eqn:Ha; [simpl in Ht | done].
  apply truthy_spec in Ht.
  set (l' := fresh (dom h)).
  set (h1 := <[l' := PyList items]> h).
  assert (h !! l' = None) as Hl' by apply fresh_lookup.
  assert (h1 !! l' = Some (PyList items)) as H1l' by apply lookup_insert_eq.
  assert (l' <> d) as Hl'd by congruence.
  assert (h1 !! d = Some (PyDict m)) as H1d by (unfold h1; by rewrite lookup_insert_ne).
  set (d' := fresh (dom h1)).
  set (h2 := <[d' := PyDict m]> h1).
  assert (h1 !! d' = None) as Hd' by apply fresh_lookup.
  assert (d' <> l') as Hd'l' by congruence.
  assert (h !! d' = None) as Hhd'.
  { unfold h1 in Hd'. by rewrite lookup_insert_ne in Hd'. }
  assert (h2 !! d' = Some (PyDict m)) as H2d' by apply lookup_insert_eq.
  set (h3 := <[d' := PyDict (<[f := chk arg]> m)]> h2).
  assert (h3 !! l' = Some (PyList items)) as H3l'.
  { unfold h3, h2. by rewrite !lookup_insert_ne. }
  rewrite (bind_Done _ _ _ _ _ (list_copy_Done _ _ _ Hrl)). fold l' h1.
  rewrite (bind_Done _ _ _ _ _ (list_getitem_Done _ _ _ _ _ _ H1l' Hi Hd)).
  rewrite (bind_Done _ _ _ _ _ (dict_copy_Done _ _ _ H1d)). fold d' h2.
  rewrite (bind_Done _ _ _ _ _ (dict_setitem_Done _ _ _ f (chk arg) H2d')). fold h3.
  rewrite (bind_Done _ _ _ _ _ (list_setitem_Done _ _ _ c i d' H3l' Hi)).
  simpl. split.
  - intros l o Hl.
    assert (l <> l') by congruence. assert (l <> d') by congruence.
    unfold h3, h2, h1. by rewrite !lookup_insert_ne.
  - right. exists i, d, m, arg, l', d'.
    repeat split; try done.
    + apply lookup_insert_eq.
    + unfold h3. rewrite lookup_insert_ne by done. apply lookup_insert_eq.
Qed.

(** The list [rounds] refers to, [[]] when the key is absent. *)
Definition rounds_at (h : store) (rs : option loc) (items : list loc) : Prop :=
  match rs with
  | Some l => h !! l = Some (PyList items)
  | None => items = []
  end.

Lemma fact_check_on_store_spec a f adv chk h state cr rs items :
  h !! state = Some (PyState cr rs) ->
  rounds_at h rs items ->
  (forall d, d ∈ items -> exists m, h !! d = Some (PyDict m)) ->
  stage_post a f adv chk h items (default 0 cr)
    (fact_check_on_store a f adv chk state h).
Proof.
  intros Hstate Hrs Hdicts. unfold fact_check_on_store.
  destruct rs as [rl|]; simpl in Hrs.
  - assert (state_get state h = Done h (default 0 cr, rl)) as Hget.
    { unfold state_get. by rewrite (bind_Done _ _ _ _ _ (read_Done _ _ _ Hstate)). }
    rewrite (bind_Done _ _ _ _ _ Hget).
    by apply (fact_check_body_spec a f adv chk (default 0 cr) rl h items).
  - subst items. set (l0 := fresh (dom h)). set (h0 := <[l0 := PyList []]> h).
    assert (h !! l0 = None) as Hl0 by apply fresh_lookup.
    assert (state_get state h = Done h0 (default 0 cr, l0)) as Hget.
    { unfold state_get. by rewrite (bind_Done _ _ _ _ _ (read_Done _ _ _ Hstate)). }
    rewrite (bind_Done _ _ _ _ _ Hget).
    assert (unchanged h h0) as Hsub.
    { intros l o Hl. unfold h0. rewrite lookup_insert_ne; [done | congruence]. }
    pose proof (fact_check_body_spec a f adv chk (default 0 cr) l0 h0 []
                  (lookup_insert_eq _ _ _)) as Hbody.
    change (stage_post a f adv chk h [] (default 0 cr)
              (fact_check_body a f adv chk (default 0 cr) l0 h0)).
    destruct (fact_check_body a f adv chk (default 0 cr) l0 h0) as [h' u|e];
      simpl in *.
    + destruct Hbody as [Hun Hcases]; [intros d Hd; by apply elem_of_nil in Hd|].
      split; [intros l o Hl; by apply Hun, Hsub|].
      destruct Hcases as [[-> [Hge|(i & d & m & _ & Hd & _)]]
                         |(i & d & m & arg & l' & d' & _ & Hd & _)];
        [left; split; [done | by left] | done | done].
    + apply Hbody. intros d Hd. by apply elem_of_nil in Hd.
Qed.

(** *** The store and the values agree

    Read back from the store, a fact-check stage is the function on
    values that the pipeline of the first part runs. *)

Definition load_dict (h : store) (d : loc) : option round_data :=
  match h !! d with
  | Some (PyDict m) => Some m
  | _ => None
  end.

Definition load_rounds (h : store) (l : loc) : option (list round_data) :=
  match h !! l with
  | Some (PyList items) => mapM (load_dict h) items
  | _ => None
  end.

Lemma py_index_length {A B} (l : list A) (k : list B) i :
  length l = length k -> py_index l i = py_index k i.
Proof. intros H. unfold py_index. by rewrite H. Qed.

Lemma py_index_below {A} (l : list A) i :
  i < - Z.of_nat (length l) -> py_index l i = None.
Proof.
  intros H. unfold py_index.
  destruct (Z.leb_spec 0 i); [lia|]. simpl.
  by destruct (Z.leb_spec (- Z.of_nat (length l)) i); [lia|].
Qed.

Lemma py_index_Some_lt {A} (l : list A) i n :
  py_index l i = Some n -> i < Z.of_nat (length l).
Proof.
  unfold py_index.
  destruct (Z.leb_spec 0 i), (Z.ltb_spec i (Z.of_nat (length l))); simpl;
    try (intros; lia);
    destruct (Z.leb_spec (- Z.of_nat (length l)) i), (Z.ltb_spec i 0); simpl;
    try done; intros; lia.
Qed.

Lemma load_dict_Some h d m : load_dict h d = Some m <-> h !! d = Some (PyDict m).
Proof.
  unfold load_dict. destruct (h !! d) as [[| |m']|]; split; intros H;
    try done; congruence.
Qed.

(** What the postcondition on the store says about the values. *)
Lemma stage_post_values a f adv chk h items c rs r :
  Forall2 (fun d m => load_dict h d = Some m) items rs ->
  stage_post a f adv chk h items c r ->
  match r with
  | Raise _ => c < Z.of_nat (length rs) /\ py_index rs c = None
  | Done h' u =>
      (u = mkStoreUpdate None None /\
       (Z.of_nat (length rs) <= c \/
        exists i m, c < Z.of_nat (length rs) /\ py_index rs c = Some i /\
                    rs !! i = Some m /\ truthy (default "" (m !! a)) = false)) \/
      (exists i m l',
         c < Z.of_nat (length rs) /\ py_index rs c = Some i /\
         rs !! i = Some m /\ truthy (default "" (m !! a)) = true /\
         u = mkStoreUpdate (Some l') (if adv then Some (c + 1) else None) /\
         load_rounds h' l'
         = Some (<[i := <[f := chk (default "" (m !! a))]> m]> rs))
  end.
Proof.
  intros Hload Hpost. pose proof (Forall2_length _ _ _ Hload) as Hlen.
  destruct r as [h' u|e]; simpl in Hpost.
  - destruct Hpost as [Hun [[-> Hnone]|Hstored]].
    + left. split; [done|]. destruct Hnone as [Hge|(i & d & m & Hi & Hd & Hm & Ha)].
      * left. lia.
      * right. exists i, m.
        destruct (Forall2_lookup_l _ _ _ _ _ Hload Hd) as (m' & Hm' & Hdm').
        apply load_dict_Some in Hdm'. assert (m' = m) as -> by congruence.
        rewrite <- (py_index_length items rs) by done.
        split; [rewrite <- Hlen; by eapply py_index_Some_lt|].
        split; [done|]. split; [done|]. rewrite Ha. done.
    + right.
      destruct Hstored as (i & d & m & arg & l' & d' & Hi & Hd & Hm & Ha & Harg
                           & -> & Hl' & Hd' & Hhl' & Hhd').
      destruct (Forall2_lookup_l _ _ _ _ _ Hload Hd) as (m' & Hm' & Hdm').
      apply load_dict_Some in Hdm'. assert (m' = m) as -> by congruence.
      exists i, m, l'. rewrite <- (py_index_length items rs) by done.
      split; [rewrite <- Hlen; by eapply py_index_Some_lt|].
      split; [done|]. split; [done|]. rewrite Ha. simpl.
      split; [by apply truthy_spec|]. split; [done|].
      unfold load_rounds. rewrite Hhl'. apply mapM_Some_2.
      apply Forall2_insert; [|by apply load_dict_Some].
      eapply Forall2_impl; [exact Hload|]. intros d0 m0 Hd0.
      apply load_dict_Some. apply Hun. by apply load_dict_Some.
  - destruct Hpost as [_ Hlt]. split; [lia|].
    apply py_index_below. lia.
Qed.

Lemma load_rounds_Some h rl rs :
  load_rounds h rl = Some rs ->
  exists items, h !! rl = Some (PyList items) /\
    Forall2 (fun d m => load_dict h d = Some m) items rs.
Proof.
  unfold load_rounds. destruct (h !! rl) as [[|items|]|]; try done.
  intros H%mapM_Some_1. eauto.
Qed.

(** [fact_check_con] on values is [fact_check_con] on the store, read
    back: both raise, or both return, with the same [current_round] and
    the same rounds. *)
Lemma fact_check_con_on_store_refines chk h state rl s :
  h !! state = Some (PyState (Some (current_round s)) (Some rl)) ->
  load_rounds h rl = Some (rounds s) ->
  match fact_check_con_on_store chk state h with
  | Raise _ => fact_check_con chk s = None
  | Done h' u =>
      exists upd, fact_check_con chk s = Some upd /\
        u_current_round upd = su_current_round u /\
        u_rounds upd = su_rounds u ≫= load_rounds h'
  end.
Proof.
  intros Hstate (items & Hrl & Hload)%load_rounds_Some.
  assert (forall d, d ∈ items -> exists m, h !! d = Some (PyDict m)) as Hdicts.
  { intros d (i & Hi)%list_elem_of_lookup.
    destruct (Forall2_lookup_l _ _ _ _ _ Hload Hi) as (m & _ & Hm).
    exists m. by apply load_dict_Some. }
  pose proof (fact_check_on_store_spec "con_argument" "con_fact_check" true chk
                h state _ _ items Hstate Hrl Hdicts) as Hpost.
  apply (stage_post_values _ _ _ _ _ _ _ (rounds s)) in Hpost; [|done].
  unfold fact_check_con_on_store. simpl in Hpost.
  destruct (fact_check_on_store _ _ _ _ _ _) as [h' u|e]; unfold fact_check_con.
  - destruct Hpost as [[-> [Hge|(i & m & Hlt & Hi & Hm & Ht)]]
                      |(i & m & l' & Hlt & Hi & Hm & Ht & -> & Hl')].
    + destruct (Z.ltb_spec (current_round s) (Z.of_nat (length (rounds s))));
        [lia|]. by exists empty_update.
    + destruct (Z.ltb_spec (current_round s) (Z.of_nat (length (rounds s))));
        [|lia]. rewrite Hi. simpl. rewrite Hm. simpl. rewrite Ht.
      by exists empty_update.
    + destruct (Z.ltb_spec (current_round s) (Z.of_nat (length (rounds s))));
        [|lia]. rewrite Hi. simpl. rewrite Hm. simpl. rewrite Ht.
      eexists. split; [done|]. simpl. by rewrite Hl'.
  - destruct Hpost as [Hlt Hi].
    destruct (Z.ltb_spec (current_round s) (Z.of_nat (length (rounds s))));
      [|lia]. by rewrite Hi.
Qed.

(** The same for [fact_check_pro]. *)
Lemma fact_check_pro_on_store_refines chk h state rl s :
  h !! state = Some (PyState (Some (current_round s)) (Some rl)) ->
  load_rounds h rl = Some (rounds s) ->
  match fact_check_pro_on_store chk state h with
  | Raise _ => fact_check_pro chk s = None
  | Done h' u =>
      exists upd, fact_check_pro chk s = Some upd /\
        u_current_round upd = su_current_round u /\
        u_rounds upd = su_rounds u ≫= load_rounds h'
  end.
Proof.
  intros Hstate (items & Hrl & Hload)%load_rounds_Some.
  assert (forall d, d ∈ items -> exists m, h !! d = Some (PyDict m)) as Hdicts.
  { intros d (i & Hi)%list_elem_of_lookup.
    destruct (Forall2_lookup_l _ _ _ _ _ Hload Hi) as (m & _ & Hm).
    exists m. by apply load_dict_Some. }
  pose proof (fact_check_on_store_spec "pro_argument" "pro_fact_check" false chk
                h state _ _ items Hstate Hrl Hdicts) as Hpost.
  apply (stage_post_values _ _ _ _ _ _ _ (rounds s)) in Hpost; [|done].
  unfold fact_check_pro_on_store. simpl in Hpost.
  destruct (fact_check_on_store _ _ _ _ _ _) as [h' u|e]; unfold fact_check_pro.
  - destruct Hpost as [[-> [Hge|(i & m & Hlt & Hi & Hm & Ht)]]
                      |(i & m & l' & Hlt & Hi & Hm & Ht & -> & Hl')].
    + destruct (Z.ltb_spec (current_round s) (Z.of_nat (length (rounds s))));
        [lia|]. by exists empty_update.
    + destruct (Z.ltb_spec (current_round s) (Z.of_nat (length (rounds s))));
        [|lia]. rewrite Hi. simpl. rewrite Hm. simpl. rewrite Ht.
      by exists empty_update.
    + destruct (Z.ltb_spec (current_round s) (Z.of_nat (length (rounds s))));
        [|lia]. rewrite Hi. simpl. rewrite Hm. simpl. rewrite Ht.
      eexists. split; [done|]. simpl. by rewrite Hl'.
  - destruct Hpost as [Hlt Hi].
    destruct (Z.ltb_spec (current_round s) (Z.of_nat (length (rounds s))));
      [|lia]. by rewrite Hi.
Qed.

(** C10, as amended. For every store in which the state's [rounds] key,
    when present, refers to a list of round dicts: [fact_check_pro] and
    [fact_check_con] change no object of the store they were given. They
    return the empty update when [current_round] is at or past the end of
    [rounds], or when the round it designates has no argument or an empty
    one; they raise [IndexError] when [current_round] is below
    [-len(rounds)]; otherwise their update refers to a new list that holds
    the references of [rounds] except at the current round (a negative
    [current_round] counts from the end), where it refers to a new dict:
    the fields of the current round with the fact-check key set to the
    checker's answer, added when absent and replaced when present. The
    con stage's update also carries [current_round + 1]. *)
Theorem fact_check_stages_copy_on_write :
  forall (check_facts : string -> string) (h : store) (state : loc)
         (cr : option Z) (rs : option loc) (items : list loc),
    h !! state = Some (PyState cr rs) ->
    rounds_at h rs items ->
    (forall d, d ∈ items -> exists m, h !! d = Some (PyDict m)) ->
    stage_post "pro_argument" "pro_fact_check" false check_facts h items
      (default 0 cr) (fact_check_pro_on_store check_facts state h) /\
    stage_post "con_argument" "con_fact_check" true check_facts h items
      (default 0 cr) (fact_check_con_on_store check_facts state h).
Proof.
  intros chk h state cr rs items Hstate Hrs Hdicts.
  split; by apply (fact_check_on_store_spec _ _ _ chk h state cr rs items).
Qed.

(** A state in its first round, the pro side already fact-checked once. *)
Definition checked_store : store :=
  <[1%positive := PyState (Some 0) (Some 2%positive)]>
    (<[2%positive := PyList [3%positive]]>
       (<[3%positive := PyDict (<["pro_fact_check" := "old"]>
                                  (<["con_argument" := "c"]>
                                     (<["pro_argument" := "p"]> ∅)))]> ∅)).

(** A state whose [current_round] is -1 and whose [rounds] is empty. *)
Definition negative_round_store : store :=
  <[1%positive := PyState (Some (-1)) (Some 2%positive)]>
    (<[2%positive := PyList []]> ∅).

Definition check_new (argument : string) : string := "new".

Lemma fact_check_stages_copy_on_write_witness :
  stage_post "pro_argument" "pro_fact_check" false check_new checked_store
    [3%positive] 0 (fact_check_pro_on_store check_new 1%positive checked_store) /\
  stage_post "con_argument" "con_fact_check" true check_new checked_store
    [3%positive] 0 (fact_check_con_on_store check_new 1%positive checked_store).
Proof.
  apply (fact_check_stages_copy_on_write check_new checked_store 1%positive
           (Some 0) (Some 2%positive) [3%positive]).
  - reflexivity.
  - reflexivity.
  - intros d Hd. apply list_elem_of_singleton in Hd as ->.
    eexists. reflexivity.
Defined.

(** C10 as stated fails in two places. On [checked_store] the current
    round already has a [pro_fact_check]: the returned round has the same
    keys as the input one, and the value under [pro_fact_check] is not the
    input's. On [negative_round_store] the index -1 is out of range of the
    empty [rounds], and both stages raise instead of returning the empty
    update. *)
Lemma fact_check_overwrites_and_raises :
  (exists h' m',
     fact_check_pro_on_store check_new 1%positive checked_store
     = Done h' (mkStoreUpdate (Some 4%positive) None) /\
     h' !! 4%positive = Some (PyList [5%positive]) /\
     h' !! 5%positive = Some (PyDict m') /\
     checked_store !! 3%positive
     = Some (PyDict (<["pro_fact_check" := "old"]>
                       (<["con_argument" := "c"]> (<["pro_argument" := "p"]> ∅)))) /\
     dom m' = dom (<["pro_fact_check" := "old"]>
                     (<["con_argument" := "c"]>
                        (<["pro_argument" := "p"]> (∅ : round_data)))) /\
     m' !! "pro_fact_check" = Some "new") /\
  fact_check_pro_on_store check_new 1%positive negative_round_store
  = Raise IndexError /\
  fact_check_con_on_store check_new 1%positive negative_round_store
  = Raise IndexError.
Proof.
  split; [|split; by vm_compute].
  eexists _, (<["pro_fact_check" := "new"]>
                (<["con_argument" := "c"]> (<["pro_argument" := "p"]> ∅))).
  split; [by vm_compute|]. split; [by vm_compute|]. split; [by vm_compute|].
  split; [by vm_compute|]. split; [|by vm_compute].
  rewrite !dom_insert_L. set_solver.
Qed.

(* ===================================================================== *)
(** ** When [generate_argument] raises *)

Lemma py_index_nonneg {A} (l : list A) i :
  0 <= i < Z.of_nat (length l) -> py_index l i = Some (Z.to_nat i).
Proof.
  intros H. unfold py_index.
  destruct (Z.leb_spec 0 i), (Z.ltb_spec i (Z.of_nat (length l))); simpl;
    [done | lia | lia | lia].
Qed.

Lemma py_index_is_Some {A} (l : list A) i :
  is_Some (py_index l i) <-> - Z.of_nat (length l) <= i < Z.of_nat (length l).
Proof.
  unfold py_index.
  destruct (Z.leb_spec 0 i), (Z.ltb_spec i (Z.of_nat (length l))),
    (Z.leb_spec (- Z.of_nat (length l)) i), (Z.ltb_spec i 0); simpl;
    split; intros Hx; try lia; try (by eexists); try (by destruct Hx);
    exfalso; lia.
Qed.

(** X15. [generate_argument] raises [IndexError] exactly when [current_round]
    is two or more past the end of [rounds], or further below zero than
    [rounds] is long. At the end of [rounds], and one past it, the round
    is created first. *)
Theorem generate_argument_raises_iff (st : stance) (content : string)
    (s : DebateState) :
  generate_argument st content s = None <->
  current_round s < - Z.of_nat (length (rounds s)) \/
  Z.of_nat (length (rounds s)) + 2 <= current_round s.
Proof.
  unfold generate_argument.
  set (cr := current_round s). set (rs := rounds s).
  set (rounds1 := if cr >=? Z.of_nat (length rs) then (rs ++ [∅])%list else rs).
  set (updated := if cr >=? Z.of_nat (length rounds1)
                  then (rounds1 ++ [∅])%list else rounds1).
  assert (Z.of_nat (length updated)
          = if cr >=? Z.of_nat (length rs)
            then if cr >=? Z.of_nat (length rs) + 1
                 then Z.of_nat (length rs) + 2 else Z.of_nat (length rs) + 1
            else Z.of_nat (length rs)) as Hlen.
  { unfold updated, rounds1.
    destruct (Z.geb_spec cr (Z.of_nat (length rs))) as [H1|H1].
    - destruct (Z.geb_spec cr (Z.of_nat (length (rs ++ [∅])))) as [H2|H2];
        destruct (Z.geb_spec cr (Z.of_nat (length rs) + 1)) as [H3|H3];
        rewrite ?length_app in *; simpl in *; lia.
    - destruct (Z.geb_spec cr (Z.of_nat (length rs))) as [H2|H2]; [lia | done]. }
  destruct (py_index updated cr) as [i|] eqn:Hi; simpl.
  - pose proof (py_index_Some _ _ _ Hi) as Hlt.
    assert (is_Some (py_index updated cr)) as Hs by by rewrite Hi.
    apply py_index_is_Some in Hs. rewrite Hlen in Hs.
    destruct (lookup_lt_is_Some_2 updated i Hlt) as [r ->]. simpl.
    split; [done|].
    destruct (Z.geb_spec cr (Z.of_nat (length rs))) as [H1|H1];
      [destruct (Z.geb_spec cr (Z.of_nat (length rs) + 1)) as [H2|H2]|]; lia.
  - split; [intros _ | done].
    assert (~ is_Some (py_index updated cr)) as Hs by (rewrite Hi; by intros [? ?]).
    rewrite py_index_is_Some, Hlen in Hs.
    destruct (Z.geb_spec cr (Z.of_nat (length rs))) as [H1|H1];
      [destruct (Z.geb_spec cr (Z.of_nat (length rs) + 1)) as [H2|H2]|]; lia.
Qed.

(* ===================================================================== *)
(** ** The stages on the states a run goes through *)

(** [{"rounds": rs}] *)
Definition rounds_update (rs : list round_data) : Update :=
  mkUpdate None None None None None (Some rs) None None None None None None.

(** [f"{self.stance}_argument"] *)
Definition argument_key (st : stance) : string :=
  match st with pro => "pro_argument" | con => "con_argument" end.

(** At the end of [rounds]: a new round that holds the argument. *)
Lemma generate_argument_new st content s :
  current_round s = Z.of_nat (length (rounds s)) ->
  generate_argument st content s
  = Some (rounds_update (rounds s ++ [<[argument_key st := content]> ∅])).
Proof.
  intros Hcr. unfold generate_argument. rewrite Hcr.
  destruct (Z.geb_spec (Z.of_nat (length (rounds s)))
              (Z.of_nat (length (rounds s)))) as [_|?]; [|lia].
  destruct (Z.geb_spec (Z.of_nat (length (rounds s)))
              (Z.of_nat (length (rounds s ++ [∅])))) as [H|_].
  { rewrite length_app in H. simpl in H. lia. }
  rewrite py_index_nonneg by (rewrite length_app; simpl; lia).
  rewrite Nat2Z.id. simpl.
  rewrite list_lookup_middle by done. simpl.
  rewrite insert_app_r_alt by done. rewrite Nat.sub_diag.
  by destruct st.
Qed.

(** Inside [rounds]: the argument is written into the round in place of
    an earlier one. *)
Lemma generate_argument_again st content s r :
  0 <= current_round s < Z.of_nat (length (rounds s)) ->
  rounds s !! Z.to_nat (current_round s) = Some r ->
  generate_argument st content s
  = Some (rounds_update
            (<[Z.to_nat (current_round s) := <[argument_key st := content]> r]>
               (rounds s))).
Proof.
  intros Hcr Hr. unfold generate_argument.
  destruct (Z.geb_spec (current_round s) (Z.of_nat (length (rounds s))))
    as [?|_]; [lia|].
  destruct (Z.geb_spec (current_round s) (Z.of_nat (length (rounds s))))
    as [?|_]; [lia|].
  rewrite py_index_nonneg by done. simpl. rewrite Hr. simpl.
  by destruct st.
Qed.

Lemma fact_check_pro_in_round check_facts s r :
  0 <= current_round s < Z.of_nat (length (rounds s)) ->
  rounds s !! Z.to_nat (current_round s) = Some r ->
  fact_check_pro check_facts s
  = Some (let argument := default "" (r !! "pro_argument") in
          if truthy argument
          then rounds_update
                 (<[Z.to_nat (current_round s) :=
                      <["pro_fact_check" := check_facts argument]> r]> (rounds s))
          else empty_update).
Proof.
  intros Hcr Hr. unfold fact_check_pro.
  destruct (Z.ltb_spec (current_round s) (Z.of_nat (length (rounds s))))
    as [_|?]; [|lia].
  rewrite py_index_nonneg by done. simpl. rewrite Hr. simpl.
  by destruct (truthy _).
Qed.

Lemma fact_check_con_in_round check_facts s r :
  0 <= current_round s < Z.of_nat (length (rounds s)) ->
  rounds s !! Z.to_nat (current_round s) = Some r ->
  fact_check_con check_facts s
  = Some (let argument := default "" (r !! "con_argument") in
          if truthy argument
          then mkUpdate None None (Some (current_round s + 1)) None None
                 (Some (<[Z.to_nat (current_round s) :=
                            <["con_fact_check" := check_facts argument]> r]>
                          (rounds s)))
                 None None None None None None
          else empty_update).
Proof.
  intros Hcr Hr. unfold fact_check_con.
  destruct (Z.ltb_spec (current_round s) (Z.of_nat (length (rounds s))))
    as [_|?]; [|lia].
  rewrite py_index_nonneg by done. simpl. rewrite Hr. simpl.
  by destruct (truthy _).
Qed.

(** A round both sides have argued and whose con argument was checked. *)
Definition complete_round (r : round_data) : Prop :=
  is_Some (r !! "pro_argument") /\
  (exists a, r !! "con_argument" = Some a /\ a <> "") /\
  is_Some (r !! "con_fact_check").

Definition rounds_len (s : DebateState) : Z := Z.of_nat (length (rounds s)).

(** What the node about to run finds, in a run with [max_rounds = N]. The
    graph enters the first round before the guard is consulted, so a run
    has [Z.max 1 N] rounds. *)
Definition node_inv (N : Z) (n : node) (s : DebateState) : Prop :=
  match n with
  | Set_debate => current_round s = 0 /\ rounds s = []
  | Generate_pro_argument =>
      current_round s <= rounds_len s <= current_round s + 1 /\
      current_round s < Z.max 1 N
  | Check_pro_facts | Generate_con_argument =>
      rounds_len s = current_round s + 1 /\ current_round s < Z.max 1 N /\
      exists r, rounds s !! Z.to_nat (current_round s) = Some r /\
                is_Some (r !! "pro_argument")
  | Check_con_facts =>
      rounds_len s = current_round s + 1 /\ current_round s < Z.max 1 N /\
      exists r, rounds s !! Z.to_nat (current_round s) = Some r /\
                is_Some (r !! "pro_argument") /\
                is_Some (r !! "con_argument")
  | Pro_conclusion_node | Con_conclusion_node | Evaluate_debate | END =>
      rounds_len s = Z.max 1 N /\
      (current_round s = rounds_len s \/ (N <= 0 /\ current_round s = 0))
  end.

(** What holds of the state at every node: the rounds below
    [current_round] are complete. *)
Definition state_inv (N : Z) (s : DebateState) : Prop :=
  max_rounds s = N /\ 0 <= current_round s /\
  forall j r, (j < Z.to_nat (current_round s))%nat ->
              rounds s !! j = Some r -> complete_round r.

Definition debate_inv (N : Z) (c : node * DebateState) : Prop :=
  state_inv N c.2 /\ node_inv N c.1 c.2.

(** What a transition leaves alone: [rounds] does not shrink, and the
    rounds below [current_round] are not touched. *)
Definition rounds_frame (s s' : DebateState) : Prop :=
  (length (rounds s) <= length (rounds s'))%nat /\
  forall j, (j < Z.to_nat (current_round s))%nat ->
            rounds s' !! j = rounds s !! j.

Lemma rounds_frame_refl s s' :
  rounds s' = rounds s -> rounds_frame s s'.
Proof. intros E. unfold rounds_frame. rewrite E. by split. Qed.

Lemma rounds_frame_insert s s' x :
  rounds s' = <[Z.to_nat (current_round s) := x]> (rounds s) ->
  rounds_frame s s'.
Proof.
  intros E. unfold rounds_frame. rewrite E, length_insert. split; [done|].
  intros j Hj. apply list_lookup_insert_ne. lia.
Qed.

Lemma rounds_frame_app s s' x :
  current_round s = Z.of_nat (length (rounds s)) ->
  rounds s' = (rounds s ++ [x])%list -> rounds_frame s s'.
Proof.
  intros Hcr E. unfold rounds_frame. rewrite E, length_app. split; [lia|].
  intros j Hj. apply lookup_app_l. lia.
Qed.

Lemma state_inv_same_round N s s1 :
  state_inv N s ->
  max_rounds s1 = max_rounds s -> current_round s1 = current_round s ->
  rounds_frame s s1 -> state_inv N s1.
Proof.
  intros (Hmax & Hcr0 & Hdone) Hmax1 Hcr1 [_ Hf].
  split; [congruence|]. split; [lia|].
  intros j r Hj Hr. rewrite Hcr1 in Hj. rewrite Hf in Hr by done.
  by apply (Hdone j).
Qed.

Lemma Z_to_nat_length {A} (l : list A) z :
  z = Z.of_nat (length l) -> Z.to_nat z = length l.
Proof. intros ->. apply Nat2Z.id. Qed.

(** Every transition keeps the invariant and the frame. *)
Lemma debate_step N n s n' s' :
  debate_inv N (n, s) -> step (n, s) (n', s') ->
  debate_inv N (n', s') /\ rounds_frame s s'.
Proof.
  intros [Hstate Hnode] (content & check_facts & Hrun).
  pose proof Hstate as (Hmax & Hcr0 & Hdone). simpl in Hstate, Hmax, Hcr0, Hdone.
  unfold run_node in Hrun. simpl in Hrun, Hnode. unfold debate_inv. simpl.
  destruct n; simpl in Hnode, Hrun; unfold rounds_len in Hnode.
  - (* set_debate *)
    injection Hrun as <- <-. destruct Hnode as [Hcr Hrs].
    set (s1 := apply_update s _).
    assert (rounds s1 = rounds s) as Hrs1 by done.
    assert (rounds_frame s s1) as Hf by by apply rounds_frame_refl.
    split; [|done]. split; [by apply (state_inv_same_round N s)|].
    simpl. unfold rounds_len.
    change (current_round s1) with (current_round s).
    rewrite Hrs1, Hcr, Hrs. simpl. lia.
  - (* generate_pro_argument *)
    destruct Hnode as [Hlen Hlt].
    destruct (decide (current_round s = Z.of_nat (length (rounds s)))) as [E|E].
    + rewrite (generate_argument_new pro content s E) in Hrun. simpl in Hrun.
      injection Hrun as <- <-. set (s1 := apply_update s _).
      assert (rounds s1 = (rounds s ++ [<["pro_argument" := content]> ∅])%list)
        as Hrs1 by done.
      assert (rounds_frame s s1) as Hf by by eapply rounds_frame_app.
      split; [|done]. split; [by apply (state_inv_same_round N s)|].
      simpl. unfold rounds_len.
      change (current_round s1) with (current_round s).
      rewrite Hrs1, length_app. simpl. split; [lia|]. split; [done|].
      eexists. split; [apply list_lookup_middle; by apply Z_to_nat_length|].
      rewrite lookup_insert_eq. by eexists.
    + assert (0 <= current_round s < Z.of_nat (length (rounds s))) as Hin by lia.
      destruct (lookup_lt_is_Some_2 (rounds s) (Z.to_nat (current_round s)))
        as [r Hr]; [lia|].
      rewrite (generate_argument_again pro content s r Hin Hr) in Hrun.
      simpl in Hrun. injection Hrun as <- <-. set (s1 := apply_update s _).
      assert (rounds s1
              = <[Z.to_nat (current_round s) := <["pro_argument" := content]> r]>
                  (rounds s)) as Hrs1 by done.
      assert (rounds_frame s s1) as Hf by by eapply rounds_frame_insert.
      split; [|done]. split; [by apply (state_inv_same_round N s)|].
      simpl. unfold rounds_len.
      change (current_round s1) with (current_round s).
      rewrite Hrs1, length_insert. split; [lia|]. split; [done|].
      eexists. split; [apply list_lookup_insert_eq; lia|].
      rewrite lookup_insert_eq. by eexists.
  - (* check_pro_facts *)
    destruct Hnode as (Hlen & Hlt & r & Hr & Hpro).
    rewrite (fact_check_pro_in_round check_facts s r) in Hrun by (done || lia).
    simpl in Hrun. destruct (truthy (default "" (r !! "pro_argument"))).
    + injection Hrun as <- <-. set (s1 := apply_update s _).
      assert (rounds s1
              = <[Z.to_nat (current_round s) :=
                    <["pro_fact_check" :=
                        check_facts (default "" (r !! "pro_argument"))]> r]>
                  (rounds s)) as Hrs1 by done.
      assert (rounds_frame s s1) as Hf by by eapply rounds_frame_insert.
      split; [|done]. split; [by apply (state_inv_same_round N s)|].
      simpl. unfold rounds_len.
      change (current_round s1) with (current_round s).
      rewrite Hrs1, length_insert. split; [lia|]. split; [done|].
      eexists. split; [apply list_lookup_insert_eq; lia|].
      by rewrite lookup_insert_ne.
    + injection Hrun as <- <-.
      assert (apply_update s empty_update = s) as -> by by destruct s.
      split; [|by apply rounds_frame_refl]. split; [done|]. simpl.
      unfold rounds_len. split; [done|]. split; [done|]. by exists r.
  - (* generate_con_argument *)
    destruct Hnode as (Hlen & Hlt & r & Hr & Hpro).
    rewrite (generate_argument_again con content s r) in Hrun by (done || lia).
    simpl in Hrun. injection Hrun as <- <-. set (s1 := apply_update s _).
    assert (rounds s1
            = <[Z.to_nat (current_round s) := <["con_argument" := content]> r]>
                (rounds s)) as Hrs1 by done.
    assert (rounds_frame s s1) as Hf by by eapply rounds_frame_insert.
    split; [|done]. split; [by apply (state_inv_same_round N s)|].
    simpl. unfold rounds_len.
    change (current_round s1) with (current_round s).
    rewrite Hrs1, length_insert. split; [lia|]. split; [done|].
    eexists. split; [apply list_lookup_insert_eq; lia|].
    split; [by rewrite lookup_insert_ne | rewrite lookup_insert_eq; by eexists].
  - (* check_con_facts *)
    destruct Hnode as (Hlen & Hlt & r & Hr & Hpro & [a Ha]).
    rewrite (fact_check_con_in_round check_facts s r) in Hrun by (done || lia).
    simpl in Hrun. rewrite Ha in Hrun. simpl in Hrun.
    destruct (truthy a) eqn:Ht.
    + apply truthy_spec in Ht. injection Hrun as <- <-.
      set (x := <["con_fact_check" := check_facts a]> r).
      set (s1 := apply_update s _).
      assert (rounds s1 = <[Z.to_nat (current_round s) := x]> (rounds s)) as Hrs1
        by done.
      assert (current_round s1 = current_round s + 1) as Hcr1 by done.
      assert (max_rounds s1 = max_rounds s) as Hmax1 by done.
      split; [|by eapply rounds_frame_insert].
      split.
      { split; [by rewrite Hmax1|]. split; [lia|].
        intros j r0 Hj Hr0. rewrite Hcr1 in Hj. rewrite Hrs1 in Hr0.
        destruct (decide (j = Z.to_nat (current_round s))) as [->|Hne].
        - rewrite list_lookup_insert_eq in Hr0 by lia. injection Hr0 as <-.
          unfold complete_round, x.
          rewrite !lookup_insert_ne by done. rewrite lookup_insert_eq.
          split; [done|]. split; [by exists a | by eexists].
        - rewrite list_lookup_insert_ne in Hr0 by done.
          apply (Hdone j); [lia | done]. }
      change (node_inv N
                (match _check_round_completion s1 with
                 | next_round => Generate_pro_argument
                 | finish_rounds => Pro_conclusion_node
                 end) s1).
      unfold _check_round_completion. rewrite Hcr1, Hmax1, Hmax.
      destruct (Z.ltb_spec (current_round s + 1) N) as [Hn|Hn];
        unfold node_inv, rounds_len; rewrite Hrs1, length_insert, Hcr1; lia.
    + injection Hrun as <- <-.
      assert (apply_update s empty_update = s) as -> by by destruct s.
      split; [|by apply rounds_frame_refl]. split; [done|].
      change (node_inv N
                (match _check_round_completion s with
                 | next_round => Generate_pro_argument
                 | finish_rounds => Pro_conclusion_node
                 end) s).
      unfold _check_round_completion. rewrite Hmax.
      destruct (Z.ltb_spec (current_round s) N) as [Hn|Hn];
        unfold node_inv, rounds_len; lia.
  - (* pro_conclusion_node *)
    injection Hrun as <- <-. by split; [|apply rounds_frame_refl].
  - (* con_conclusion_node *)
    injection Hrun as <- <-. by split; [|apply rounds_frame_refl].
  - (* evaluate_debate *)
    unfold evaluate_debate in Hrun.
    destruct (Scorekeeper._parse_evaluation content) as [[p c] w].
    injection Hrun as <- <-. by split; [|apply rounds_frame_refl].
  - done.
Qed.

Lemma initial_debate_inv tp bg N :
  debate_inv N (Set_debate, initial_state tp bg N).
Proof.
  split; [|done]. split; [done|]. split; [done|]. simpl. intros j r Hj. lia.
Qed.

Lemma reachable_debate_inv tp bg N c :
  reachable (Set_debate, initial_state tp bg N) c -> debate_inv N c.
Proof.
  induction 1 as [|[n s] [n' s'] _ IH Hstep]; [apply initial_debate_inv|].
  by apply (debate_step N n s n' s').
Qed.

(* ===================================================================== *)
(** ** What every run of the pipeline does *)

Lemma debate_inv_progress N n s content check_facts :
  debate_inv N (n, s) -> n <> END ->
  is_Some (run_node content check_facts (n, s)).
Proof.
  intros [(_ & Hcr0 & _) Hnode] Hn.
  simpl in Hcr0, Hnode. unfold run_node. simpl.
  destruct n; simpl in *; unfold rounds_len in Hnode; try done.
  - destruct Hnode as [Hlen _].
    destruct (decide (current_round s = Z.of_nat (length (rounds s)))) as [E|E].
    + by rewrite (generate_argument_new pro content s E).
    + destruct (lookup_lt_is_Some_2 (rounds s) (Z.to_nat (current_round s)))
        as [r Hr]; [lia|].
      by rewrite (generate_argument_again pro content s r) by (done || lia).
  - destruct Hnode as (Hlen & _ & r & Hr & _).
    by rewrite (fact_check_pro_in_round check_facts s r) by (done || lia).
  - destruct Hnode as (Hlen & _ & r & Hr & _).
    by rewrite (generate_argument_again con content s r) by (done || lia).
  - destruct Hnode as (Hlen & _ & r & Hr & _).
    by rewrite (fact_check_con_in_round check_facts s r) by (done || lia).
Qed.

(** X16. No stage raises: from every state a run reaches, the node about to
    run returns an update, whatever the model and the fact checker
    answer and whatever [max_rounds] is. In particular the indexing
    [rounds[current_round]] is always in range. *)
Theorem pipeline_never_raises :
  forall (tp bg : string) (N : Z) (n : node) (s : DebateState)
         (content : string) (check_facts : string -> string),
    reachable (Set_debate, initial_state tp bg N) (n, s) ->
    n <> END ->
    is_Some (run_node content check_facts (n, s)).
Proof.
  intros tp bg N n s content check_facts Hreach Hn.
  apply (debate_inv_progress N); [|done].
  by apply (reachable_debate_inv tp bg).
Qed.

Lemma before_con_check_reachable :
  reachable (Set_debate, initial_state "t" "b" 2) before_con_check.
Proof.
  apply (run_script_reachable check_ok ["i"; "p"; ""; "c"]
           _ (Set_debate, initial_state "t" "b" 2)).
  - apply reachable_start.
  - vm_compute. reflexivity.
Qed.

Lemma pipeline_never_raises_witness :
  is_Some (run_node "" check_ok before_con_check).
Proof.
  apply (pipeline_never_raises "t" "b" 2 Check_con_facts before_con_check.2
           "" check_ok).
  - exact before_con_check_reachable.
  - done.
Defined.

(** The nodes after the rounds. *)
Definition past_rounds (n : node) : Prop :=
  n = Pro_conclusion_node \/ n = Con_conclusion_node \/
  n = Evaluate_debate \/ n = END.

(** X17. Once a run is past its rounds, [rounds] has [max_rounds] entries, and
    one entry when [max_rounds] is below 1. With [max_rounds] at least 1,
    [current_round] equals [max_rounds] and every round holds a pro
    argument, a non-empty con argument and the con fact check. *)
Theorem finished_debate_rounds :
  forall (tp bg : string) (N : Z) (n : node) (s : DebateState),
    reachable (Set_debate, initial_state tp bg N) (n, s) ->
    past_rounds n ->
    Z.of_nat (length (rounds s)) = Z.max 1 N /\
    (1 <= N -> current_round s = N /\ Forall complete_round (rounds s)).
Proof.
  intros tp bg N n s Hreach Hn.
  destruct (reachable_debate_inv _ _ _ _ Hreach) as [(_ & Hcr0 & Hdone) Hnode].
  simpl in Hcr0, Hdone, Hnode.
  assert (rounds_len s = Z.max 1 N /\
          (current_round s = rounds_len s \/ (N <= 0 /\ current_round s = 0)))
    as [Hlen Hcr].
  { by destruct Hn as [->|[->|[->| ->]]]. }
  unfold rounds_len in *. split; [done|]. intros HN.
  destruct Hcr as [Hcr|[? _]]; [|lia]. split; [lia|].
  apply Forall_lookup. intros j r Hr. apply (Hdone j r); [|done].
  apply lookup_lt_Some in Hr. lia.
Qed.

(** A debate of one round, run to the end. *)
Definition one_round_script : list string :=
  ["intro"; "p"; ""; "c"; ""; "pc"; "cc"; "Pro: 80 points, Con: 70 points"].

Lemma one_round_run :
  exists s, run_script check_ok one_round_script
              (Set_debate, initial_state "t" "b" 1) = Some (END, s).
Proof. eexists. by vm_compute. Qed.

Lemma finished_debate_rounds_witness :
  exists s, Z.of_nat (length (rounds s)) = 1 /\ current_round s = 1 /\
            Forall complete_round (rounds s).
Proof.
  destruct one_round_run as (s & Hrun). exists s.
  destruct (finished_debate_rounds "t" "b" 1 END s) as [Hlen Hrest].
  - apply (run_script_reachable check_ok one_round_script
             _ (Set_debate, initial_state "t" "b" 1));
      [apply reachable_start | exact Hrun].
  - unfold past_rounds. auto.
  - split; [exact Hlen|]. apply Hrest. lia.
Defined.

Lemma rounds_frame_trans s1 s2 s3 :
  current_round s1 <= current_round s2 ->
  rounds_frame s1 s2 -> rounds_frame s2 s3 -> rounds_frame s1 s3.
Proof.
  intros Hcr [Hl1 Hf1] [Hl2 Hf2]. split; [lia|].
  intros j Hj. rewrite Hf2 by lia. by apply Hf1.
Qed.

(** X18. A completed round is final: from a state of a run on, whatever the
    run does next, [rounds] does not get shorter, [current_round] does
    not go down, and the rounds below [current_round] stay as they are. *)
Theorem completed_rounds_never_change :
  forall (tp bg : string) (N : Z) (c c' : node * DebateState),
    reachable (Set_debate, initial_state tp bg N) c ->
    reachable c c' ->
    current_round c.2 <= current_round c'.2 /\
    (length (rounds c.2) <= length (rounds c'.2))%nat /\
    forall j, (j < Z.to_nat (current_round c.2))%nat ->
              rounds c'.2 !! j = rounds c.2 !! j.
Proof.
  intros tp bg N c c' Hc Hc'.
  assert (reachable (Set_debate, initial_state tp bg N) c' /\
          current_round c.2 <= current_round c'.2 /\ rounds_frame c.2 c'.2)
    as (_ & Hcr & Hlen & Hf); [|done].
  induction Hc' as [|c1 c2 _ (Hc1 & Hcr & Hf) Hstep].
  - split; [done|]. split; [lia|]. by apply rounds_frame_refl.
  - split; [by eapply reachable_step|].
    destruct c1 as [n1 s1], c2 as [n2 s2].
    pose proof (reachable_debate_inv _ _ _ _ Hc1) as Hinv.
    destruct (debate_step N n1 s1 n2 s2 Hinv Hstep) as [_ Hf2].
    assert (current_round s1 <= current_round s2) as Hcr2.
    { destruct (step_current_round _ _ _ _ Hstep) as [(_ & _ & E)|[_ E]];
        simpl in *; lia. }
    simpl in *. split; [lia|]. by apply (rounds_frame_trans _ s1).
Qed.

(** The first round of a two-round debate against the finished debate. *)
Lemma completed_rounds_never_change_witness :
  exists c c' : node * DebateState,
    current_round c.2 = 1 /\ c'.1 = END /\ current_round c'.2 = 2 /\
    rounds c'.2 !! 0%nat = rounds c.2 !! 0%nat.
Proof.
  destruct (run_script check_ok ["i"; "p1"; ""; "c1"; ""]
              (Set_debate, initial_state "t" "b" 2)) as [c|] eqn:Hc;
    [|by vm_compute in Hc].
  destruct (run_script check_ok ["p2"; ""; "c2"; ""; "pc"; "cc"; "e"] c)
    as [c'|] eqn:Hc'; [|vm_compute in Hc; injection Hc as <-; by vm_compute in Hc'].
  exists c, c'.
  destruct (completed_rounds_never_change "t" "b" 2 c c') as (_ & _ & Hf).
  - by apply (run_script_reachable check_ok ["i"; "p1"; ""; "c1"; ""]
                _ (Set_debate, initial_state "t" "b" 2)); [apply reachable_start|].
  - by apply (run_script_reachable check_ok
                ["p2"; ""; "c2"; ""; "pc"; "cc"; "e"] _ c); [apply reachable_start|].
  - vm_compute in Hc. injection Hc as <-. vm_compute in Hc'. injection Hc' as <-.
    split; [done|]. split; [done|]. split; [done|]. apply Hf. simpl. lia.
Defined.

(* ===================================================================== *)
(** ** The state a debate ends in *)

(** What the model says in the course of a debate: the introduction, the
    pro and the con argument of each round, the two conclusions and the
    evaluation. *)
Record transcript := mkTranscript {
  t_introduction : string;
  t_arguments : list (string * string);
  t_pro_conclusion : string;
  t_con_conclusion : string;
  t_evaluation : string
}.

(** One model output per node; the fact-check nodes do not call the model. *)
Definition round_script (a : string * string) : list string :=
  [a.1; ""; a.2; ""].

Definition script_of (t : transcript) : list string :=
  t_introduction t
  :: (t_arguments t ≫= round_script)
     ++ [t_pro_conclusion t; t_con_conclusion t; t_evaluation t].

(** The round two arguments make. *)
Definition round_of (check_facts : string -> string) (a : string * string)
    : round_data :=
  <["con_fact_check" := check_facts a.2]>
    (<["con_argument" := a.2]>
       (<["pro_fact_check" := check_facts a.1]>
          (<["pro_argument" := a.1]> ∅))).

Definition final_state (tp bg : string) (check_facts : string -> string)
    (t : transcript) : DebateState :=
  let '(p, c, w) := Scorekeeper._parse_evaluation (t_evaluation t) in
  mkState tp bg
    (Z.of_nat (length (t_arguments t))) (Z.of_nat (length (t_arguments t)))
    (t_introduction t) (round_of check_facts <$> t_arguments t)
    (t_pro_conclusion t) (t_con_conclusion t) (t_evaluation t)
    (Some w) p c.

Lemma run_script_app check_facts script1 script2 : forall c,
  run_script check_facts (script1 ++ script2) c
  = run_script check_facts script1 c ≫= run_script check_facts script2.
Proof.
  induction script1 as [|content script1 IH]; intros c; [done|].
  simpl. destruct (run_node content check_facts c) as [c1|]; [|done].
  simpl. apply IH.
Qed.

(** The state with [rounds] and [current_round] replaced. *)
Definition with_rounds (s : DebateState) (rs : list round_data) (cr : Z)
    : DebateState :=
  mkState (topic s) (background_info s) cr (max_rounds s) (introduction s) rs
    (pro_conclusion s) (con_conclusion s) (evaluation s) (winner s)
    (pro_score s) (con_score s).

Lemma truthy_true (a : string) : a <> "" -> truthy a = true.
Proof. apply truthy_spec. Qed.

(** One round with two non-empty arguments, started at the end of
    [rounds]: the four nodes append the round and raise [current_round]. *)
Lemma run_round check_facts s (a : string * string) :
  current_round s = Z.of_nat (length (rounds s)) ->
  a.1 <> "" -> a.2 <> "" ->
  run_script check_facts (round_script a) (Generate_pro_argument, s)
  = Some (if current_round s + 1 <? max_rounds s
          then Generate_pro_argument else Pro_conclusion_node,
          with_rounds s (rounds s ++ [round_of check_facts a])
            (current_round s + 1)).
Proof.
  intros Hcr Hp Hc. destruct a as [p c]. simpl in Hp, Hc.
  assert (Z.to_nat (current_round s) = length (rounds s)) as Hi
    by by apply Z_to_nat_length.
  unfold round_script, run_script, run_node. simpl.
  (* generate_pro_argument *)
  rewrite (generate_argument_new pro p s Hcr). simpl.
  set (s1 := apply_update s _).
  assert (rounds s1 = (rounds s ++ [<["pro_argument" := p]> ∅])%list) as Hr1
    by done.
  assert (current_round s1 = current_round s) as Hcr1 by done.
  (* check_pro_facts *)
  rewrite (fact_check_pro_in_round check_facts s1 (<["pro_argument" := p]> ∅));
    [| rewrite Hr1, Hcr1, length_app; simpl; lia
     | rewrite Hr1, Hcr1; by apply list_lookup_middle].
  simpl. rewrite lookup_insert_eq. simpl. rewrite (truthy_true p Hp). simpl.
  set (s2 := apply_update s1 _).
  assert (rounds s2
          = (rounds s ++ [<["pro_fact_check" := check_facts p]>
                            (<["pro_argument" := p]> ∅)])%list) as Hr2.
  { change (rounds s2)
      with (<[Z.to_nat (current_round s1) :=
                <["pro_fact_check" := check_facts p]> (<["pro_argument" := p]> ∅)]>
              (rounds s1)).
    rewrite Hr1, Hcr1, Hi, insert_app_r_alt by done.
    by rewrite Nat.sub_diag. }
  assert (current_round s2 = current_round s) as Hcr2 by done.
  (* generate_con_argument *)
  rewrite (generate_argument_again con c s2
             (<["pro_fact_check" := check_facts p]> (<["pro_argument" := p]> ∅)));
    [| rewrite Hr2, Hcr2, length_app; simpl; lia
     | rewrite Hr2, Hcr2; by apply list_lookup_middle].
  simpl. set (s3 := apply_update s2 _).
  assert (rounds s3
          = (rounds s ++ [<["con_argument" := c]>
                            (<["pro_fact_check" := check_facts p]>
                               (<["pro_argument" := p]> ∅))])%list) as Hr3.
  { change (rounds s3)
      with (<[Z.to_nat (current_round s2) :=
                <["con_argument" := c]>
                  (<["pro_fact_check" := check_facts p]>
                     (<["pro_argument" := p]> ∅))]> (rounds s2)).
    rewrite Hr2, Hcr2, Hi, insert_app_r_alt by done.
    by rewrite Nat.sub_diag. }
  assert (current_round s3 = current_round s) as Hcr3 by done.
  (* check_con_facts *)
  rewrite (fact_check_con_in_round check_facts s3
             (<["con_argument" := c]>
                (<["pro_fact_check" := check_facts p]>
                   (<["pro_argument" := p]> ∅))));
    [| rewrite Hr3, Hcr3, length_app; simpl; lia
     | rewrite Hr3, Hcr3; by apply list_lookup_middle].
  simpl. rewrite lookup_insert_eq. simpl. rewrite (truthy_true c Hc). simpl.
  set (s4 := apply_update s3 _).
  assert (rounds s4 = (rounds s ++ [round_of check_facts (p, c)])%list) as Hr4.
  { change (rounds s4)
      with (<[Z.to_nat (current_round s3) :=
                <["con_fact_check" := check_facts c]>
                  (<["con_argument" := c]>
                     (<["pro_fact_check" := check_facts p]>
                        (<["pro_argument" := p]> ∅)))]> (rounds s3)).
    rewrite Hr3, Hcr3, Hi, insert_app_r_alt by done.
    by rewrite Nat.sub_diag. }
  change s4
    with (mkState (topic s) (background_info s) (current_round s + 1)
            (max_rounds s) (introduction s) (rounds s4) (pro_conclusion s)
            (con_conclusion s) (evaluation s) (winner s) (pro_score s)
            (con_score s)).
  rewrite Hr4. unfold _check_round_completion, with_rounds. simpl.
  by destruct (current_round s + 1 <? max_rounds s).
Qed.

(** All the rounds of a debate, one after the other. *)
Lemma run_rounds check_facts (args : list (string * string)) : forall s,
  args <> [] ->
  Forall (fun a => a.1 <> "" /\ a.2 <> "") args ->
  current_round s = Z.of_nat (length (rounds s)) ->
  Z.of_nat (length (rounds s)) + Z.of_nat (length args) = max_rounds s ->
  run_script check_facts (args ≫= round_script) (Generate_pro_argument, s)
  = Some (Pro_conclusion_node,
          with_rounds s (rounds s ++ (round_of check_facts <$> args))
            (max_rounds s)).
Proof.
  induction args as [|a args IH]; intros s Hne Hall Hcr Hmax; [done|].
  apply Forall_cons in Hall as [[Hp Hc] Hall].
  change ((a :: args) ≫= round_script)
    with (round_script a ++ (args ≫= round_script))%list.
  rewrite run_script_app, (run_round check_facts s a Hcr Hp Hc). simpl.
  destruct args as [|a' args].
  - simpl in Hmax.
    destruct (Z.ltb_spec (current_round s + 1) (max_rounds s)) as [?|_]; [lia|].
    simpl. do 2 f_equal. unfold with_rounds. f_equal. lia.
  - rewrite !length_cons in Hmax.
    destruct (Z.ltb_spec (current_round s + 1) (max_rounds s)) as [_|?]; [|lia].
    rewrite IH; [| done | done | simpl; rewrite length_app; simpl; lia
                 | simpl; rewrite length_app, !length_cons; simpl; lia].
    simpl. by rewrite <- app_assoc.
Qed.

Lemma run_transcript tp bg check_facts (t : transcript) :
  t_arguments t <> [] ->
  Forall (fun a => a.1 <> "" /\ a.2 <> "") (t_arguments t) ->
  run_script check_facts (script_of t)
    (Set_debate, initial_state tp bg (Z.of_nat (length (t_arguments t))))
  = Some (END, final_state tp bg check_facts t).
Proof.
  destruct t as [intro args pc cc ev]. intros Hne Hall. simpl in *.
  change (run_script check_facts ((args ≫= round_script) ++ [pc; cc; ev])
            (Generate_pro_argument,
             apply_update (initial_state tp bg (Z.of_nat (length args)))
               (set_debate intro (initial_state tp bg (Z.of_nat (length args)))))
          = Some (END, final_state tp bg check_facts
                         (mkTranscript intro args pc cc ev))).
  set (s0 := apply_update _ _).
  rewrite run_script_app, (run_rounds check_facts args s0); [|done|done|done|].
  - simpl. unfold run_node. simpl. unfold final_state, evaluate_debate. simpl.
    by destruct (Scorekeeper._parse_evaluation ev) as [[p c] w].
  - simpl. lia.
Qed.

(** The model that says what the transcript says: the [k]-th text of its
    script in step [k], whichever node asks. *)
Definition llm_of (t : transcript) : nat -> node -> string :=
  fun k _ => nth k (script_of t) "".




Lemma invoke_from_O llm check_facts k c :
  c.1 <> END -> invoke_from 0 llm check_facts k c = GraphRecursionError.
Proof. destruct c as [[] s]; done. Qed.

Lemma invoke_from_S steps llm check_facts k c :
  c.1 <> END ->
  invoke_from (S steps) llm check_facts k c
  = match run_node (llm k c.1) check_facts c with
    | Some c' => invoke_from steps llm check_facts (S k) c'
    | None => NodeRaised
    end.
Proof. destruct c as [[] s]; done. Qed.






(** A debate of two rounds. *)
Definition two_round_transcript : transcript :=
  mkTranscript "intro" [("p1", "c1"); ("p2", "c2")] "pc" "cc"
    "Pro: 80 points, Con: 70 points".


(** A debate of six rounds does not come to its conclusions. *)
Definition six_round_transcript : transcript :=
  mkTranscript "intro" (replicate 6 ("p", "c")) "pc" "cc"
    "Pro: 80 points, Con: 70 points".

Lemma six_round_debate_raises :
  run_debate (llm_of six_round_transcript) check_ok "t" "b" 6
  = GraphRecursionError.
Proof. by vm_compute. Qed.

(* ===================================================================== *)
(** ** A con debater that says nothing *)

(** A transition in which the model returns the empty text when asked for
    the con argument, and anything when asked for something else. *)
Definition silent_con_step (c c' : node * DebateState) : Prop :=
  exists content check_facts,
    (c.1 = Generate_con_argument -> content = "") /\
    run_node content check_facts c = Some c'.

Lemma silent_con_step_step c c' : silent_con_step c c' -> step c c'.
Proof. intros (content & check_facts & _ & H). by exists content, check_facts. Qed.

(** In the first round, before [check_con_facts], with an empty con
    argument stored. *)
Definition first_round_inv (c : node * DebateState) : Prop :=
  current_round c.2 = 0 /\ ~ past_rounds c.1 /\
  (c.1 = Check_con_facts ->
   exists r, rounds c.2 !! 0%nat = Some r /\ r !! "con_argument" = Some "").

Lemma silent_con_step_inv N c c' :
  1 <= N -> debate_inv N c -> first_round_inv c -> silent_con_step c c' ->
  first_round_inv c'.
Proof.
  intros HN Hinv (Hcr & Hnot & Hcon) Hstep.
  pose proof Hstep as (content & check_facts & Hsilent & Hrun).
  destruct c as [n s], c' as [n' s']. simpl in *.
  pose proof Hinv as [(Hmax & _ & _) Hnode]. simpl in Hmax, Hnode.
  unfold run_node in Hrun. simpl in Hrun.
  destruct n; simpl in Hnode, Hrun; unfold rounds_len in Hnode.
  - injection Hrun as <- <-. split; [done|]. split; [|done].
    by intros [?|[?|[?|?]]].
  - destruct (node_update Generate_pro_argument content check_facts s)
      as [u|] eqn:Hu; simpl in Hu; rewrite Hu in Hrun; [|done].
    apply generate_argument_cases in Hu as [rs ->].
    injection Hrun as <- <-. split; [done|]. split; [|done].
    by intros [?|[?|[?|?]]].
  - destruct (fact_check_pro check_facts s) as [u|] eqn:Hu; [|done].
    apply fact_check_pro_cases in Hu as [[rs ->]| ->];
      injection Hrun as <- <-; (split; [done|]; split; [|done]);
      by intros [?|[?|[?|?]]].
  - destruct Hnode as (Hlen & _ & r & Hr & _). rewrite Hsilent in Hrun by done.
    rewrite (generate_argument_again con "" s r) in Hrun by (done || lia).
    simpl in Hrun. injection Hrun as <- <-. split; [done|].
    split; [by intros [?|[?|[?|?]]]|]. intros _. simpl. rewrite Hcr. simpl.
    eexists. split; [apply list_lookup_insert_eq; lia|].
    by rewrite lookup_insert_eq.
  - destruct Hcon as (r & Hr & Ha); [done|].
    rewrite (fact_check_con_in_round check_facts s r) in Hrun;
      [| lia | by rewrite Hcr].
    simpl in Hrun. rewrite Ha in Hrun. simpl in Hrun.
    injection Hrun as <- <-.
    assert (apply_update s empty_update = s) as -> by by destruct s.
    unfold _check_round_completion. rewrite Hcr, Hmax.
    destruct (Z.ltb_spec 0 N) as [_|?]; [|lia].
    split; [done|]. split; [|done]. by intros [?|[?|[?|?]]].
  - exfalso. apply Hnot. unfold past_rounds. auto.
  - exfalso. apply Hnot. unfold past_rounds. auto.
  - exfalso. apply Hnot. unfold past_rounds. auto.
  - done.
Qed.

(** From a configuration of the first round the steps are used up,
    however many there are. *)
Lemma invoke_from_silent_con N llm check_facts :
  1 <= N -> (forall k, llm k Generate_con_argument = "") ->
  forall steps k c,
    debate_inv N c -> first_round_inv c ->
    invoke_from steps llm check_facts k c = GraphRecursionError.
Proof.
  intros HN Hsilent. induction steps as [|steps IH]; intros k [n s] Hinv Hfirst.
  all: assert (n <> END) as Hn
    by (intros ->; destruct Hfirst as (_ & Hnot & _); apply Hnot;
        unfold past_rounds; simpl; auto).
  - by apply invoke_from_O.
  - destruct (debate_inv_progress N n s (llm k n) check_facts Hinv Hn)
      as [[n' s'] Hrun].
    rewrite invoke_from_S by done. simpl. rewrite Hrun.
    apply IH.
    + apply (debate_step N n s n' s' Hinv). by exists (llm k n), check_facts.
    + apply (silent_con_step_inv N (n, s)); [done | done | done |].
      exists (llm k n), check_facts. split; [|done].
      simpl. intros ->. apply Hsilent.
Qed.

(** X20. With [max_rounds] at least 1 and a con debater whose model returns
    the empty text every time, [run_debate] does not return a result: it
    ends in [GraphRecursionError], and it would under any recursion
    limit. [check_con_facts] finds nothing to check and leaves
    [current_round] at 0, the router sends the run back to
    [generate_pro_argument], and the run stays in its first round until
    the steps are used up. *)
Theorem silent_con_debater_ends_in_recursion_error :
  forall (tp bg : string) (N : Z) (llm : nat -> node -> string)
         (check_facts : string -> string),
    1 <= N ->
    (forall k, llm k Generate_con_argument = "") ->
    run_debate llm check_facts tp bg N = GraphRecursionError /\
    forall limit,
      invoke_from limit llm check_facts 0 (Set_debate, initial_state tp bg N)
      = GraphRecursionError.
Proof.
  intros tp bg N llm check_facts HN Hsilent.
  assert (forall limit,
            invoke_from limit llm check_facts 0 (Set_debate, initial_state tp bg N)
            = GraphRecursionError) as H.
  { intros limit. apply (invoke_from_silent_con N); [done | done | |].
    - apply initial_debate_inv.
    - split; [done|]. split; [|done]. by intros [?|[?|[?|?]]]. }
  split; [apply H | exact H].
Qed.

(** A pro debater that speaks and a con debater that does not. *)
Definition silent_con_llm : nat -> node -> string :=
  fun _ n => if decide (n = Generate_con_argument) then "" else "words".

Lemma silent_con_debater_ends_in_recursion_error_witness :
  run_debate silent_con_llm check_ok "t" "b" 1 = GraphRecursionError.
Proof.
  apply (silent_con_debater_ends_in_recursion_error "t" "b" 1 silent_con_llm check_ok).
  - lia.
  - done.
Defined.

Close Scope Z_scope.

End Pipeline.

(* ===================================================================== *)
(** * The streaming session ([streaming_debate_manager.py])               *)
(* ===================================================================== *)

Module Streaming.

Import Pipeline.

(** An entry of the update queue: a dict with the keys [type] and
    [content], [round] for the events of a round, and [winner],
    [pro_score], [con_score] for the evaluation. *)
Record UpdateEvent := mkEvent {
  ev_type : string;
  ev_round : option nat;
  ev_content : string;
  ev_verdict : option (option string * Z * Z)
}.

#[global] Instance UpdateEvent_eq_dec : EqDecision UpdateEvent.
Proof. solve_decision. Defined.

(** The mutable fields of a [StreamingDebateManager], with the three
    constructor arguments the run reads. [_debate_thread] is kept as the
    answer of [is_alive()]; [_start_time] is a clock reading and left out. *)
Record Session := mkSession {
  s_topic : string;
  s_background_info : string;
  num_rounds : Z;
  debate_state : option DebateState;
  _debate_complete : bool;
  _debate_thread : bool;
  _update_queue : list UpdateEvent;
  _current_phase : option string;
  _error_state : option string
}.

(** [StreamingDebateManager.__init__] *)
Definition new_session (tp bg : string) (n : Z) : Session :=
  mkSession tp bg n None false false [] None None.

Definition set_phase (p : string) (s : Session) : Session :=
  mkSession (s_topic s) (s_background_info s) (num_rounds s) (debate_state s)
    (_debate_complete s) (_debate_thread s) (_update_queue s) (Some p)
    (_error_state s).

Definition put (e : UpdateEvent) (s : Session) : Session :=
  mkSession (s_topic s) (s_background_info s) (num_rounds s) (debate_state s)
    (_debate_complete s) (_debate_thread s) (_update_queue s ++ [e])
    (_current_phase s) (_error_state s).

Definition set_error (e : string) (s : Session) : Session :=
  mkSession (s_topic s) (s_background_info s) (num_rounds s) (debate_state s)
    (_debate_complete s) (_debate_thread s) (_update_queue s)
    (_current_phase s) (Some e).

Definition set_complete (b : bool) (s : Session) : Session :=
  mkSession (s_topic s) (s_background_info s) (num_rounds s) (debate_state s)
    b (_debate_thread s) (_update_queue s) (_current_phase s) (_error_state s).

Definition set_debate_state (d : DebateState) (s : Session) : Session :=
  mkSession (s_topic s) (s_background_info s) (num_rounds s) (Some d)
    (_debate_complete s) (_debate_thread s) (_update_queue s)
    (_current_phase s) (_error_state s).

Definition set_thread (alive : bool) (s : Session) : Session :=
  mkSession (s_topic s) (s_background_info s) (num_rounds s) (debate_state s)
    (_debate_complete s) alive (_update_queue s) (_current_phase s)
    (_error_state s).

(** ** The diffing step

    [_queue_state_updates] assigns [self._current_phase] and calls
    [self._update_queue.put], in program order. *)
Inductive action :=
| SetPhase (p : string)
| Put (e : UpdateEvent).

Definition run_action (s : Session) (a : action) : Session :=
  match a with
  | SetPhase p => set_phase p s
  | Put e => put e s
  end.

Definition update_types : list string :=
  ["pro_argument"; "pro_fact_check"; "con_argument"; "con_fact_check"].

(** The check of the introduction. *)
Definition introduction_actions (old_state new_state : DebateState) : list action :=
  if bool_decide (introduction old_state <> introduction new_state)
     && truthy (introduction new_state)
  then [SetPhase "introduction";
        Put (mkEvent "introduction" None (introduction new_state) None)]
  else [].

(** The inner loop of a round that the old snapshot does not have. *)
Definition new_round_updates (i : nat) (round : round_data) : list action :=
  omap (fun update_type =>
          match round !! update_type with
          | Some content => Some (Put (mkEvent update_type (Some (i + 1)) content None))
          | None => None
          end) update_types.

(** The inner loop of a round that the old snapshot has. *)
Definition existing_round_updates (i : nat) (round old_round : round_data)
    : list action :=
  omap (fun update_type =>
          match round !! update_type with
          | Some content =>
              if bool_decide (content <> default "" (old_round !! update_type))
              then Some (Put (mkEvent update_type (Some (i + 1)) content None))
              else None
          | None => None
          end) update_types.

(** The body of [for i, round_data in enumerate(new_rounds)]. *)
Definition round_actions (old_rounds : list round_data) (i : nat)
    (round : round_data) : list action :=
  match old_rounds !! i with
  | None => SetPhase ("round_" +:+ pretty (i + 1)) :: new_round_updates i round
  | Some old_round => existing_round_updates i round old_round
  end.

Fixpoint rounds_actions (old_rounds : list round_data) (i : nat)
    (new_rounds : list round_data) : list action :=
  match new_rounds with
  | [] => []
  | round :: rest =>
      round_actions old_rounds i round ++ rounds_actions old_rounds (S i) rest
  end.

(** The body of [for conclusion_type in ["pro_conclusion", "con_conclusion"]]. *)
Definition conclusion_actions (conclusion_type : string)
    (old_text new_text : string) : list action :=
  if truthy new_text && bool_decide (new_text <> old_text)
  then [SetPhase conclusion_type; Put (mkEvent conclusion_type None new_text None)]
  else [].

(** The check of the evaluation. *)
Definition evaluation_actions (old_state new_state : DebateState) : list action :=
  if truthy (evaluation new_state)
     && bool_decide (evaluation new_state <> evaluation old_state)
  then [SetPhase "evaluation";
        Put (mkEvent "evaluation" None (evaluation new_state)
               (Some (winner new_state, pro_score new_state, con_score new_state)))]
  else [].

Definition queue_actions (old_state new_state : DebateState) : list action :=
  introduction_actions old_state new_state
  ++ rounds_actions (rounds old_state) 0 (rounds new_state)
  ++ conclusion_actions "pro_conclusion"
       (pro_conclusion old_state) (pro_conclusion new_state)
  ++ conclusion_actions "con_conclusion"
       (con_conclusion old_state) (con_conclusion new_state)
  ++ evaluation_actions old_state new_state.

(** [StreamingDebateManager._queue_state_updates]. On snapshots of this
    type nothing in the [try] block raises, so the handler that would set
    [_error_state] is not reached. *)
Definition _queue_state_updates (old_state new_state : DebateState)
    (s : Session) : Session :=
  foldl run_action s (queue_actions old_state new_state).

(** The events among the actions, in order. *)
Definition events_of (acts : list action) : list UpdateEvent :=
  omap (fun a => match a with Put e => Some e | SetPhase _ => None end) acts.

Definition queued_events (old_state new_state : DebateState) : list UpdateEvent :=
  events_of (queue_actions old_state new_state).

(** ** The run *)

(** How the call [app.invoke(initial_state)] under the watchdog ends:
    it returns the final state before the deadline, it raises before the
    deadline, or the worker is still alive when [join(timeout)] returns. *)
Inductive invoke_outcome :=
| Returned (result : DebateState)
| Raised (e : string)
| TimedOut.

(** [StreamingDebateManager._run_with_timeout]: the session afterwards, and
    [inl] the value returned ([None] on expiry) or [inr] the exception
    raised again. The worker sets the phase "executing" before it calls
    [func]. *)
Definition _run_with_timeout (o : invoke_outcome) (s : Session)
    : Session * (option DebateState + string) :=
  let s1 := set_phase "executing" s in
  match o with
  | TimedOut => (set_phase "timeout" s1, inl None)
  | Raised e => (s1, inr e)
  | Returned result => (s1, inl (Some result))
  end.

(** [StreamingDebateManager._run_debate_thread]. [compiled] tells whether
    [self.graph.compile()] returned ([inl tt]) or raised. The thread ends
    with the function. *)
Definition _run_debate_thread (compiled : unit + string) (o : invoke_outcome)
    (s : Session) : Session :=
  let finish s := set_thread false (set_complete true s) in
  match compiled with
  | inr e => finish (set_complete true (set_error ("Error initializing debate: " +:+ e) s))
  | inl _ =>
      let initial_state :=
        Pipeline.initial_state (s_topic s) (s_background_info s) (num_rounds s) in
      let s1 := set_phase "initializing" (set_debate_state initial_state s) in
      let tracked_state := initial_state in
      match _run_with_timeout o s1 with
      | (s2, inl (Some result)) =>
          finish (set_complete true
                    (set_debate_state result
                       (_queue_state_updates tracked_state result s2)))
      | (s2, inl None) => finish (set_error "Debate timed out" s2)
      | (s2, inr e) =>
          finish (set_complete true
                    (set_error ("Error in debate execution: " +:+ e) s2))
      end
  end.

(** [StreamingDebateManager.start_debate_async]: the session once the new
    thread is started; nothing happens while a thread is alive. *)
Definition start_debate_async (s : Session) : Session :=
  if _debate_thread s then s
  else set_thread true (set_complete false s).

(** A call of [start_debate_async] followed by the whole run of the thread
    it started, if it started one. *)
Definition run_once (compiled : unit + string) (o : invoke_outcome)
    (s : Session) : Session :=
  if _debate_thread s then s
  else _run_debate_thread compiled o (start_debate_async s).

(** [StreamingDebateManager.get_debate_status], without [duration]. *)
Record Status := mkStatus {
  complete : bool;
  current_phase : option string;
  error : option string;
  has_updates : bool
}.

Definition get_debate_status (s : Session) : Status :=
  mkStatus (_debate_complete s) (_current_phase s) (_error_state s)
    (negb (bool_decide (_update_queue s = []))).

(** [StreamingDebateManager.get_updates]: the drained events and the
    session with its queue empty. *)
Definition get_updates (s : Session) : list UpdateEvent * Session :=
  (_update_queue s,
   mkSession (s_topic s) (s_background_info s) (num_rounds s) (debate_state s)
     (_debate_complete s) (_debate_thread s) [] (_current_phase s)
     (_error_state s)).

(** ** The events of one diff, field by field *)

(** The fields of a snapshot that can give an event, in the order in which
    the diff visits them. *)
Inductive slot :=
| SIntroduction
| SRound (i : nat) (update_type : string)
| SProConclusion
| SConConclusion
| SEvaluation.

#[global] Instance slot_eq_dec : EqDecision slot.
Proof. solve_decision. Defined.

Definition round_slots (i : nat) : list slot := SRound i <$> update_types.

(** All fields of a snapshot with [n] rounds, in the fixed order. *)
Definition slots (n : nat) : list slot :=
  [SIntroduction] ++ concat (round_slots <$> seq 0 n)
  ++ [SProConclusion; SConConclusion; SEvaluation].

Definition text_changed (old_text new_text : string) : bool :=
  truthy new_text && bool_decide (new_text <> old_text).

(** The rule of the code: the event a field gives, if any. A text field
    counts when its new text is not empty and differs from the old one. A
    field of a round counts when its key is present and either the old
    snapshot has no such round, or the text differs from the old text, an
    absent old key reading as the empty text. *)
Definition emit (old_state new_state : DebateState) (sl : slot)
    : option UpdateEvent :=
  match sl with
  | SIntroduction =>
      if text_changed (introduction old_state) (introduction new_state)
      then Some (mkEvent "introduction" None (introduction new_state) None)
      else None
  | SRound i update_type =>
      round ← rounds new_state !! i;
      content ← round !! update_type;
      match rounds old_state !! i with
      | None => Some (mkEvent update_type (Some (i + 1)) content None)
      | Some old_round =>
          if bool_decide (content <> default "" (old_round !! update_type))
          then Some (mkEvent update_type (Some (i + 1)) content None)
          else None
      end
  | SProConclusion =>
      if text_changed (pro_conclusion old_state) (pro_conclusion new_state)
      then Some (mkEvent "pro_conclusion" None (pro_conclusion new_state) None)
      else None
  | SConConclusion =>
      if text_changed (con_conclusion old_state) (con_conclusion new_state)
      then Some (mkEvent "con_conclusion" None (con_conclusion new_state) None)
      else None
  | SEvaluation =>
      if text_changed (evaluation old_state) (evaluation new_state)
      then Some (mkEvent "evaluation" None (evaluation new_state)
                   (Some (winner new_state, pro_score new_state,
                          con_score new_state)))
      else None
  end.

(** The value of a round field in a snapshot: [None] when the round or
    the key is missing. *)
Definition round_field (st : DebateState) (i : nat) (update_type : string)
    : option string :=
  round ← rounds st !! i; round !! update_type.

(** The rule as the specification words it: whether a round field gives an
    event is decided by the field alone, by [changed] of its old and its
    new value, whatever reading of "newly populated or newly changed"
    [changed] stands for. *)
Definition emit_by (changed : option string -> option string -> bool)
    (old_state new_state : DebateState) (sl : slot) : option UpdateEvent :=
  match sl with
  | SRound i update_type =>
      if changed (round_field old_state i update_type)
                 (round_field new_state i update_type)
      then Some (mkEvent update_type (Some (i + 1))
                   (default "" (round_field new_state i update_type)) None)
      else None
  | _ => emit old_state new_state sl
  end.

(** The pair that must not repeat. *)
Definition event_key (e : UpdateEvent) : string * option nat :=
  (ev_type e, ev_round e).

Definition slot_key (sl : slot) : string * option nat :=
  match sl with
  | SIntroduction => ("introduction", None)
  | SRound i update_type => (update_type, Some (i + 1))
  | SProConclusion => ("pro_conclusion", None)
  | SConConclusion => ("con_conclusion", None)
  | SEvaluation => ("evaluation", None)
  end.

Lemma events_of_app a b : events_of (a ++ b) = (events_of a ++ events_of b)%list.
Proof. unfold events_of. apply omap_app. Qed.

Lemma omap_cons {A B} (f : A -> option B) x (l : list A) :
  omap f (x :: l)
  = match f x with Some y => y :: omap f l | None => omap f l end.
Proof. reflexivity. Qed.

Lemma omap_omap {A B C} (f : A -> option B) (g : B -> option C) (l : list A) :
  omap g (omap f l) = omap (fun x => f x ≫= g) l.
Proof.
  induction l as [|x l IH]; [done|]. rewrite !omap_cons.
  destruct (f x) as [y|]; [|exact IH].
  change (Some y ≫= g) with (g y). rewrite omap_cons. by rewrite IH.
Qed.

Lemma omap_ext_fun {A B} (f g : A -> option B) (l : list A) :
  (forall x, f x = g x) -> omap f l = omap g l.
Proof.
  intros H. induction l as [|x l IH]; [done|].
  by rewrite !omap_cons, H, IH.
Qed.

Lemma omap_fmap_slots {B} (f : slot -> option B) i (l : list string) :
  omap f (SRound i <$> l) = omap (fun ut => f (SRound i ut)) l.
Proof.
  induction l as [|ut l IH]; [done|].
  rewrite fmap_cons, !omap_cons. by rewrite IH.
Qed.

Lemma events_of_round old_state new_state i round :
  rounds new_state !! i = Some round ->
  events_of (round_actions (rounds old_state) i round)
  = omap (emit old_state new_state) (round_slots i).
Proof.
  intros Hi. unfold round_actions, round_slots. rewrite omap_fmap_slots.
  destruct (rounds old_state !! i) as [old_round|] eqn:Ho.
  - unfold existing_round_updates, events_of. rewrite omap_omap.
    apply omap_ext_fun. intros ut. simpl. rewrite Hi, Ho. simpl.
    destruct (round !! ut); simpl; [|done]. by case_bool_decide.
  - change (events_of (SetPhase ?p :: ?l)) with (events_of l).
    unfold new_round_updates, events_of. rewrite omap_omap.
    apply omap_ext_fun. intros ut. simpl. rewrite Hi, Ho. simpl.
    by destruct (round !! ut).
Qed.

Lemma events_of_rounds old_state new_state news : forall i,
  (forall k, news !! k = rounds new_state !! (i + k)) ->
  events_of (rounds_actions (rounds old_state) i news)
  = omap (emit old_state new_state) (concat (round_slots <$> seq i (length news))).
Proof.
  induction news as [|round rest IH]; intros i Hnews; [done|].
  change (rounds_actions (rounds old_state) i (round :: rest))
    with (round_actions (rounds old_state) i round
          ++ rounds_actions (rounds old_state) (S i) rest)%list.
  change (concat (round_slots <$> seq i (length (round :: rest))))
    with (round_slots i ++ concat (round_slots <$> seq (S i) (length rest)))%list.
  rewrite events_of_app, omap_app. f_equal.
  - apply events_of_round. specialize (Hnews 0%nat).
    rewrite Nat.add_0_r in Hnews. by rewrite <- Hnews.
  - apply IH. intros k. specialize (Hnews (S k)). simpl in Hnews.
    rewrite Hnews. f_equal. lia.
Qed.

Lemma text_changed_sym (a b : string) :
  bool_decide (a <> b) && truthy b = text_changed a b.
Proof.
  unfold text_changed. rewrite andb_comm. f_equal.
  apply bool_decide_ext. split; congruence.
Qed.

(** The events of a diff are the events of its fields, taken in the fixed
    order. *)
Lemma queued_events_by_slot old_state new_state :
  queued_events old_state new_state
  = omap (emit old_state new_state) (slots (length (rounds new_state))).
Proof.
  unfold queued_events, queue_actions, slots.
  rewrite !events_of_app, !omap_app. f_equal; [|f_equal].
  - unfold introduction_actions. simpl. rewrite text_changed_sym.
    by destruct (text_changed _ _).
  - by apply events_of_rounds.
  - simpl. unfold conclusion_actions, evaluation_actions, text_changed.
    destruct (truthy (pro_conclusion new_state) && _);
      destruct (truthy (con_conclusion new_state) && _);
      destruct (truthy (evaluation new_state) && _); reflexivity.
Qed.

Lemma emit_key old_state new_state sl e :
  emit old_state new_state sl = Some e -> event_key e = slot_key sl.
Proof.
  destruct sl as [|i ut| | |]; simpl;
    try (destruct (text_changed _ _); [|done]; by intros [= <-]).
  destruct (rounds new_state !! i) as [round|]; [|done]. simpl.
  destruct (round !! ut) as [content|]; [|done]. simpl.
  destruct (rounds old_state !! i) as [old_round|]; [|by intros [= <-]].
  case_bool_decide; [|done]. by intros [= <-].
Qed.

#[global] Instance slot_key_inj : Inj (=) (=) slot_key.
Proof.
  intros [|i ut| | |] [|j ut'| | |]; simpl; intros H; try done.
  injection H as -> H. f_equal. lia.
Qed.

Lemma elem_of_round_slots_seq x n : forall i,
  x ∈ concat (round_slots <$> seq i n) ->
  exists j ut, x = SRound j ut /\ i <= j.
Proof.
  induction n as [|n IH]; intros i Hx.
  - by apply elem_of_nil in Hx.
  - change (concat (round_slots <$> seq i (S n)))
      with (round_slots i ++ concat (round_slots <$> seq (S i) n))%list in Hx.
    apply elem_of_app in Hx as [Hx|Hx].
    + unfold round_slots in Hx. apply list_elem_of_fmap in Hx as (ut & -> & _).
      by exists i, ut.
    + destruct (IH (S i) Hx) as (j & ut & -> & Hj). exists j, ut. split; [done|lia].
Qed.

Lemma NoDup_update_types : NoDup update_types.
Proof. compute_done. Qed.

Lemma NoDup_round_slots_seq n : forall i, NoDup (concat (round_slots <$> seq i n)).
Proof.
  induction n as [|n IH]; intros i; [constructor|].
  change (concat (round_slots <$> seq i (S n)))
    with (round_slots i ++ concat (round_slots <$> seq (S i) n))%list.
  apply NoDup_app. split; [|split; [|apply IH]].
  - unfold round_slots. apply NoDup_fmap_2; [|apply NoDup_update_types].
    by intros ut ut' [= ->].
  - intros x Hx Hx'. unfold round_slots in Hx.
    apply list_elem_of_fmap in Hx as (ut & -> & _).
    apply elem_of_round_slots_seq in Hx' as (j & ut' & [= <- _] & Hj). lia.
Qed.

Lemma NoDup_slots n : NoDup (slots n).
Proof.
  unfold slots. apply NoDup_app. split; [|split].
  - apply NoDup_singleton.
  - intros x ->%list_elem_of_singleton Hx. apply elem_of_app in Hx as [Hx|Hx].
    + by apply elem_of_round_slots_seq in Hx as (j & ut & ? & _).
    + by repeat (apply elem_of_cons in Hx as [Hx|Hx]; [done|]);
        apply elem_of_nil in Hx.
  - apply NoDup_app. split; [apply NoDup_round_slots_seq|split].
    + intros x Hx Hx'. apply elem_of_round_slots_seq in Hx as (j & ut & -> & _).
      by repeat (apply elem_of_cons in Hx' as [Hx'|Hx']; [done|]);
        apply elem_of_nil in Hx'.
    + compute_done.
Qed.

Lemma NoDup_omap_keys (f : slot -> option UpdateEvent) (l : list slot) :
  (forall sl e, f sl = Some e -> event_key e = slot_key sl) ->
  NoDup l -> NoDup (event_key <$> omap f l).
Proof.
  intros Hf. induction 1 as [|sl l Hnin Hl IH]; simpl; [constructor|].
  destruct (f sl) as [e|] eqn:He; [|done]. simpl. constructor; [|done].
  intros Hin. apply list_elem_of_fmap in Hin as (e' & Hk & Hin).
  apply list_elem_of_omap in Hin as (sl' & Hsl' & He').
  apply Hf in He, He'. apply Hnin.
  assert (sl = sl') as -> by (apply (inj slot_key); congruence). done.
Qed.

Lemma queued_events_NoDup old_state new_state :
  NoDup (event_key <$> queued_events old_state new_state).
Proof.
  rewrite queued_events_by_slot.
  apply NoDup_omap_keys; [apply emit_key | apply NoDup_slots].
Qed.

(** Running the actions appends their events to the queue. *)
Lemma foldl_run_action_queue acts : forall s,
  _update_queue (foldl run_action s acts) = (_update_queue s ++ events_of acts)%list.
Proof.
  induction acts as [|a acts IH]; intros s; simpl.
  - by rewrite app_nil_r.
  - rewrite IH. destruct a as [p|e]; simpl; [done|].
    by rewrite <- app_assoc.
Qed.

Lemma _queue_state_updates_queue old_state new_state s :
  _update_queue (_queue_state_updates old_state new_state s)
  = (_update_queue s ++ queued_events old_state new_state)%list.
Proof. apply foldl_run_action_queue. Qed.

(** C6, as amended. For every pair of snapshots and every session, the
    diffing step appends to the queue one event for each field that
    [emit] counts as newly populated or changed, in the fixed order of
    [slots]: introduction; round by round in ascending order pro_argument,
    pro_fact_check, con_argument, con_fact_check; pro_conclusion;
    con_conclusion; evaluation, which carries winner, pro_score and
    con_score. A text field counts when its new text is non-empty and
    differs from the old text; a field of a round the old snapshot lacks
    counts when its key is present; a field of a round the old snapshot
    has counts when its key is present and its text differs from the old
    text, an absent old key reading as the empty text. *)
Theorem diff_emits_changed_fields_in_order :
  forall (old_state new_state : DebateState) (s : Session),
    _update_queue (_queue_state_updates old_state new_state s)
    = (_update_queue s
       ++ omap (emit old_state new_state) (slots (length (rounds new_state))))%list.
Proof.
  intros old_state new_state s.
  by rewrite _queue_state_updates_queue, queued_events_by_slot.
Qed.

(** Two snapshots with one round whose [pro_argument] is the empty text. *)
Definition empty_argument_state : DebateState :=
  mkState "t" "b" 0 1 "" [ <["pro_argument" := ""]> ∅ ] "" "" "" None 0 0.

(** The same snapshot with the round still empty. *)
Definition empty_round_state : DebateState :=
  mkState "t" "b" 0 1 "" [ ∅ ] "" "" "" None 0 0.

(** C6 as stated fails: no reading of "newly populated or newly changed"
    that looks at the field alone agrees with the code. The pro_argument
    of round 1 goes from absent to the empty text both from
    [initial_state] and from [empty_round_state] to
    [empty_argument_state]; the first diff emits an event for it, the
    second does not. *)
Lemma no_field_rule_matches_diff :
  ~ exists changed : option string -> option string -> bool,
      forall old_state new_state,
        queued_events old_state new_state
        = omap (emit_by changed old_state new_state)
            (slots (length (rounds new_state))).
Proof.
  intros [changed H].
  pose proof (H (initial_state "t" "b" 1) empty_argument_state) as Ha.
  pose proof (H empty_round_state empty_argument_state) as Hb.
  vm_compute in Ha, Hb.
  destruct (changed None (Some EmptyString)); [|destruct (changed None None)];
    congruence.
Qed.

(** C5, as amended. One call of [start_debate_async] together with the
    run it starts pushes no two events with the same (tag, round) pair,
    whatever the outcome of the run; a call made while a thread is alive
    pushes nothing. *)
Theorem one_run_pushes_each_key_once :
  forall (compiled : unit + string) (o : invoke_outcome) (s : Session),
    exists pushed,
      _update_queue (run_once compiled o s) = (_update_queue s ++ pushed)%list /\
      NoDup (event_key <$> pushed).
Proof.
  intros compiled o s. unfold run_once.
  destruct (_debate_thread s) eqn:Halive.
  { exists []. split; [by rewrite app_nil_r | constructor]. }
  unfold start_debate_async. rewrite Halive.
  destruct compiled as [[]|e].
  - destruct o as [result|e|]; simpl.
    + eexists. split; [|apply queued_events_NoDup].
      by rewrite _queue_state_updates_queue.
    + exists []. split; [by rewrite app_nil_r | constructor].
    + exists []. split; [by rewrite app_nil_r | constructor].
  - exists []. split; [by rewrite app_nil_r | constructor].
Qed.

(** The final state of a one-round debate. *)
Definition finished_debate : DebateState :=
  mkState "t" "b" 1 1 "intro"
    [ <["con_fact_check" := "ok"]> (<["con_argument" := "c"]>
        (<["pro_fact_check" := "ok"]> (<["pro_argument" := "p"]> ∅))) ]
    "pc" "cc" "Pro: 90 points. Con: 60 points." (Some "Pro") 90 60.

(** C5 as stated fails over two runs of one session: the second
    [start_debate_async], made after the first thread has ended, starts a
    new run that diffs against a new initial state and pushes the same
    (tag, round) pairs again. *)
Lemma second_run_repeats_keys :
  let s1 := run_once (inl tt) (Returned finished_debate) (new_session "t" "b" 1) in
  let s2 := run_once (inl tt) (Returned finished_debate) s1 in
  NoDup (event_key <$> _update_queue s1) /\
  ~ NoDup (event_key <$> _update_queue s2) /\
  (event_key <$> _update_queue s2) !! 0%nat = Some ("introduction", None) /\
  (event_key <$> _update_queue s2) !! 8%nat = Some ("introduction", None).
Proof.
  intros s1 s2. split; [|split; [|split]].
  - compute_done.
  - intros Hnodup.
    assert ((event_key <$> _update_queue s2) !! 0%nat = Some ("introduction", None))
      as H0 by (by vm_compute).
    assert ((event_key <$> _update_queue s2) !! 8%nat = Some ("introduction", None))
      as H8 by (by vm_compute).
    pose proof (NoDup_lookup _ _ _ _ Hnodup H0 H8). done.
  - by vm_compute.
  - by vm_compute.
Qed.

(** ** The phase marker *)

(** The phase after a sequence of actions. *)
Definition final_phase (phase : option string) (acts : list action)
    : option string :=
  foldl (fun p a => match a with SetPhase q => Some q | Put _ => p end) phase acts.

(** Each event with the phase marker at the moment it is queued. *)
Fixpoint phases_at_puts (phase : option string) (acts : list action)
    : list (UpdateEvent * option string) :=
  match acts with
  | [] => []
  | SetPhase p :: rest => phases_at_puts (Some p) rest
  | Put e :: rest => (e, phase) :: phases_at_puts phase rest
  end.

Lemma foldl_run_action_phase acts : forall s,
  _current_phase (foldl run_action s acts) = final_phase (_current_phase s) acts.
Proof.
  unfold final_phase. induction acts as [|a acts IH]; intros s; [done|].
  simpl. rewrite IH. by destruct a.
Qed.

Lemma final_phase_app p a b :
  final_phase p (a ++ b) = final_phase (final_phase p a) b.
Proof. unfold final_phase. apply foldl_app. Qed.

Lemma phases_at_puts_app a : forall p b,
  phases_at_puts p (a ++ b)
  = (phases_at_puts p a ++ phases_at_puts (final_phase p a) b)%list.
Proof.
  induction a as [|[q|e] a IH]; intros p b; [done| |].
  - apply (IH (Some q)).
  - simpl. f_equal. apply (IH p).
Qed.

(** The session right after the event [e] was queued is one of the
    entries of [phases_at_puts]. *)
Lemma phase_after_put acts pre e post s :
  acts = (pre ++ Put e :: post)%list ->
  (e, _current_phase (foldl run_action s (pre ++ [Put e])))
  ∈ phases_at_puts (_current_phase s) acts.
Proof.
  intros ->. rewrite foldl_run_action_phase, final_phase_app.
  rewrite phases_at_puts_app. apply elem_of_app. right. simpl. left.
Qed.

Lemma phases_new_round_updates p i (round : round_data) l e q :
  (e, q) ∈ phases_at_puts p
    (omap (fun update_type =>
             match round !! update_type with
             | Some content =>
                 Some (Put (mkEvent update_type (Some (i + 1)) content None))
             | None => None
             end) l) ->
  ev_round e = Some (i + 1) /\ q = p.
Proof.
  induction l as [|ut l IH]; [intros H; by apply elem_of_nil in H|].
  rewrite omap_cons. destruct (round !! ut); [|done].
  simpl. intros [[= -> ->]|H]%elem_of_cons; [done | by apply IH].
Qed.

Lemma final_phase_new_round_updates p i (round : round_data) l :
  final_phase p
    (omap (fun update_type =>
             match round !! update_type with
             | Some content =>
                 Some (Put (mkEvent update_type (Some (i + 1)) content None))
             | None => None
             end) l) = p.
Proof.
  induction l as [|ut l IH]; [done|].
  rewrite omap_cons. by destruct (round !! ut).
Qed.

Lemma phases_existing_round_updates p i (round old_round : round_data) l e q :
  (e, q) ∈ phases_at_puts p
    (omap (fun update_type =>
             match round !! update_type with
             | Some content =>
                 if bool_decide (content <> default "" (old_round !! update_type))
                 then Some (Put (mkEvent update_type (Some (i + 1)) content None))
                 else None
             | None => None
             end) l) ->
  ev_round e = Some (i + 1) /\ q = p.
Proof.
  induction l as [|ut l IH]; [intros H; by apply elem_of_nil in H|].
  rewrite omap_cons. destruct (round !! ut); [|done].
  case_bool_decide as Hne; [|done].
  simpl. intros [[= -> ->]|Hin]%elem_of_cons; [done | by apply IH].
Qed.

Lemma final_phase_existing_round_updates p i (round old_round : round_data) l :
  final_phase p
    (omap (fun update_type =>
             match round !! update_type with
             | Some content =>
                 if bool_decide (content <> default "" (old_round !! update_type))
                 then Some (Put (mkEvent update_type (Some (i + 1)) content None))
                 else None
             | None => None
             end) l) = p.
Proof.
  induction l as [|ut l IH]; [done|].
  rewrite omap_cons. destruct (round !! ut); [|done]. by case_bool_decide.
Qed.

(** The events of the rounds loop entered at index [i] with phase [p]: an
    event of a round the old snapshot lacks is queued under that round's
    phase, an event of a round the old snapshot has under the phase the
    loop was entered with. *)
Lemma phases_rounds_actions old_rounds news : forall i p e q,
  (e, q) ∈ phases_at_puts p (rounds_actions old_rounds i news) ->
  exists n, ev_round e = Some n /\ i < n /\
    ((length old_rounds < n /\ q = Some ("round_" +:+ pretty n)) \/
     (n <= length old_rounds /\ q = p)).
Proof.
  induction news as [|round rest IH]; intros i p e q H;
    [by apply elem_of_nil in H|].
  change (rounds_actions old_rounds i (round :: rest))
    with (round_actions old_rounds i round
          ++ rounds_actions old_rounds (S i) rest)%list in H.
  rewrite phases_at_puts_app in H. unfold round_actions in H.
  destruct (old_rounds !! i) as [old_round|] eqn:Ho.
  - apply lookup_lt_Some in Ho.
    unfold existing_round_updates in H.
    rewrite final_phase_existing_round_updates in H.
    apply elem_of_app in H as [H|H].
    + apply phases_existing_round_updates in H as [He ->].
      exists (i + 1). split; [done|]. split; [lia|]. right. split; [lia|done].
    + destruct (IH _ _ _ _ H) as (n & Hn & Hi & Hcases).
      exists n. split; [done|]. split; [lia|done].
  - apply lookup_ge_None in Ho. unfold new_round_updates in H.
    change (final_phase p (SetPhase ?x :: ?l)) with (final_phase (Some x) l) in H.
    rewrite final_phase_new_round_updates in H.
    apply elem_of_app in H as [H|H].
    + change (phases_at_puts p (SetPhase ?x :: ?l))
        with (phases_at_puts (Some x) l) in H.
      apply phases_new_round_updates in H as [He ->].
      exists (i + 1). split; [done|]. split; [lia|]. left. split; [lia|done].
    + destruct (IH _ _ _ _ H) as (n & Hn & Hi & [Hnew|[Hold _]]).
      * exists n. split; [done|]. split; [lia|]. by left.
      * lia.
Qed.

Lemma phases_text_actions p tag text verdict (b : bool) e q :
  (e, q) ∈ phases_at_puts p
    (if b then [SetPhase tag; Put (mkEvent tag None text verdict)] else []) ->
  ev_round e = None /\ q = Some (ev_type e).
Proof.
  destruct b; simpl; [|intros H; by apply elem_of_nil in H].
  intros [[= -> ->]|H]%elem_of_cons; [done | by apply elem_of_nil in H].
Qed.

(** Every event of a diff, with the phase marker at the moment it is
    queued. *)
Lemma phases_queue_actions old_state new_state p e q :
  (e, q) ∈ phases_at_puts p (queue_actions old_state new_state) ->
  (ev_round e = None /\ q = Some (ev_type e)) \/
  exists n, ev_round e = Some n /\
    ((length (rounds old_state) < n /\ q = Some ("round_" +:+ pretty n)) \/
     (n <= length (rounds old_state) /\
      q = final_phase p (introduction_actions old_state new_state))).
Proof.
  unfold queue_actions. rewrite !phases_at_puts_app.
  unfold conclusion_actions, evaluation_actions.
  intros [H|[H|[H|[H|H]%elem_of_app]%elem_of_app]%elem_of_app]%elem_of_app.
  - left. unfold introduction_actions in H. by eapply phases_text_actions.
  - right. apply phases_rounds_actions in H as (n & Hn & _ & Hcases). eauto.
  - left. by eapply phases_text_actions.
  - left. by eapply phases_text_actions.
  - left. by eapply phases_text_actions.
Qed.

(** C9, as amended. Right after the diffing step has queued an event: if
    it is an introduction, pro_conclusion, con_conclusion or evaluation
    event (an event without round), the phase marker is its tag; if it
    belongs to a round the old snapshot lacks, the marker is
    [round_<n>], [n] being the 1-based round; if it belongs to a round
    the old snapshot already has, the marker is what it was when the loop
    over the rounds was entered. *)
Theorem phase_after_each_event :
  forall (old_state new_state : DebateState) (s : Session)
         (pre post : list action) (e : UpdateEvent),
    queue_actions old_state new_state = (pre ++ Put e :: post)%list ->
    let s' := foldl run_action s (pre ++ [Put e]) in
    (ev_round e = None -> _current_phase s' = Some (ev_type e)) /\
    (forall n, ev_round e = Some n -> length (rounds old_state) < n ->
               _current_phase s' = Some ("round_" +:+ pretty n)) /\
    (forall n, ev_round e = Some n -> n <= length (rounds old_state) ->
               _current_phase s'
               = _current_phase
                   (foldl run_action s (introduction_actions old_state new_state))).
Proof.
  intros old_state new_state s pre post e Hsplit s'.
  pose proof (phase_after_put _ _ _ _ s Hsplit) as Hin. fold s' in Hin.
  apply phases_queue_actions in Hin as [[Hr Hq]|(n & Hr & Hcases)].
  - split; [done|]. split; intros n Hn; congruence.
  - split; [congruence|].
    split; intros n' Hn' Hlen;
      assert (n' = n) as -> by congruence;
      destruct Hcases as [[Hlt Hq]|[Hle Hq]]; try lia; [done|].
    by rewrite foldl_run_action_phase.
Qed.

(** A first round with only the pro argument written. *)
Definition first_argument_state : DebateState :=
  mkState "t" "b" 0 1 "" [ <["pro_argument" := "p"]> ∅ ] "" "" "" None 0 0.

Definition first_argument_event : UpdateEvent :=
  mkEvent "pro_argument" (Some 1%nat) "p" None.

Lemma phase_after_each_event_witness :
  let s' := foldl run_action (new_session "t" "b" 1)
              ([SetPhase "round_1"] ++ [Put first_argument_event]) in
  (ev_round first_argument_event = None ->
   _current_phase s' = Some (ev_type first_argument_event)) /\
  (forall n, ev_round first_argument_event = Some n ->
             length (rounds (initial_state "t" "b" 1)) < n ->
             _current_phase s' = Some ("round_" +:+ pretty n)) /\
  (forall n, ev_round first_argument_event = Some n ->
             n <= length (rounds (initial_state "t" "b" 1)) ->
             _current_phase s'
             = _current_phase
                 (foldl run_action (new_session "t" "b" 1)
                    (introduction_actions (initial_state "t" "b" 1)
                       first_argument_state))).
Proof.
  apply (phase_after_each_event (initial_state "t" "b" 1) first_argument_state
           (new_session "t" "b" 1) [SetPhase "round_1"] [] first_argument_event).
  vm_compute. reflexivity.
Defined.

(** C9 as stated fails on the events of a round: after the pro_argument
    of round 1 is queued the marker is "round_1", not "pro_argument". *)
Lemma round_event_leaves_round_phase :
  let s' := _queue_state_updates (initial_state "t" "b" 1) first_argument_state
              (new_session "t" "b" 1) in
  _update_queue s' = [first_argument_event] /\
  _current_phase s' = Some "round_1" /\
  _current_phase s' <> Some (ev_type first_argument_event).
Proof. intros s'. split; [|split]; by vm_compute. Qed.

(** ** The deadline *)

(** C8, as amended. After a run whose pipeline work is still running when
    the deadline expires, the status reports [complete = true], the error
    "Debate timed out" and the phase "timeout"; nothing was queued, and
    [debate_state] holds the initial state stored when the run began, not
    a result of the pipeline. *)
Theorem timed_out_run_reports_timeout :
  forall s : Session,
    let s' := _run_debate_thread (inl tt) TimedOut s in
    complete (get_debate_status s') = true /\
    error (get_debate_status s') = Some "Debate timed out" /\
    "Debate timed out" = "Debate " +:+ "timed out" /\
    current_phase (get_debate_status s') = Some "timeout" /\
    _update_queue s' = _update_queue s /\
    debate_state s'
    = Some (initial_state (s_topic s) (s_background_info s) (num_rounds s)).
Proof. intros s. by repeat split. Qed.

(** C8 as stated fails on its last part: the run does set [debate_state].
    A session that has never run holds [None]; after a timed-out run it
    holds the initial state. *)
Lemma timed_out_run_sets_debate_state :
  debate_state (new_session "t" "b" 3) = None /\
  debate_state (_run_debate_thread (inl tt) TimedOut (new_session "t" "b" 3))
  = Some (initial_state "t" "b" 3) /\
  debate_state (_run_debate_thread (inl tt) TimedOut (new_session "t" "b" 3))
  <> None.
Proof. by repeat split. Qed.

(* ===================================================================== *)
(** ** A diff against the same snapshot, and the size of a diff *)

Lemma omap_None {A B} (f : A -> option B) (l : list A) :
  (forall x, f x = None) -> omap f l = [].
Proof.
  intros H. induction l as [|x l IH]; [done|].
  rewrite omap_cons, H. exact IH.
Qed.

Lemma existing_round_updates_same i (round : round_data) :
  existing_round_updates i round round = [].
Proof.
  unfold existing_round_updates. apply omap_None. intros update_type.
  destruct (round !! update_type) as [content|]; [|done]. simpl.
  by rewrite bool_decide_eq_false_2 by (intros H; by apply H).
Qed.

Lemma rounds_actions_same (rs : list round_data) : forall pre,
  rounds_actions (pre ++ rs) (length pre) rs = [].
Proof.
  induction rs as [|round rs IH]; intros pre; [done|].
  simpl. unfold round_actions. rewrite list_lookup_middle by done.
  rewrite existing_round_updates_same. simpl.
  specialize (IH (pre ++ [round])%list).
  by rewrite <- app_assoc, length_app, Nat.add_1_r in IH.
Qed.

(** X21. Diffing a snapshot against itself changes nothing in the session: no
    event is queued and the phase marker is left alone. *)
Theorem diff_of_same_snapshot_changes_nothing :
  forall (d : DebateState) (s : Session), _queue_state_updates d d s = s.
Proof.
  intros d s. unfold _queue_state_updates.
  assert (queue_actions d d = []) as ->; [|done].
  unfold queue_actions, introduction_actions, conclusion_actions,
    evaluation_actions.
  pose proof (rounds_actions_same (rounds d) []) as Hr. simpl in Hr. rewrite Hr.
  rewrite !(bool_decide_eq_false_2 (_ <> _)) by (intros H; by apply H).
  by rewrite !andb_false_r.
Qed.

Lemma length_omap_le {A B} (f : A -> option B) (l : list A) :
  length (omap f l) <= length l.
Proof.
  induction l as [|x l IH]; [done|].
  rewrite omap_cons. destruct (f x); simpl; lia.
Qed.

Lemma length_round_slots_seq n : forall i,
  length (concat (round_slots <$> seq i n)) = 4 * n.
Proof.
  induction n as [|n IH]; intros i; [done|].
  change (concat (round_slots <$> seq i (S n)))
    with (round_slots i ++ concat (round_slots <$> seq (S i) n))%list.
  rewrite length_app, IH. simpl. lia.
Qed.

Lemma length_slots n : length (slots n) = 4 * n + 4.
Proof.
  unfold slots. rewrite !length_app, length_round_slots_seq. simpl. lia.
Qed.

(** X22. One diff queues at most four events for each round of the new
    snapshot and four more. *)
Theorem diff_queues_at_most_four_events_a_round :
  forall (old_state new_state : DebateState) (s : Session),
    length (_update_queue (_queue_state_updates old_state new_state s))
    <= length (_update_queue s) + 4 * length (rounds new_state) + 4.
Proof.
  intros old_state new_state s.
  rewrite _queue_state_updates_queue, queued_events_by_slot, length_app.
  pose proof (length_omap_le (emit old_state new_state)
                (slots (length (rounds new_state)))) as H.
  rewrite length_slots in H. lia.
Qed.

(* ===================================================================== *)
(** ** What a finished debate streams *)

(** The four events of the round that the arguments [a] make. *)
Definition round_events (check_facts : string -> string) (i : nat)
    (a : string * string) : list UpdateEvent :=
  [mkEvent "pro_argument" (Some (i + 1)) a.1 None;
   mkEvent "pro_fact_check" (Some (i + 1)) (check_facts a.1) None;
   mkEvent "con_argument" (Some (i + 1)) a.2 None;
   mkEvent "con_fact_check" (Some (i + 1)) (check_facts a.2) None].

Fixpoint rounds_events (check_facts : string -> string) (i : nat)
    (args : list (string * string)) : list UpdateEvent :=
  match args with
  | [] => []
  | a :: rest =>
      round_events check_facts i a ++ rounds_events check_facts (S i) rest
  end.

(** The events of a whole debate, in the order of the debate. *)
Definition transcript_events (check_facts : string -> string) (t : transcript)
    : list UpdateEvent :=
  let '(p, c, w) := Scorekeeper._parse_evaluation (t_evaluation t) in
  mkEvent "introduction" None (t_introduction t) None
  :: rounds_events check_facts 0 (t_arguments t)
  ++ [mkEvent "pro_conclusion" None (t_pro_conclusion t) None;
      mkEvent "con_conclusion" None (t_con_conclusion t) None;
      mkEvent "evaluation" None (t_evaluation t) (Some (Some w, p, c))].

Lemma rounds_actions_new check_facts (args : list (string * string)) : forall i,
  events_of (rounds_actions [] i (round_of check_facts <$> args))
  = rounds_events check_facts i args.
Proof.
  induction args as [|a args IH]; intros i; [done|].
  rewrite fmap_cons.
  change (rounds_actions [] i
            (round_of check_facts a :: (round_of check_facts <$> args)))
    with (round_actions [] i (round_of check_facts a)
          ++ rounds_actions [] (S i) (round_of check_facts <$> args))%list.
  rewrite events_of_app, IH. f_equal.
Qed.

(** The diffing step touches the queue and the phase marker only. *)
Lemma foldl_run_action_frame acts : forall s,
  let s' := foldl run_action s acts in
  _error_state s' = _error_state s /\ _debate_complete s' = _debate_complete s /\
  _debate_thread s' = _debate_thread s /\ debate_state s' = debate_state s /\
  s_topic s' = s_topic s /\ s_background_info s' = s_background_info s /\
  num_rounds s' = num_rounds s.
Proof.
  induction acts as [|a acts IH]; intros s; [done|].
  simpl. destruct (IH (run_action s a)) as (H1 & H2 & H3 & H4 & H5 & H6 & H7).
  rewrite H1, H2, H3, H4, H5, H6, H7. by destruct a.
Qed.

Lemma final_phase_evaluation p acts e :
  final_phase p (acts ++ [SetPhase "evaluation"; Put e]) = Some "evaluation".
Proof. by rewrite final_phase_app. Qed.

(** X23. The whole way from the model's texts to the queue. A new session runs
    a debate of one round or more in which the model returns no empty
    text; the pipeline, run on those texts, returns [result]. Then the
    queue holds the events of the debate in the order of the debate, four
    for each round between the introduction and the three closing ones;
    the session holds [result]; and the status is complete, in phase
    "evaluation", without error, with updates to fetch. *)
Theorem streamed_debate_delivers_transcript :
  forall (tp bg : string) (check_facts : string -> string) (t : transcript)
         (result : DebateState),
    t_arguments t <> [] ->
    Forall (fun a => a.1 <> "" /\ a.2 <> "") (t_arguments t) ->
    t_introduction t <> "" -> t_pro_conclusion t <> "" ->
    t_con_conclusion t <> "" -> t_evaluation t <> "" ->
    run_script check_facts (script_of t)
      (Set_debate, initial_state tp bg (Z.of_nat (length (t_arguments t))))
    = Some (END, result) ->
    let s' := run_once (inl tt) (Returned result)
                (new_session tp bg (Z.of_nat (length (t_arguments t)))) in
    _update_queue s' = transcript_events check_facts t /\
    length (_update_queue s') = 4 * length (t_arguments t) + 4 /\
    debate_state s' = Some result /\
    get_debate_status s' = mkStatus true (Some "evaluation") None true.
Proof.
  intros tp bg check_facts t result Hne Hall Hi Hpc Hcc Hev Hrun.
  rewrite (run_transcript tp bg check_facts t Hne Hall) in Hrun.
  injection Hrun as <-.
  destruct t as [intro args pc cc ev]. simpl in Hne, Hall, Hi, Hpc, Hcc, Hev.
  intros s'.
  assert (forall i, length (rounds_events check_facts i args) = 4 * length args)
    as Hlen.
  { clear. induction args as [|a args IH]; intros i; [done|].
    simpl. rewrite IH. lia. }
  assert (_update_queue s'
          = transcript_events check_facts (mkTranscript intro args pc cc ev))
    as Hq.
  { unfold s', run_once, _run_debate_thread, start_debate_async. simpl.
    rewrite _queue_state_updates_queue. simpl.
    unfold queued_events, queue_actions, transcript_events, final_state. simpl.
    destruct (Scorekeeper._parse_evaluation ev) as [[p c] w]. simpl.
    unfold introduction_actions, conclusion_actions, evaluation_actions. simpl.
    rewrite !(bool_decide_eq_true_2 (_ <> _)) by (by intros ?).
    rewrite (truthy_true intro), (truthy_true pc), (truthy_true cc),
      (truthy_true ev) by done.
    simpl. rewrite !events_of_app, rounds_actions_new. reflexivity. }
  split; [exact Hq|]. split.
  { rewrite Hq. unfold transcript_events. simpl.
    destruct (Scorekeeper._parse_evaluation ev) as [[p c] w]. simpl.
    rewrite length_app, Hlen. simpl. lia. }
  split; [done|].
  assert (_current_phase s' = Some "evaluation") as Hph.
  { unfold s', run_once, _run_debate_thread, start_debate_async,
      _queue_state_updates. simpl.
    rewrite foldl_run_action_phase. unfold queue_actions.
    rewrite !app_assoc. unfold evaluation_actions, final_state. simpl.
    destruct (Scorekeeper._parse_evaluation ev) as [[p c] w]. simpl.
    rewrite (truthy_true ev Hev).
    rewrite (bool_decide_eq_true_2 (ev <> "")) by done. simpl.
    apply final_phase_evaluation. }
  assert (_debate_complete s' = true) as Hc by reflexivity.
  assert (_error_state s' = None) as He.
  { unfold s', run_once, _run_debate_thread, start_debate_async,
      _queue_state_updates. simpl.
    by rewrite (proj1 (foldl_run_action_frame _ _)). }
  unfold get_debate_status. rewrite Hph, Hc, He, Hq.
  unfold transcript_events. simpl.
  by destruct (Scorekeeper._parse_evaluation ev) as [[p c] w].
Qed.

Lemma streamed_debate_delivers_transcript_witness :
  let s' := run_once (inl tt)
              (Returned (final_state "t" "b" check_ok two_round_transcript))
              (new_session "t" "b" 2) in
  _update_queue s' = transcript_events check_ok two_round_transcript /\
  length (_update_queue s') = 12 /\
  debate_state s' = Some (final_state "t" "b" check_ok two_round_transcript) /\
  get_debate_status s' = mkStatus true (Some "evaluation") None true.
Proof.
  apply (streamed_debate_delivers_transcript "t" "b" check_ok
           two_round_transcript
           (final_state "t" "b" check_ok two_round_transcript)).
  - done.
  - by repeat constructor.
  - done.
  - done.
  - done.
  - done.
  - by vm_compute.
Defined.

(* ===================================================================== *)
(** ** What a run reports *)

(** X24. Whatever way a run ends, it ends complete and with its thread gone.
    An error is reported unless the pipeline returned; and once an error
    is set nothing clears it, so a session reports the error of an
    earlier run after a later one that went well. *)
Theorem run_ends_complete_and_keeps_errors :
  forall (compiled : unit + string) (o : invoke_outcome) (s : Session),
    _debate_thread s = false ->
    let s' := run_once compiled o s in
    _debate_complete s' = true /\ _debate_thread s' = false /\
    (is_Some (_error_state s) -> is_Some (_error_state s')) /\
    ((exists r, compiled = inl tt /\ o = Returned r /\
                debate_state s' = Some r /\ _error_state s' = _error_state s) \/
     ((forall r, compiled = inl tt -> o <> Returned r) /\
      is_Some (_error_state s') /\
      _update_queue s' = _update_queue s)).
Proof.
  intros compiled o s Halive s'. unfold s', run_once. rewrite Halive.
  unfold start_debate_async. rewrite Halive.
  destruct compiled as [[]|e]; [destruct o as [r|e|]|]; simpl.
  - destruct (foldl_run_action_frame
                (queue_actions
                   (initial_state (s_topic s) (s_background_info s) (num_rounds s)) r)
                (set_phase "executing"
                   (set_phase "initializing"
                      (set_debate_state
                         (initial_state (s_topic s) (s_background_info s)
                            (num_rounds s))
                         (set_thread true (set_complete false s))))))
      as (He & _).
    unfold _queue_state_updates. rewrite He. simpl.
    split; [done|]. split; [done|]. split; [done|]. left. by exists r.
  - split; [done|]. split; [done|]. split; [by eexists|]. right.
    split; [by intros r _ ?|]. split; [by eexists | done].
  - split; [done|]. split; [done|]. split; [by eexists|]. right.
    split; [by intros r _ ?|]. split; [by eexists | done].
  - split; [done|]. split; [done|]. split; [by eexists|]. right.
    split; [by intros r ?|]. split; [by eexists | done].
Qed.

Lemma run_ends_complete_and_keeps_errors_witness :
  let s := run_once (inl tt) TimedOut (new_session "t" "b" 1) in
  let s' := run_once (inl tt) (Returned finished_debate) s in
  _debate_complete s' = true /\ _error_state s' = Some "Debate timed out".
Proof.
  intros s s'.
  destruct (run_ends_complete_and_keeps_errors (inl tt)
              (Returned finished_debate) s) as (Hc & _ & _ & Hr).
  - reflexivity.
  - split; [exact Hc|].
    destruct Hr as [(r & _ & _ & _ & He)|(Hno & _)].
    + unfold s'. rewrite He. reflexivity.
    + by destruct (Hno finished_debate).
Defined.

(* ===================================================================== *)
(** ** Fetching updates *)

(** What the page does with a session: it starts a run (taken here with
    the whole run of the thread) or it fetches the updates. *)
Inductive op :=
| Start (compiled : unit + string) (o : invoke_outcome)
| Fetch.

(** The session after the operations, and the events fetched so far. *)
Fixpoint serve (ops : list op) (s : Session) (fetched : list UpdateEvent)
    : Session * list UpdateEvent :=
  match ops with
  | [] => (s, fetched)
  | Start compiled o :: rest => serve rest (run_once compiled o s) fetched
  | Fetch :: rest =>
      let '(updates, s') := get_updates s in
      serve rest s' (fetched ++ updates)
  end.

Definition is_start (o : op) : bool :=
  match o with Start _ _ => true | Fetch => false end.

(** Two sessions that differ in their queues at most. *)
Definition same_but_queue (s s0 : Session) : Prop :=
  s_topic s = s_topic s0 /\ s_background_info s = s_background_info s0 /\
  num_rounds s = num_rounds s0 /\ debate_state s = debate_state s0 /\
  _debate_complete s = _debate_complete s0 /\
  _debate_thread s = _debate_thread s0 /\
  _current_phase s = _current_phase s0 /\ _error_state s = _error_state s0.

Lemma run_once_same_but_queue compiled o s s0 :
  same_but_queue s s0 ->
  same_but_queue (run_once compiled o s) (run_once compiled o s0) /\
  exists pushed,
    _update_queue (run_once compiled o s) = (_update_queue s ++ pushed)%list /\
    _update_queue (run_once compiled o s0) = (_update_queue s0 ++ pushed)%list.
Proof.
  intros (H1 & H2 & H3 & H4 & H5 & H6 & H7 & H8).
  unfold run_once. rewrite H6. destruct (_debate_thread s0) eqn:Halive.
  { split; [repeat split; congruence|]. exists []. by rewrite !app_nil_r. }
  unfold start_debate_async. rewrite H6, Halive.
  destruct compiled as [[]|e]; [destruct o as [r|e|]|]; simpl.
  - rewrite H1, H2, H3. unfold _queue_state_updates.
    set (acts := queue_actions _ r).
    split.
    + unfold same_but_queue. simpl.
      rewrite !foldl_run_action_phase.
      destruct (foldl_run_action_frame acts
                  (set_phase "executing"
                     (set_phase "initializing"
                        (set_debate_state
                           (initial_state (s_topic s0) (s_background_info s0)
                              (num_rounds s0))
                           (set_thread true (set_complete false s))))))
        as (E1 & E2 & E3 & E4 & E5 & E6 & E7).
      destruct (foldl_run_action_frame acts
                  (set_phase "executing"
                     (set_phase "initializing"
                        (set_debate_state
                           (initial_state (s_topic s0) (s_background_info s0)
                              (num_rounds s0))
                           (set_thread true (set_complete false s0))))))
        as (F1 & F2 & F3 & F4 & F5 & F6 & F7).
      rewrite E1, E5, E6, E7, F1, F5, F6, F7. simpl. by repeat split.
    + exists (events_of acts). by rewrite !foldl_run_action_queue.
  - split; [repeat split; simpl; congruence|]. exists []. by rewrite !app_nil_r.
  - split; [repeat split; simpl; congruence|]. exists []. by rewrite !app_nil_r.
  - split; [repeat split; simpl; congruence|]. exists []. by rewrite !app_nil_r.
Qed.

Lemma serve_fetch ops : forall s s0 fetched,
  same_but_queue s s0 ->
  (fetched ++ _update_queue s)%list = _update_queue s0 ->
  let r := serve ops s fetched in
  let r0 := serve (List.filter is_start ops) s0 [] in
  same_but_queue r.1 r0.1 /\ (r.2 ++ _update_queue r.1)%list = _update_queue r0.1.
Proof.
  induction ops as [|[compiled o|] ops IH]; intros s s0 fetched Hs Hq; simpl.
  - done.
  - destruct (run_once_same_but_queue compiled o s s0 Hs)
      as (Hs' & pushed & E & E0).
    apply IH; [done|]. by rewrite E, E0, app_assoc, Hq.
  - apply IH.
    + destruct Hs as (H1 & H2 & H3 & H4 & H5 & H6 & H7 & H8). by repeat split.
    + simpl. by rewrite app_nil_r.
Qed.

(** X25. Fetching neither loses nor repeats nor reorders an event: after any
    sequence of runs and fetches, the events fetched so far followed by
    the events still queued are the queue the same runs would have left
    had nobody fetched; and everything else in the session is as it
    would have been. *)
Theorem fetched_updates_are_the_queue_in_order :
  forall (ops : list op) (s : Session),
    _update_queue s = [] ->
    let r := serve ops s [] in
    let r0 := serve (List.filter is_start ops) s [] in
    (r.2 ++ _update_queue r.1)%list = _update_queue r0.1 /\
    same_but_queue r.1 r0.1 /\ r0.2 = [].
Proof.
  intros ops s Hq r r0.
  destruct (serve_fetch ops s s [] (ltac:(by repeat split)) eq_refl) as [H1 H2].
  split; [exact H2|]. split; [exact H1|].
  unfold r0. clear. generalize s.
  induction ops as [|[compiled o|] ops IH]; intros s0; simpl; [done| |]; apply IH.
Qed.

Lemma fetched_updates_are_the_queue_in_order_witness :
  let ops := [Start (inl tt) (Returned finished_debate); Fetch;
              Start (inl tt) (Returned finished_debate); Fetch; Fetch] in
  let r := serve ops (new_session "t" "b" 1) [] in
  let r0 := serve (List.filter is_start ops) (new_session "t" "b" 1) [] in
  length r.2 = 16 /\ _update_queue r.1 = [] /\ r.2 = _update_queue r0.1.
Proof.
  intros ops r r0.
  destruct (fetched_updates_are_the_queue_in_order ops (new_session "t" "b" 1))
    as (H & _ & _).
  - reflexivity.
  - assert (_update_queue r.1 = []) as Hq by by vm_compute.
    fold r r0 in H. rewrite Hq, app_nil_r in H.
    split; [by vm_compute|]. split; [exact Hq | exact H].
Defined.

End Streaming.

(* ===================================================================== *)
(** * The page that shows a debate ([app.py])                             *)
(* ===================================================================== *)

Module App.

Import Pipeline.
Import Streaming.

(** The test inside [any(...)]: [p.get("type") == phase_type and
    p.get("round", 0) == round_num], where [round_num] is
    [phase.get("round")], [None] for an event without the key. An [int]
    never equals [None]. *)
Definition same_phase (phase p : UpdateEvent) : bool :=
  bool_decide (ev_type p = ev_type phase)
  && match ev_round phase with
     | Some round_num => bool_decide (default 0 (ev_round p) = round_num)
     | None => false
     end.

(** [add_debate_phase]: what it returns, and [st.session_state.debate_phases]
    afterwards. *)
Definition add_debate_phase (phase : UpdateEvent)
    (debate_phases : list UpdateEvent) : bool * list UpdateEvent :=
  if existsb (same_phase phase) debate_phases then (false, debate_phases)
  else (true, (debate_phases ++ [phase])%list).

(** [for update in new_updates: if add_debate_phase(update): st.rerun()].
    [st.rerun()] halts the script run: the updates after the first one
    that was added are not looked at. The result is the list of phases
    and whether a rerun was asked for. *)
Fixpoint show_updates (new_updates debate_phases : list UpdateEvent)
    : list UpdateEvent * bool :=
  match new_updates with
  | [] => (debate_phases, false)
  | update :: rest =>
      let '(added, phases) := add_debate_phase update debate_phases in
      if added then (phases, true) else show_updates rest debate_phases
  end.

(** The two entries of [st.session_state] that outlive a script run. *)
Record Page := mkPage {
  debate_phases : list UpdateEvent;
  debate_manager : Session
}.

(** The block under [# Check for updates]. *)
Definition check_for_updates (pg : Page) : Page * bool :=
  let status := get_debate_status (debate_manager pg) in
  if has_updates status then
    let '(new_updates, manager) := get_updates (debate_manager pg) in
    let '(phases, rerun) := show_updates new_updates (debate_phases pg) in
    (mkPage phases manager, rerun)
  else (pg, false).

(** [k] script runs one after the other. *)
Fixpoint script_runs (k : nat) (pg : Page) : Page :=
  match k with
  | O => pg
  | S k' => script_runs k' (check_for_updates pg).1
  end.

(** The (type, round) pairs of the phases that have a round. *)
Definition round_keys (phases : list UpdateEvent) : list (string * nat) :=
  omap (fun p => (fun r => (ev_type p, r)) <$> ev_round p) phases.

Lemma existsb_same_phase_None phase phases :
  ev_round phase = None -> existsb (same_phase phase) phases = false.
Proof.
  intros H. induction phases as [|p phases IH]; [done|].
  simpl. rewrite IH. unfold same_phase. rewrite H. by rewrite andb_false_r.
Qed.

(** X26. An event without a round is never taken for one already shown: the
    default 0 of the stored phase is compared with [None]. It is appended
    even when the very same event is in the list. *)
Theorem add_debate_phase_repeats_events_without_round :
  forall (phase : UpdateEvent) (phases : list UpdateEvent),
    ev_round phase = None ->
    add_debate_phase phase phases = (true, (phases ++ [phase])%list).
Proof.
  intros phase phases H. unfold add_debate_phase.
  by rewrite existsb_same_phase_None.
Qed.

Lemma add_debate_phase_repeats_events_without_round_witness :
  add_debate_phase (mkEvent "introduction" None "intro" None)
    [mkEvent "introduction" None "intro" None]
  = (true, [mkEvent "introduction" None "intro" None;
            mkEvent "introduction" None "intro" None]).
Proof.
  apply (add_debate_phase_repeats_events_without_round
           (mkEvent "introduction" None "intro" None)
           [mkEvent "introduction" None "intro" None]).
  reflexivity.
Defined.

Lemma round_keys_app a b : round_keys (a ++ b) = (round_keys a ++ round_keys b)%list.
Proof. unfold round_keys. apply omap_app. Qed.

Lemma existsb_same_phase_round phase phases r :
  ev_round phase = Some r ->
  existsb (same_phase phase) phases = false ->
  (ev_type phase, r) ∉ round_keys phases.
Proof.
  intros Hr Hex Hin. unfold round_keys in Hin.
  apply list_elem_of_omap in Hin as (p & Hp & E).
  destruct (ev_round p) as [rp|] eqn:Hrp; [|done]. injection E as E1 E2.
  assert (existsb (same_phase phase) phases = true) as Ht; [|congruence].
  apply existsb_exists. exists p. split; [by apply list_elem_of_In|].
  unfold same_phase. rewrite Hr, Hrp. simpl.
  by rewrite !bool_decide_eq_true_2.
Qed.

(** X27. The events of rounds are shown once each: if no two phases of the
    list share type and round, none do after [add_debate_phase],
    whatever event it was given. *)
Theorem add_debate_phase_keeps_round_keys_unique :
  forall (phase : UpdateEvent) (phases : list UpdateEvent),
    NoDup (round_keys phases) ->
    NoDup (round_keys (add_debate_phase phase phases).2).
Proof.
  intros phase phases Hnd. unfold add_debate_phase.
  destruct (existsb (same_phase phase) phases) eqn:Hex; [done|]. simpl.
  rewrite round_keys_app. unfold round_keys at 2. simpl.
  destruct (ev_round phase) as [r|] eqn:Hr; simpl; [|by rewrite app_nil_r].
  apply NoDup_app. split; [done|]. split; [|apply NoDup_singleton].
  intros k Hk ->%list_elem_of_singleton.
  by apply (existsb_same_phase_round phase phases r).
Qed.

Lemma add_debate_phase_keeps_round_keys_unique_witness :
  NoDup (round_keys
           (add_debate_phase (mkEvent "pro_argument" (Some 1) "again" None)
              [mkEvent "introduction" None "intro" None;
               mkEvent "pro_argument" (Some 1) "p" None]).2).
Proof.
  apply (add_debate_phase_keeps_round_keys_unique
           (mkEvent "pro_argument" (Some 1) "again" None)
           [mkEvent "introduction" None "intro" None;
            mkEvent "pro_argument" (Some 1) "p" None]).
  by apply (bool_decide_unpack _).
Defined.

Lemma show_updates_spec new_updates : forall phases,
  (show_updates new_updates phases = (phases, false)) \/
  exists update, update ∈ new_updates /\
    show_updates new_updates phases = ((phases ++ [update])%list, true).
Proof.
  induction new_updates as [|u rest IH]; intros phases; [by left|].
  simpl. unfold add_debate_phase.
  destruct (existsb (same_phase u) phases).
  - destruct (IH phases) as [H|(update & Hin & H)]; [by left|].
    right. exists update. split; [by right | done].
  - right. exists u. split; [left | done].
Qed.

(** X28. One script run shows at most one of the updates it fetched and drops
    the others: afterwards the queue is empty, and the list of phases is
    the old one, or the old one with one of the fetched events at its
    end. *)
Theorem script_run_shows_one_update_and_drops_the_rest :
  forall pg : Page,
    let pg' := (check_for_updates pg).1 in
    _update_queue (debate_manager pg') = [] /\
    (debate_phases pg' = debate_phases pg \/
     exists update,
       update ∈ _update_queue (debate_manager pg) /\
       debate_phases pg' = (debate_phases pg ++ [update])%list).
Proof.
  intros pg pg'. unfold pg', check_for_updates, get_debate_status. simpl.
  case_bool_decide as Hq; simpl.
  - split; [done | by left].
  - unfold get_updates.
    destruct (show_updates_spec (_update_queue (debate_manager pg))
                (debate_phases pg)) as [H|(update & Hin & H)];
      rewrite H; simpl; (split; [done|]); [by left|].
    right. by exists update.
Qed.

Lemma script_runs_idle k : forall pg,
  _update_queue (debate_manager pg) = [] -> script_runs k pg = pg.
Proof.
  induction k as [|k IH]; intros pg Hq; [done|]. simpl.
  assert ((check_for_updates pg).1 = pg) as ->; [|by apply IH].
  unfold check_for_updates, get_debate_status. simpl.
  by rewrite bool_decide_eq_true_2.
Qed.

(** X29. What the page ends up showing of a batch: when the first event in the
    queue has no round, as the introduction that opens every debate, the
    first script run shows that event and nothing else, and no later run
    adds anything. The run of a debate queues all its events at its end,
    in one batch. *)
Theorem page_shows_first_event_of_a_batch_only :
  forall (pg : Page) (first : UpdateEvent) (rest : list UpdateEvent) (k : nat),
    _update_queue (debate_manager pg) = first :: rest ->
    ev_round first = None ->
    debate_phases (script_runs (S k) pg) = (debate_phases pg ++ [first])%list /\
    _update_queue (debate_manager (script_runs (S k) pg)) = [].
Proof.
  intros pg first rest k Hq Hr. simpl.
  assert ((check_for_updates pg).1
          = mkPage (debate_phases pg ++ [first])
              (get_updates (debate_manager pg)).2) as ->.
  { unfold check_for_updates, get_debate_status. simpl. rewrite Hq. simpl.
    unfold add_debate_phase. by rewrite existsb_same_phase_None. }
  by rewrite script_runs_idle.
Qed.

(** A finished debate of two rounds queues twelve events; the page shows
    the introduction. *)
Lemma page_shows_first_event_of_a_batch_only_witness :
  let manager := run_once (inl tt)
                   (Returned (final_state "t" "b" check_ok two_round_transcript))
                   (new_session "t" "b" 2) in
  length (_update_queue manager) = 12 /\
  debate_phases (script_runs 5 (mkPage [] manager))
  = [mkEvent "introduction" None "intro" None].
Proof.
  intros manager. split; [by vm_compute|].
  apply (page_shows_first_event_of_a_batch_only (mkPage [] manager)
           (mkEvent "introduction" None "intro" None)
           (tail (_update_queue manager)) 4).
  - by vm_compute.
  - reflexivity.
Defined.

End App.
